(** * radix.v2: connection pool and cluster coordinator

    A shallow embedding of the two Go packages of the repository:

    - [Pool]: package [pool] (the two-tier connection pool with the
      [active] / [maxActive] accounting);
    - [Cluster]: package [cluster] (slot map, pool registry, redirection
      and retry logic of [Cmd], [Reset], [GetEvery]).

    Go channels used as bounded buffers are lists with a capacity, the
    non-blocking [select { case ...: default: }] is a test on that buffer,
    [int32] arithmetic is written with its wrap-around, a Go map is a
    [gmap], and everything outside the two packages (dialing, the replies
    of the servers, the order in which Go iterates over a map, the reset
    ticker) is read from an explicit [World] indexed by a clock. *)

From Stdlib Require Import ZArith String Ascii List Lia DecimalString.
From stdpp Require Import base option list gmap sets strings.

Open Scope Z_scope.
Set Warnings "-register-all".

(** ** Machine integers *)

(** [int32(z)]: conversion to a signed 32 bit integer, wrapping around. *)
Definition int32 (z : Z) : Z := (z + 2147483648) mod 4294967296 - 2147483648.

(** [atomic.AddInt32(&a, d)]. *)
Definition AddInt32 (a d : Z) : Z := int32 (a + d).

(** ** Package pool *)

Module Pool.

(** A [*redis.Client] as the pool sees it: an identity and the
    [LastCritical] error field that [Put] reads. *)
Record Client := mkClient {
  cid : nat;
  LastCritical : option string
}.

Inductive error :=
| ErrIllegalArgument             (* "redis pool: bad arguments" *)
| ErrPoolExhausted               (* "redis: connection pool exhausted" *)
| ErrDial (msg : string).        (* whatever the DialFunc returned *)

(** What the pool does to connections, in program order. *)
Inductive event :=
| Dialed (c : Client)            (* df(network, addr) returned c *)
| Closed (c : Client).           (* c.Close() *)

(** [time.Duration] and [time.Time] in nanoseconds. *)
Definition Minute : Z := 60000000000.
Definition waitForReuse : Z := Minute.
Definition defaultMaxActive : Z := 100.

(** A buffered [chan *redis.Client]: the queued values, oldest first, and
    the capacity given to [make]. *)
Record chan := mkChan {
  buf : list Client;
  cap : Z
}.

(** [select { case ch <- c: ... default: ... }]: the send goes through
    when the buffer has room ([None] is the default branch). With
    capacity 0 it needs a waiting receiver, and the pool never has one. *)
Definition try_send (ch : chan) (c : Client) : option chan :=
  if Z.of_nat (length (buf ch)) <? cap ch
  then Some (mkChan (buf ch ++ [c]) (cap ch))
  else None.

(** [select { case c := <-ch: ... default: ... }]. *)
Definition try_recv (ch : chan) : option (Client * chan) :=
  match buf ch with
  | [] => None
  | c :: rest => Some (c, mkChan rest (cap ch))
  end.

Record Pool := mkPool {
  pool : chan;
  secondaryPool : chan;
  secondaryActive : Z;           (* time.Time *)
  active : Z;                    (* int32 *)
  maxActive : Z;                 (* int32 *)
  stopped : bool;                (* stopOnce has fired *)
  Network : string;
  Addr : string
}.

Definition set_pool (p : Pool) (ch : chan) : Pool :=
  mkPool ch (secondaryPool p) (secondaryActive p) (active p) (maxActive p)
         (stopped p) (Network p) (Addr p).
Definition set_secondaryPool (p : Pool) (ch : chan) : Pool :=
  mkPool (pool p) ch (secondaryActive p) (active p) (maxActive p)
         (stopped p) (Network p) (Addr p).
Definition set_secondaryActive (p : Pool) (t : Z) : Pool :=
  mkPool (pool p) (secondaryPool p) t (active p) (maxActive p)
         (stopped p) (Network p) (Addr p).
Definition set_active (p : Pool) (a : Z) : Pool :=
  mkPool (pool p) (secondaryPool p) (secondaryActive p) a (maxActive p)
         (stopped p) (Network p) (Addr p).
Definition set_stopped (p : Pool) : Pool :=
  mkPool (pool p) (secondaryPool p) (secondaryActive p) (active p) (maxActive p)
         true (Network p) (Addr p).

(** The result of one call of the [DialFunc]. *)
Definition dialed := (Client + string)%type.

(** How the background goroutine of [NewCustom] starts: it computes
    [5 * time.Minute / time.Duration(size)] and hands it to
    [time.NewTicker]. The division panics for [size = 0] and [NewTicker]
    panics on a non-positive interval; a panic in a goroutine ends the
    program. *)
Inductive probe :=
| ProbeEvery (d : Z)
| ProbePanics (why : string).

Definition startProbe (size : Z) : probe :=
  if size =? 0 then ProbePanics "runtime error: integer divide by zero"
  else let d := Z.quot (5 * Minute) size in
       if d <=? 0 then ProbePanics "non-positive interval for NewTicker"
       else ProbeEvery d.

(** What [NewCustom] hands back. *)
Inductive built :=
| Failed (e : error)                                   (* nil, err *)
| Panicked (why : string)                              (* NewCustom itself panics *)
| Built (p : Pool) (err : option error) (pr : probe) (evs : list event).

(** [mkConn] as [NewCustom] itself calls it (line 106): dial, and on
    success queue the connection and count it. The channel is empty then
    and has room ([size >= 1]), so the send goes through at once. *)
Definition mkConn (d : dialed) (p : Pool) : Pool * option error * list event :=
  match d with
  | inl client =>
      (set_active (set_pool p (mkChan (buf (pool p) ++ [client]) (cap (pool p))))
                  (AddInt32 (active p) 1),
       None, [Dialed client])
  | inr msg => (p, Some (ErrDial msg), [])
  end.

(** [NewCustom] returns after the first dial. The remaining [size - 1]
    calls of [mkConn] are made by the goroutine of lines 111-116, which
    runs beside the caller: see [dialer] below. [df i] is the [i]-th
    dial. *)
Definition NewCustom (network addr : string) (size maxActive : Z)
    (df : nat -> dialed) (now : Z) : built :=
  if maxActive <? size then Failed ErrIllegalArgument
  else
    let maxActive := if maxActive <=? 0 then defaultMaxActive else maxActive in
    if size <? 0 then Panicked "makechan: size out of range"
    else
      let p := mkPool (mkChan [] size) (mkChan [] (maxActive - size)) now 0
                      (int32 maxActive) false network addr in
      let pr := startProbe size in
      if size <? 1 then Built p None pr []
      else
        match mkConn (df O) p with
        | (p1, err, evs) => Built p1 err pr evs
        end.

(** The goroutine [for i := 0; i < size-1; i++ { mkConn() }] between two
    of its actions. Each [mkConn] is a dial, a send on [p.pool], which
    waits while the channel is full, and an [atomic.AddInt32]; the
    caller's operations may come between any two of them. *)
Inductive dialer :=
| Dialing (i n : nat)                     (* [n] calls left, the next dial is [df i] *)
| Sending (client : Client) (i n : nat)   (* [p.pool <- client] is next *)
| Counting (i n : nat).                   (* [atomic.AddInt32(&p.active, 1)] is next *)

(** The goroutine as [NewCustom] leaves it: started only after a first
    dial that worked. *)
Definition background (size : Z) (err : option error) : dialer :=
  match err with
  | None => Dialing 1 (Z.to_nat (size - 1))
  | Some _ => Dialing 1 O
  end.

(** One action of the goroutine. A send on a full channel does not go
    through: the goroutine stays where it is. *)
Definition dialerStep (df : nat -> dialed) (g : dialer) (p : Pool)
  : dialer * Pool * list event :=
  match g with
  | Dialing i O => (g, p, [])
  | Dialing i (S n) =>
      match df i with
      | inl client => (Sending client (S i) n, p, [Dialed client])
      | inr _ => (Dialing (S i) n, p, [])
      end
  | Sending client i n =>
      match try_send (pool p) client with
      | Some ch => (Counting i n, set_pool p ch, [])
      | None => (g, p, [])
      end
  | Counting i n => (Dialing i n, set_active p (AddInt32 (active p) 1), [])
  end.

(** [Get]. [d] is what [p.df] returns if it comes to dialing; in a
    sequential run the compare-and-swap on [active] succeeds at once. *)
Definition Get (now : Z) (d : dialed) (p : Pool)
  : Pool * (Client + error) * list event :=
  match try_recv (pool p) with
  | Some (conn, ch) => (set_pool p ch, inl conn, [])
  | None =>
      match try_recv (secondaryPool p) with
      | Some (conn, ch) =>
          (set_secondaryActive (set_secondaryPool p ch) now, inl conn, [])
      | None =>
          if active p <? maxActive p then
            let p1 := set_active p (active p + 1) in
            match d with
            | inr msg =>
                (set_active p1 (AddInt32 (active p1) (-1)), inr (ErrDial msg), [])
            | inl conn => (p1, inl conn, [Dialed conn])
            end
          else (p, inr ErrPoolExhausted, [])
      end
  end.

Definition Put (now : Z) (conn : Client) (p : Pool) : Pool * list event :=
  match LastCritical conn with
  | None =>
      match try_send (pool p) conn with
      | Some ch =>
          let p1 := set_pool p ch in
          if secondaryActive p1 + waitForReuse <? now then
            match try_recv (secondaryPool p1) with
            | Some (conn2, ch2) =>
                (set_active (set_secondaryPool p1 ch2) (AddInt32 (active p1) (-1)),
                 [Closed conn2])
            | None => (set_secondaryActive p1 now, [])
            end
          else (p1, [])
      | None =>
          match try_send (secondaryPool p) conn with
          | Some ch => (set_secondaryPool p ch, [])
          | None => (set_active p (AddInt32 (active p) (-1)), [Closed conn])
          end
      end
  | Some _ => (set_active p (AddInt32 (active p) (-1)), [])
  end.

(** [Empty]: stop the probe once, then drain and close the primary
    channel. *)
Definition Empty (p : Pool) : Pool * list event :=
  (set_pool (set_stopped p) (mkChan [] (cap (pool p))),
   map Closed (buf (pool p))).

Definition Avail (p : Pool) : Z := Z.of_nat (length (buf (pool p))).

(** *** Runs of a pool

    A caller's view of a pool: the operations it may issue, and the
    number [out] of connections it holds (obtained from [Get], not yet
    handed to [Put]). *)
Inductive op :=
| OpGet (now : Z) (d : dialed)
| OpPut (now : Z) (conn : Client)
| OpEmpty.

Definition step (st : Pool * Z) (o : op) : Pool * Z :=
  let '(p, out) := st in
  match o with
  | OpGet now d =>
      match Get now d p with
      | (p', inl _, _) => (p', out + 1)
      | (p', inr _, _) => (p', out)
      end
  | OpPut now conn => ((Put now conn p).1, out - 1)
  | OpEmpty => ((Empty p).1, out)
  end.

(** A caller only puts back what it holds. *)
Definition allowed (st : Pool * Z) (o : op) : Prop :=
  match o with
  | OpPut _ _ => 0 < st.2
  | _ => True
  end.

Fixpoint run (st : Pool * Z) (ops : list op) : Pool * Z :=
  match ops with
  | [] => st
  | o :: rest => run (step st o) rest
  end.

Fixpoint allowed_run (st : Pool * Z) (ops : list op) : Prop :=
  match ops with
  | [] => True
  | o :: rest => allowed st o /\ allowed_run (step st o) rest
  end.

(** The goroutine left alone for [k] of its actions. *)
Fixpoint dialerRun (df : nat -> dialed) (k : nat) (g : dialer) (p : Pool)
  : dialer * Pool :=
  match k with
  | O => (g, p)
  | S k' =>
      let '(g', p', _) := dialerStep df g p in
      dialerRun df k' g' p'
  end.

(** *** Runs beside the goroutine of [NewCustom]

    A schedule gives the order in which the operations of one caller
    and the actions of the goroutine take place. The goroutine touches
    [p.pool], by a send, and [p.active], by an increment, and nothing
    else. The caller's operations are taken whole; where an action of
    the goroutine falls inside one of them, the state reached is that
    of a schedule of whole operations: an increment commutes with the
    caller's own updates of [active]; a send between the failed
    receives of a [Get] and its test of [active] is a send after that
    [Get], or, when the test then fails, the [Get] changes nothing and
    is left out; a send between two receives of [Empty] is a send
    between two calls of [Empty]. A receive that frees a slot while the
    goroutine waits to send is followed in Go by that send at once;
    here the send is the goroutine's next turn. *)
Inductive turn :=
| Caller (o : op)
| Background.

Definition sstep (df : nat -> dialed) (st : Pool * Z * dialer) (t : turn)
  : Pool * Z * dialer :=
  let '(p, out, g) := st in
  match t with
  | Caller o => let '(p', out') := step (p, out) o in (p', out', g)
  | Background => let '(g', p', _) := dialerStep df g p in (p', out, g')
  end.

Fixpoint srun (df : nat -> dialed) (st : Pool * Z * dialer) (ts : list turn)
  : Pool * Z * dialer :=
  match ts with
  | [] => st
  | t :: rest => srun df (sstep df st t) rest
  end.

Fixpoint sallowed (df : nat -> dialed) (st : Pool * Z * dialer) (ts : list turn)
  : Prop :=
  match ts with
  | [] => True
  | t :: rest =>
      match t with
      | Caller o => allowed (st.1.1, st.1.2) o
      | Background => True
      end /\ sallowed df (sstep df st t) rest
  end.

(** The calls of [AddInt32(&p.active, 1)] the goroutine has still to
    make, and whether it has sent a connection it has not counted yet. *)
Definition todo (g : dialer) : Z :=
  match g with
  | Dialing _ n => Z.of_nat n
  | Sending _ _ n => Z.of_nat n + 1
  | Counting _ n => Z.of_nat n + 1
  end.

Definition uncounted (g : dialer) : Z :=
  match g with
  | Counting _ _ => 1
  | _ => 0
  end.

(** The accounting beside the goroutine: the connections idle or lent
    are counted in [active] but for one the goroutine has sent and not
    counted yet, and [active] exceeds [maxActive] by no more than what
    the goroutine adds, [extra] at most. *)
Definition saccounted (extra : Z) (st : Pool * Z * dialer) : Prop :=
  let '(p, out, g) := st in
  0 <= out /\
  Z.of_nat (length (buf (pool p))) + Z.of_nat (length (buf (secondaryPool p))) + out
    <= active p + uncounted g /\
  todo g <= extra /\
  active p + todo g <= maxActive p + extra /\
  maxActive p + extra < 2147483648.

(** [Cmd]: borrow, run the command, put back. [exec] is [c.Cmd] on the
    borrowed client: the client as the command leaves it (its
    [LastCritical] may have been set) and the reply; [later] is the time
    of the deferred [Put]. *)
Definition Cmd {R : Type} (now later : Z) (d : dialed)
    (exec : Client -> Client * R) (p : Pool)
  : Pool * (R + error) * list event :=
  match Get now d p with
  | (p1, inr err, evs) => (p1, inr err, evs)
  | (p1, inl c, evs) =>
      let '(c', r) := exec c in
      let '(p2, evs2) := Put later c' p1 in
      (p2, inl r, evs ++ evs2)
  end.

(** Neither channel holds more than its capacity. *)
Definition fits (p : Pool) : Prop :=
  Z.of_nat (length (buf (pool p))) <= cap (pool p) /\
  Z.of_nat (length (buf (secondaryPool p))) <= cap (secondaryPool p).

(** The idle and the lent connections are all counted in [active]. *)
Definition accounted (st : Pool * Z) : Prop :=
  let '(p, out) := st in
  0 <= out /\
  Z.of_nat (length (buf (pool p))) + Z.of_nat (length (buf (secondaryPool p))) + out
    <= active p /\
  active p <= maxActive p /\
  maxActive p < 2147483648.

End Pool.

(** ** Package cluster *)

Module Cluster.

Definition numSlots : Z := 16384.

(** *** The Go library functions the package calls *)

(** [strings.Index(s, substr)]: byte offset of the first occurrence, or -1. *)
Fixpoint index_of (s substr : string) : option nat :=
  if String.prefix substr s then Some O
  else match s with
       | EmptyString => None
       | String _ s' => S <$> index_of s' substr
       end.

Definition Index (s substr : string) : Z :=
  match index_of s substr with
  | Some n => Z.of_nat n
  | None => -1
  end.

Definition HasPrefix (s pre : string) : bool := String.prefix pre s.

(** [s[a:]] and [s[a:b]]; [None] is the run-time panic
    "slice bounds out of range". *)
Definition slice_from (s : string) (a : Z) : option string :=
  if (0 <=? a) && (a <=? Z.of_nat (String.length s))
  then Some (substring (Z.to_nat a) (String.length s - Z.to_nat a) s)
  else None.

Definition slice (s : string) (a b : Z) : option string :=
  if (0 <=? a) && (a <=? b) && (b <=? Z.of_nat (String.length s))
  then Some (substring (Z.to_nat a) (Z.to_nat (b - a)) s)
  else None.

(** [strings.Split(s, sep)] for a one-byte separator. *)
Fixpoint Split (s : string) (sep : ascii) : list string :=
  match s with
  | EmptyString => [EmptyString]
  | String a s' =>
      if Ascii.eqb a sep then EmptyString :: Split s' sep
      else match Split s' sep with
           | [] => [String a EmptyString]
           | w :: ws => String a w :: ws
           end
  end.

Definition digit_of (a : ascii) : option Z :=
  let n := Z.of_nat (nat_of_ascii a) in
  if (48 <=? n) && (n <=? 57) then Some (n - 48) else None.

Fixpoint digits (s : string) (acc : Z) : option Z :=
  match s with
  | EmptyString => Some acc
  | String a s' =>
      match digit_of a with
      | Some d => digits s' (10 * acc + d)
      | None => None
      end
  end.

(** [strconv.Atoi]: optional sign, at least one decimal digit, result in
    the range of a 64 bit [int]; [None] is its error. *)
Definition Atoi (s : string) : option Z :=
  let '(neg, body) :=
    match s with
    | String "+"%char s' => (false, s')
    | String "-"%char s' => (true, s')
    | _ => (false, s)
    end in
  match body with
  | EmptyString => None
  | _ =>
      match digits body 0 with
      | Some v =>
          let v := if neg then - v else v in
          if (-9223372036854775808 <=? v) && (v <=? 9223372036854775807)
          then Some v else None
      | None => None
      end
  end.

(** [strconv.Itoa]. *)
Definition Itoa (z : Z) : string := NilZero.string_of_int (Z.to_int z).

(** *** Data *)

(** A [*redis.Resp] as the package reads it: [Err] and
    [IsType(redis.IOErr)] of an error reply, and the [Array], [Int] and
    [Str] views of a value. *)
Inductive Resp :=
| RespErr (io : bool) (msg : string)
| RespInt (z : Z)
| RespStr (s : string)
| RespArr (elems : list Resp)
| RespNil.

Definition Err (r : Resp) : option string :=
  match r with RespErr _ msg => Some msg | _ => None end.

Definition IsIOErr (r : Resp) : bool :=
  match r with RespErr io _ => io | _ => false end.

Definition Array (r : Resp) : string + list Resp :=
  match r with
  | RespArr l => inr l
  | RespErr _ msg => inl msg
  | _ => inl "resp is not an array"%string
  end.

Definition Int (r : Resp) : string + Z :=
  match r with
  | RespInt z => inr z
  | RespErr _ msg => inl msg
  | _ => inl "resp is not an integer"%string
  end.

Definition Str (r : Resp) : string + string :=
  match r with
  | RespStr s => inr s
  | RespErr _ msg => inl msg
  | _ => inl "resp is not a string"%string
  end.

(** [errorResp]: [redis.NewResp(err)], an application-level error reply. *)
Definition errorResp (err : string) : Resp := RespErr false err.

Definition ErrBadCmdNoKey : string := "bad command, no key".
Definition errNoPools : string := "no pools to pull from".

(** One element of [args ...interface{}]. *)
Inductive Arg :=
| AStr (s : string)
| ABytes (s : string)
| ASlice (l : list Arg)
| AMap
| ANil                           (* the nil interface value *)
| AOther (printed : string).     (* anything else, with its fmt.Sprint *)

(** A [*redis.Client] and a [*pool.Pool] as the cluster sees them: the
    address they are bound to and an identity (the clock value at which
    they were made). *)
Record Client := mkClient { cid : nat; cAddr : string }.
Record Pool := mkPool { pid : nat; Addr : string }.

Record Opts := mkOpts {
  oAddr : string;
  Timeout : Z;
  PoolSize : Z;
  ResetThrottle : Z
}.

Record Cluster := mkCluster {
  o : Opts;
  mapping : gmap Z string;             (* [numSlots]string, "" when absent *)
  pools : gmap string Pool;
  resetThrottle : option Z             (* nil, or a ticker and its period *)
}.

(** [c.mapping[i]] for an index in range. *)
Definition slotAt (m : gmap Z string) (i : Z) : string :=
  default EmptyString (m !! i).

(** Everything the package does to the outside, in program order. *)
Inductive event :=
| EvNewPool (p : Pool) (err : option string)     (* pool.NewCustom *)
| EvGet (p : Pool) (c : Client)                  (* p.Get() gave c *)
| EvGetFail (p : Pool) (err : string)            (* p.Get() failed *)
| EvPoolPut (p : Pool) (c : Client)              (* p.Put(c) *)
| EvClose (c : Client)                           (* c.Close() *)
| EvEmpty (p : Pool)                             (* p.Empty() *)
| EvCmd (c : Client) (cmd : string) (args : list Arg)
| EvMiss                                         (* send on MissCh *)
| EvChange.                                      (* send on ChangeCh *)

(** The collaborators. Every consultation is indexed by the clock of the
    run, so two dials, two [Get]s or two commands need not agree. *)
Record World := mkWorld {
  CRC16 : string -> Z;
  dial : nat -> string -> option string;         (* error of pool.NewCustom *)
  poolGet : nat -> string -> option string;      (* error of p.Get() *)
  reply : nat -> string -> string -> list Arg -> Resp;
  order : nat -> list nat;                       (* order of a map iteration *)
  ticked : nat -> bool                           (* resetThrottle.C is ready *)
}.

Record St := mkSt {
  cl : Cluster;
  clock : nat;
  trace : list event
}.

(** *** The state monad with panics *)

Inductive res (A : Type) :=
| Ret (a : A) (s : St)
| Panic (why : string)
| OutOfFuel.
Arguments Ret {A} a s.
Arguments Panic {A} why.
Arguments OutOfFuel {A}.

Definition M (A : Type) : Type := St -> res A.

#[global] Instance M_ret : MRet M := fun A a s => Ret a s.
#[global] Instance M_bind : MBind M := fun A B f m s =>
  match m s with
  | Ret a s' => f a s'
  | Panic why => Panic why
  | OutOfFuel => OutOfFuel
  end.

Definition panic {A} (why : string) : M A := fun _ => Panic why.
Definition getCluster : M Cluster := fun s => Ret (cl s) s.
Definition setCluster (c : Cluster) : M unit :=
  fun s => Ret tt (mkSt c (clock s) (trace s)).
Definition tick : M nat :=
  fun s => Ret (clock s) (mkSt (cl s) (S (clock s)) (trace s)).
Definition emit (e : event) : M unit :=
  fun s => Ret tt (mkSt (cl s) (clock s) (trace s ++ [e])).
Definition skip : M unit := mret tt.

Definition set_mapping (c : Cluster) (m : gmap Z string) : Cluster :=
  mkCluster (o c) m (pools c) (resetThrottle c).
Definition set_pools (c : Cluster) (ps : gmap string Pool) : Cluster :=
  mkCluster (o c) (mapping c) ps (resetThrottle c).
Definition set_resetThrottle (c : Cluster) (t : option Z) : Cluster :=
  mkCluster (o c) (mapping c) (pools c) t.

(** [c.mapping[i] = addr], with the bounds check of a Go array. *)
Definition setSlot (i : Z) (addr : string) : M unit :=
  if (0 <=? i) && (i <? numSlots) then
    c ← getCluster; setCluster (set_mapping c (<[i := addr]> (mapping c)))
  else panic "index out of range".

(** The order in which a [range] visits the entries of a map: any
    permutation, chosen here by the numbers in [seed]. *)
Fixpoint shuffle {A} (seed : list nat) (l : list A) : list A :=
  match seed with
  | [] => l
  | i :: seed' =>
      let k := (i mod length l)%nat in
      match l !! k with
      | Some x => x :: shuffle seed' (delete k l)
      | None => l
      end
  end.

(** [KeyFromArgs(args ...interface{})]: the key, or the error, or [None]
    for the panic of [reflect.TypeOf(arg).Kind()] on a nil interface
    value, for which [reflect.TypeOf] returns nil. *)
Fixpoint keyOfArg (arg : Arg) : option (string + string) :=
  match arg with
  | AStr argv => Some (inr argv)
  | ABytes argv => Some (inr argv)
  | ASlice [] => Some (inl ErrBadCmdNoKey)
  | ASlice (first :: _) => keyOfArg first
  | AMap => Some (inl ErrBadCmdNoKey)
  | ANil => None
  | AOther printed => Some (inr printed)
  end.

Definition KeyFromArgs (args : list Arg) : option (string + string) :=
  match args with
  | [] => Some (inl ErrBadCmdNoKey)
  | arg :: _ => keyOfArg arg
  end.

(** Lines 557-561 of [addrForKeyInner]: the part of the key that is
    hashed; [None] is the panic of [key[start+2:]]. *)
Definition hashTag (key : string) : option string :=
  let start := Index key "{" in
  if 0 <=? start then
    match slice_from key (start + 2) with
    | None => None
    | Some rest =>
        let end_ := Index rest "}" in
        if 0 <=? end_ then slice key (start + 1) (start + 2 + end_)
        else Some key
    end
  else Some key.

Definition haveTried (tried : option (gmap string bool)) (addr : string) : bool :=
  match tried with
  | None => false
  | Some m => default false (m !! addr)
  end.

Definition justTried (tried : option (gmap string bool)) (addr : string)
  : option (gmap string bool) :=
  Some (<[addr := true]> (default ∅ tried)).

Definition redirectInfo (msg : string) : option (Z * string) :=
  let parts := Split msg " " in
  match parts !! 1%nat with
  | None => None                                   (* index out of range *)
  | Some slotStr =>
      match Atoi slotStr with
      | None => None                               (* panic(err) *)
      | Some slot =>
          match parts !! 2%nat with
          | None => None
          | Some addr => Some (slot, addr)
          end
      end
  end.

(** Reading one element of the CLUSTER SLOTS reply (lines 284-303). *)
Inductive parsed (A : Type) :=
| POk (a : A)
| PErr (err : string)
| PPanic.
Arguments POk {A} a.
Arguments PErr {A} err.
Arguments PPanic {A}.

Definition pbind {A B} (x : parsed A) (f : A -> parsed B) : parsed B :=
  match x with
  | POk a => f a
  | PErr e => PErr e
  | PPanic => PPanic
  end.

Definition checked {A} (x : string + A) : parsed A :=
  match x with inl e => PErr e | inr a => POk a end.

Definition elemAt (l : list Resp) (i : nat) : parsed Resp :=
  match l !! i with Some r => POk r | None => PPanic end.

Definition parseGroup (slotGroup : Resp) : parsed (Z * Z * string * Z) :=
  pbind (checked (Array slotGroup)) (fun slotElems =>
  pbind (elemAt slotElems 0) (fun e0 =>
  pbind (checked (Int e0)) (fun start =>
  pbind (elemAt slotElems 1) (fun e1 =>
  pbind (checked (Int e1)) (fun end_ =>
  pbind (elemAt slotElems 2) (fun e2 =>
  pbind (checked (Array e2)) (fun slotAddrElems =>
  pbind (elemAt slotAddrElems 0) (fun a0 =>
  pbind (checked (Str a0)) (fun ip =>
  pbind (elemAt slotAddrElems 1) (fun a1 =>
  pbind (checked (Int a1)) (fun port =>
  POk (start, end_, ip, port)))))))))))).

(** The address a slot group stands for (lines 308-312); [src] is
    [p.Addr] of the pool the reply came from. *)
Definition slotAddrOf (src ip : string) (port : Z) : string :=
  if decide (ip = EmptyString) then src else ip +:+ ":" +:+ Itoa port.

(** The master addresses of a CLUSTER SLOTS reply, group by group, an
    empty ip standing for the address [src] of the pool the reply was
    obtained from; groups that cannot be read contribute nothing. *)
Definition masterAddrs (src : string) (elems : list Resp) : list string :=
  flat_map (fun slotGroup =>
              match parseGroup slotGroup with
              | POk (_, _, ip, port) => [slotAddrOf src ip port]
              | _ => []
              end) elems.

(** Slot [j] lies in the range of a slot group of the reply. *)
Definition covers (slotGroup : Resp) (j : Z) : bool :=
  match parseGroup slotGroup with
  | POk (start, end_, _, _) => (start <=? j) && (j <=? end_)
  | _ => false
  end.

(** What the retry loop of [clientCmd] does after one attempt. *)
Inductive next :=
| Return (r : Resp)
| Recurse (client : Client) (ask : bool)
          (tried : option (gmap string bool)) (haveReset : bool).

(** Operations that leave the registry alone and empty no pool. *)
Definition quiet {A} (m : M A) : Prop :=
  forall s a s', m s = Ret a s' ->
    pools (cl s') = pools (cl s) /\
    exists evs, trace s' = trace s ++ evs /\ forall q, EvEmpty q ∉ evs.

(** The connection [c] is handed back in [evs]: put into a pool or
    closed. *)
Definition givenBack (c : Client) (evs : list event) : Prop :=
  EvClose c ∈ evs \/ exists q, EvPoolPut q c ∈ evs.

(** Every connection a [Get] hands out in [evs] is handed back later in
    [evs], but for those in [open]. *)
Fixpoint settledBut (open : Client -> Prop) (evs : list event) : Prop :=
  match evs with
  | [] => True
  | EvGet _ c :: rest => (givenBack c rest \/ open c) /\ settledBut open rest
  | _ :: rest => settledBut open rest
  end.

(** Operations whose events leave open only the connections [open]
    allows for their result. *)
Definition owes {A} (open : A -> Client -> Prop) (m : M A) : Prop :=
  forall s a s', m s = Ret a s' ->
    exists evs, trace s' = trace s ++ evs /\ settledBut (open a) evs.

Section Operations.

Variable w : World.

(** [for k, v := range m]. *)
Definition rangeOver {A} (m : gmap string A) : M (list (string * A)) :=
  t ← tick; mret (shuffle (order w t) (map_to_list m)).

(** [newPool]: [pool.NewCustom("tcp", addr, o.PoolSize, df)] of the
    imported pool package, which dials once before it returns. *)
Definition newPool (addr : string) : M (Pool * option string) :=
  t ← tick;
  let p := mkPool t addr in
  let err := dial w t addr in
  emit (EvNewPool p err);;
  mret (p, err).

(** [p.Get()]. *)
Definition Pool_Get (p : Pool) : M (string + Client) :=
  t ← tick;
  match poolGet w t (Addr p) with
  | None => let c := mkClient t (Addr p) in emit (EvGet p c);; mret (inr c)
  | Some err => emit (EvGetFail p err);; mret (inl err)
  end.

(** [client.Cmd(cmd, args...)]. *)
Definition Client_Cmd (client : Client) (cmd : string) (args : list Arg) : M Resp :=
  t ← tick;
  emit (EvCmd client cmd args);;
  mret (reply w t (cAddr client) cmd args).

Definition addrForKeyInner (key : string) : M string :=
  match hashTag key with
  | None => panic "slice bounds out of range"
  | Some key =>
      c ← getCluster;
      mret (slotAt (mapping c) (CRC16 w key mod numSlots))
  end.

Definition getRandomPoolInner : M (option Pool) :=
  c ← getCluster;
  l ← rangeOver (pools c);
  mret (snd <$> head l).

Definition getConn (key addr : string) : M (string + Client) :=
  addr ← (if decide (key = EmptyString) then mret addr else addrForKeyInner key);
  c ← getCluster;
  '(p, err) ← match pools c !! addr with
              | Some p => mret (p, None)
              | None => newPool addr
              end;
  r ← match err with
      | None => Pool_Get p
      | Some e => mret (inl e)
      end;
  match r with
  | inr conn => mret (inr conn)
  | inl _ =>
      (* one more try on a random pool *)
      rp ← getRandomPoolInner;
      match rp with
      | None => mret (inl errNoPools)
      | Some p => Pool_Get p
      end
  end.

Definition Put (conn : Client) : M unit :=
  c ← getCluster;
  match pools c !! cAddr conn with
  | None => emit (EvClose conn)
  | Some p => emit (EvPoolPut p conn)
  end.

Definition GetAddrForKey (key : string) : M string := addrForKeyInner key.

Definition GetForKey (key : string) : M (string + Client) := getConn key "".

(** [for i := start; i <= end; i++ { c.mapping[i] = slotAddr }]:
    [n] iterations from index [i]. *)
Fixpoint setRange (n : nat) (i : Z) (slotAddr : string) : M unit :=
  match n with
  | O => skip
  | S n' => setSlot i slotAddr;; setRange n' (i + 1) slotAddr
  end.

(** The loop over the slot groups (lines 283-326): [src] is the pool the
    reply came from, [acc] the registry under construction and the
    [changed] flag. *)
Fixpoint slotLoop (src : Pool) (elems : list Resp)
    (acc : gmap string Pool * bool) : M (string + (gmap string Pool * bool)) :=
  match elems with
  | [] => mret (inr acc)
  | slotGroup :: rest =>
      match parseGroup slotGroup with
      | PPanic => panic "index out of range"
      | PErr err => mret (inl err)
      | POk (start, end_, ip, port) =>
          let slotAddr := slotAddrOf (Addr src) ip port in
          setRange (Z.to_nat (end_ - start + 1)) start slotAddr;;
          c ← getCluster;
          match pools c !! slotAddr with
          | Some slotPool => slotLoop src rest (<[slotAddr := slotPool]> acc.1, acc.2)
          | None =>
              '(slotPool, err) ← newPool slotAddr;
              match err with
              | Some e => mret (inl e)
              | None => slotLoop src rest (<[slotAddr := slotPool]> acc.1, true)
              end
          end
      end
  end.

(** Lines 328-333: empty the pools the new registry does not carry. *)
Fixpoint dropStale (old : list (string * Pool)) (new : gmap string Pool)
    (changed : bool) : M bool :=
  match old with
  | [] => mret changed
  | (addr, p) :: rest =>
      match new !! addr with
      | Some _ => dropStale rest new changed
      | None => emit (EvEmpty p);; dropStale rest new true
      end
  end.

(** Lines 268-343 of [resetInner], once a client has been borrowed
    from the pool [p]. *)
Definition rebuild (p : Pool) (client : Client) : M (option string) :=
  r ← Client_Cmd client "CLUSTER" [AStr "SLOTS"];
  match Array r with
  | inl err => mret (Some err)
  | inr [] => mret (Some "empty CLUSTER SLOTS response"%string)
  | inr elems =>
      lp ← slotLoop p elems ({[Addr p := p]}, false);
      match lp with
      | inl err => mret (Some err)
      | inr (new, changed) =>
          c ← getCluster;
          old ← rangeOver (pools c);
          changed ← dropStale old new changed;
          c ← getCluster;
          setCluster (set_pools c new);;
          (if changed : bool then emit EvChange else skip);;
          mret None
      end
  end.

Definition resetInner : M (option string) :=
  c ← getCluster;
  proceed ← match resetThrottle c with
            | Some _ => t ← tick; mret (ticked w t)
            | None =>
                (* time.NewTicker panics on a non-positive interval *)
                if ResetThrottle (o c) <=? 0
                then panic "non-positive interval for NewTicker"
                else
                  setCluster (set_resetThrottle c (Some (ResetThrottle (o c))));;
                  mret true
            end;
  if negb proceed then mret None
  else
    rp ← getRandomPoolInner;
    match rp with
    | None => mret (Some "no available nodes to call CLUSTER SLOTS on"%string)
    | Some p =>
        g ← Pool_Get p;
        match g with
        | inl err => mret (Some err)
        | inr client =>
            res ← rebuild p client;
            emit (EvClose client);;            (* defer client.Close() *)
            mret res
        end
    end.

Definition Reset : M (option string) := resetInner.

(** Lines 409-419: the optional ASKING, then the command. *)
Definition issue (client : Client) (cmd : string) (args : list Arg)
    (ask : bool) : M Resp :=
  r ← (if ask then r ← Client_Cmd client "ASKING" []; mret (Some r)
       else mret None);
  match r with
  | Some (RespErr io msg) => mret (RespErr io msg)
  | _ => Client_Cmd client cmd args
  end.

(** Lines 497-501: borrow a connection for [addr] and go round again. *)
Definition retryAt (addr : string) (ask : bool)
    (tried : option (gmap string bool)) (haveReset : bool) : M next :=
  g ← getConn "" addr;
  match g with
  | inl getErr => mret (Return (errorResp getErr))
  | inr client => mret (Recurse client ask tried haveReset)
  end.

(** The body of [clientCmd] up to its recursive call; the deferred
    [c.Put(client)] is in [clientCmd] below. *)
Definition attempt (client : Client) (cmd : string) (args : list Arg)
    (ask : bool) (tried : option (gmap string bool)) (haveReset : bool)
  : M next :=
  r ← issue client cmd args ask;
  match Err r with
  | None => mret (Return r)
  | Some err =>
      let haveTriedBefore := haveTried tried (cAddr client) in
      let tried := justTried tried (cAddr client) in
      if IsIOErr r then
        again ← (if negb haveTriedBefore then
                   g ← getConn "" (cAddr client);
                   match g with
                   | inr client => mret (Some (Recurse client false tried haveReset))
                   | inl _ => mret None
                   end
                 else mret None);
        match again with
        | Some nx => mret nx
        | None =>
            if negb haveReset then
              resetErr ← Reset;
              match resetErr with
              | Some e =>
                  mret (Return (errorResp ("Could not get cluster info: " +:+ e)))
              | None =>
                  g ← getConn "" "";
                  match g with
                  | inl getErr => mret (Return (errorResp getErr))
                  | inr client => mret (Recurse client false tried true)
                  end
              end
            else mret (Return r)
        end
      else
        let msg := err in
        let moved := HasPrefix msg "MOVED " in
        let ask := HasPrefix msg "ASK " in
        if moved || ask then
          match redirectInfo msg with
          | None => panic "redirectInfo"
          | Some (slot, addr) =>
              emit EvMiss;;
              if haveTried tried addr then
                if haveReset then
                  mret (Return (errorResp "Cluster doesn't make sense"))
                else
                  resetErr ← Reset;
                  match resetErr with
                  | Some e =>
                      mret (Return (errorResp ("Could not get cluster info: " +:+ e)))
                  | None =>
                      g ← getConn "" "";
                      match g with
                      | inl getErr =>
                          mret (Return (errorResp
                                  ("No available cluster nodes: " +:+ getErr)))
                      | inr client => mret (Recurse client false None true)
                      end
                  end
              else
                (if moved then setSlot slot addr else skip);;
                retryAt addr ask tried haveReset
          end
        else mret (Return r)
  end.

(** [clientCmd]. A server may redirect to ever new addresses, so the
    recursion is bounded by [fuel]. *)
Fixpoint clientCmd (fuel : nat) (client : Client) (cmd : string)
    (args : list Arg) (ask : bool) (tried : option (gmap string bool))
    (haveReset : bool) : M Resp :=
  match fuel with
  | O => fun _ => OutOfFuel
  | S fuel' =>
      nx ← attempt client cmd args ask tried haveReset;
      r ← match nx with
          | Return r => mret r
          | Recurse client' ask' tried' haveReset' =>
              clientCmd fuel' client' cmd args ask' tried' haveReset'
          end;
      Put client;;                             (* defer c.Put(client) *)
      mret r
  end.

Definition Cmd (fuel : nat) (cmd : string) (args : list Arg) : M Resp :=
  match args with
  | [] => mret (errorResp ErrBadCmdNoKey)
  | _ =>
      match KeyFromArgs [ASlice args] with
      | None => panic "invalid memory address or nil pointer dereference"
      | Some (inl err) => mret (errorResp err)
      | Some (inr key) =>
          g ← getConn key "";
          match g with
          | inl err => mret (errorResp err)
          | inr client => clientCmd fuel client cmd args false None false
          end
      end
  end.

(** [GetEvery]: the loop over [c.pools], then the function. *)
Fixpoint getEach (l : list (string * Pool)) (m : gmap string Client)
  : M (string + gmap string Client) :=
  match l with
  | [] => mret (inr m)
  | (addr, p) :: rest =>
      g ← Pool_Get p;
      match g with
      | inl err => mret (inl err)
      | inr client => getEach rest (<[addr := client]> m)
      end
  end.

Definition GetEvery : M (string + gmap string Client) :=
  c ← getCluster;
  l ← rangeOver (pools c);
  getEach l ∅.

(** [Close]: the loop [for addr, p := range c.pools { p.Empty();
    delete(c.pools, addr) }]. Stopping the reset ticker and closing
    [stopCh] leave the modelled state as it is. *)
Fixpoint closeEach (l : list (string * Pool)) : M unit :=
  match l with
  | [] => skip
  | (addr, p) :: rest =>
      emit (EvEmpty p);;
      c ← getCluster;
      setCluster (set_pools c (delete addr (pools c)));;
      closeEach rest
  end.

Definition Close : M unit :=
  c ← getCluster;
  l ← rangeOver (pools c);
  closeEach l.

(** [NewWithOpts]. *)
Definition NewWithOpts (o : Opts) : res (string + unit) :=
  let o := mkOpts (oAddr o) (Timeout o)
                  (if PoolSize o =? 0 then 10 else PoolSize o)
                  (if ResetThrottle o =? 0 then 10000000000 else ResetThrottle o) in
  let s0 := mkSt (mkCluster o ∅ ∅ None) O [] in
  (made ← newPool (oAddr o);
   match made with
   | (_, Some err) => mret (inl err)
   | (initialPool, None) =>
       c ← getCluster;
       setCluster (set_pools c {[oAddr o := initialPool]});;
       err ← Reset;
       match err with
       | Some e => mret (inl e)
       | None => mret (inr tt)
       end
   end) s0.

End Operations.

(** *** Properties of operations used in the statements *)

(** The operations that only consult the world leave the cluster as it
    is. *)
Definition keeps {A} (m : M A) : Prop :=
  forall s a s', m s = Ret a s' -> cl s' = cl s.

(** Operations that leave the registry and the trace prefix alone. *)
Definition grows {A} (m : M A) : Prop :=
  forall s a s', m s = Ret a s' ->
    pools (cl s') = pools (cl s) /\ exists evs, trace s' = trace s ++ evs.

(** The events of connections handed out, in order. *)
Definition borrowedEvents (borrowed : list (Pool * Client)) : list event :=
  map (fun pc => EvGet pc.1 pc.2) borrowed.

End Cluster.

(** ** Concrete clusters and worlds for the examples *)

Module Scenario.

Import Cluster.

(** A [DialFunc] that always connects; the [i]-th connection is number [i]. *)
Definition dialFresh : nat -> Pool.dialed :=
  fun i => inl (Pool.mkClient i None).

(** Modelled from the spec: [CRC16] (cluster/crc16.go) is not among the
    sources; the spec treats it as a pure function from bytes to a 16
    bit number. This is the CRC-16/XMODEM checksum of Redis Cluster
    (polynomial 0x1021, initial value 0), used to run the examples; the
    theorems hold for any [CRC16]. *)
Definition crc16_bit (crc : Z) : Z :=
  if Z.testbit crc 15 then Z.lxor (Z.shiftl crc 1 mod 65536) 4129
  else Z.shiftl crc 1 mod 65536.

Definition crc16_byte (crc : Z) (b : ascii) : Z :=
  let crc := Z.lxor crc (Z.shiftl (Z.of_nat (nat_of_ascii b)) 8) in
  crc16_bit (crc16_bit (crc16_bit (crc16_bit
    (crc16_bit (crc16_bit (crc16_bit (crc16_bit crc))))))).

Fixpoint crc16_from (crc : Z) (s : string) : Z :=
  match s with
  | EmptyString => crc
  | String b s' => crc16_from (crc16_byte crc b) s'
  end.

Definition crc16 (s : string) : Z := crc16_from 0 s.

Definition A : string := "10.0.0.1:6379".
Definition B : string := "10.0.0.2:6379".

Definition opts : Opts := mkOpts A 0 10 10000000000.

(** A CLUSTER SLOTS reply with one group: the slots 7620 to 7629 on the
    master at [ip]:6379. *)
Definition slotsOn (ip : string) : Resp :=
  RespArr [RespArr [RespInt 7620; RespInt 7629;
                    RespArr [RespStr ip; RespInt 6379]]].

(** Dialing works for every address but the empty one. *)
Definition dialAny (addr : string) : option string :=
  if decide (addr = EmptyString) then Some "dial tcp: missing address"%string
  else None.

(** A world in which every [Get] succeeds and the ticker is always
    ready; [answer] gives the replies. *)
Definition worldOf (answer : string -> string -> Resp) : World :=
  mkWorld crc16 (fun _ => dialAny) (fun _ _ => None)
          (fun _ addr cmd _ => answer addr cmd)
          (fun _ => []) (fun _ => true).

(** The cluster knows the node [A] only; the key "k" is in slot 7629. *)
Definition onlyA : St :=
  mkSt (mkCluster opts {[7629 := A]} {[A := mkPool 0 A]} (Some 10000000000))
       1 [].

Definition clientA : Client := mkClient 1 A.

(** [A] answers GET with a redirection to [B]; [B] serves it. *)
Definition redirecting (kind : string) : World :=
  worldOf (fun addr cmd =>
    if decide (cmd = "CLUSTER"%string) then slotsOn "10.0.0.1"
    else if decide (addr = A) then RespErr false (kind +:+ " 7629 " +:+ B)
    else if decide (cmd = "ASKING"%string) then RespStr "OK"
    else RespStr "v").


(** [A] is a replica: its CLUSTER SLOTS reply names the master [B]. *)
Definition replicaSeed : World :=
  worldOf (fun addr cmd => slotsOn "10.0.0.2").

(** The registry holds [A] and [B]; [Get] fails on [B]. *)
Definition both : St :=
  mkSt (mkCluster opts {[7629 := A]} {[A := mkPool 0 A; B := mkPool 1 B]}
                  (Some 10000000000))
       2 [].

Definition exhaustedB : World :=
  mkWorld crc16 (fun _ => dialAny)
          (fun _ addr => if decide (addr = B)
                         then Some "redis: connection pool exhausted"%string
                         else None)
          (fun _ _ _ _ => RespNil) (fun _ => []) (fun _ => true).

End Scenario.

(** * Theorems *)

(** * Facts about package pool *)

Lemma int32_small z : -2147483648 <= z < 2147483648 -> int32 z = z.
Proof.
  intros Hz. unfold int32.
  rewrite Z.mod_small by lia. lia.
Qed.

Lemma AddInt32_small a d :
  -2147483648 <= a + d < 2147483648 -> AddInt32 a d = a + d.
Proof. intros H. unfold AddInt32. by apply int32_small. Qed.

(** [Empty] closes every idle primary connection and leaves [active]
    as it was. *)
Lemma Empty_active p : Pool.active (Pool.Empty p).1 = Pool.active p.
Proof. reflexivity. Qed.

Lemma Empty_events p :
  (Pool.Empty p).2 = map Pool.Closed (Pool.buf (Pool.pool p)).
Proof. reflexivity. Qed.

Lemma try_send_length ch c ch' :
  Pool.try_send ch c = Some ch' ->
  Z.of_nat (length (Pool.buf ch')) = Z.of_nat (length (Pool.buf ch)) + 1.
Proof.
  unfold Pool.try_send. destruct (_ <? _); [|done].
  intros [= <-]. simpl. rewrite length_app. simpl. lia.
Qed.

Lemma try_recv_length ch c ch' :
  Pool.try_recv ch = Some (c, ch') ->
  Z.of_nat (length (Pool.buf ch)) = Z.of_nat (length (Pool.buf ch')) + 1.
Proof.
  unfold Pool.try_recv. destruct (Pool.buf ch) as [|x l] eqn:E; [done|].
  intros [= <- <-]. simpl. lia.
Qed.

Lemma try_recv_None ch :
  Pool.try_recv ch = None -> Pool.buf ch = [].
Proof. unfold Pool.try_recv. by destruct (Pool.buf ch). Qed.

(** One allowed operation keeps the accounting. *)
Lemma step_accounted st o :
  Pool.accounted st -> Pool.allowed st o -> Pool.accounted (Pool.step st o).
Proof.
  destruct st as [p out]. intros (Hout & Hsum & Hmax & H32) Hal.
  destruct o as [now d|now conn|]; simpl in *.
  - unfold Pool.Get.
    destruct (Pool.try_recv (Pool.pool p)) as [[c ch]|] eqn:E1.
    { apply try_recv_length in E1. simpl. lia. }
    destruct (Pool.try_recv (Pool.secondaryPool p)) as [[c ch]|] eqn:E2.
    { apply try_recv_length in E2. simpl. lia. }
    apply try_recv_None in E1, E2.
    destruct (Pool.active p <? Pool.maxActive p) eqn:E3.
    + apply Z.ltb_lt in E3. destruct d as [conn|msg]; simpl.
      * rewrite E1, E2. simpl. lia.
      * rewrite AddInt32_small by lia. rewrite E1, E2. simpl. lia.
    + simpl. lia.
  - unfold Pool.Put.
    assert (Hlen := Nat2Z.is_nonneg (length (Pool.buf (Pool.pool p)))).
    assert (Hlen2 := Nat2Z.is_nonneg (length (Pool.buf (Pool.secondaryPool p)))).
    destruct (Pool.LastCritical conn).
    { simpl. rewrite AddInt32_small by lia. lia. }
    destruct (Pool.try_send (Pool.pool p) conn) as [ch|] eqn:E1.
    + apply try_send_length in E1. simpl.
      destruct (_ <? now).
      * destruct (Pool.try_recv (Pool.secondaryPool p)) as [[c2 ch2]|] eqn:E2.
        -- apply try_recv_length in E2. simpl.
           rewrite AddInt32_small by lia. lia.
        -- simpl. lia.
      * simpl. lia.
    + destruct (Pool.try_send (Pool.secondaryPool p) conn) as [ch|] eqn:E2.
      * apply try_send_length in E2. simpl. lia.
      * simpl. rewrite AddInt32_small by lia. lia.
  - lia.
Qed.

Lemma run_accounted ops : forall st,
  Pool.accounted st -> Pool.allowed_run st ops -> Pool.accounted (Pool.run st ops).
Proof.
  induction ops as [|o ops IH]; intros st Hacc Hal; simpl in *; [done|].
  destruct Hal as [H1 H2]. apply IH; [by apply step_accounted | done].
Qed.

(** The bounds of [active] along every run in which the caller only puts
    back connections it holds. *)
Lemma active_bounds st ops :
  Pool.accounted st -> Pool.allowed_run st ops ->
  0 <= Pool.active (Pool.run st ops).1 <= Pool.maxActive (Pool.run st ops).1.
Proof.
  intros Hacc Hal. pose proof (run_accounted ops st Hacc Hal) as H.
  destruct (Pool.run st ops) as [p out]. simpl in *.
  assert (Hlen := Nat2Z.is_nonneg (length (Pool.buf (Pool.pool p)))).
  assert (Hlen2 := Nat2Z.is_nonneg (length (Pool.buf (Pool.secondaryPool p)))).
  lia.
Qed.

(** A freshly built pool is accounted, nothing being lent yet. *)
Lemma NewCustom_accounted network addr size maxActive df now p err pr evs :
  maxActive < 2147483648 ->
  Pool.NewCustom network addr size maxActive df now = Pool.Built p err pr evs ->
  Pool.accounted (p, 0).
Proof.
  intros H32. unfold Pool.NewCustom.
  destruct (maxActive <? size) eqn:E1; [done|]. apply Z.ltb_ge in E1.
  set (m := if maxActive <=? 0 then Pool.defaultMaxActive else maxActive).
  assert (Hm : size <= m /\ 0 < m < 2147483648).
  { subst m. unfold Pool.defaultMaxActive.
    destruct (maxActive <=? 0) eqn:E; [apply Z.leb_le in E|apply Z.leb_gt in E]; lia. }
  destruct (size <? 0) eqn:E2; [done|]. apply Z.ltb_ge in E2.
  destruct (size <? 1) eqn:E3.
  { intros [= <- <- <- <-]. simpl. rewrite int32_small by lia. lia. }
  apply Z.ltb_ge in E3.
  destruct (df 0%nat) as [client|msg]; simpl; intros [= <- <- <- <-]; simpl;
    change (AddInt32 0 1) with 1; rewrite int32_small by lia; lia.
Qed.

(** C6 (the code departs from it): every close is to lower [active] by
    one, but [Empty] closes the idle primary connections and leaves
    [active] alone. A pool built with size 2 and maxActive 2 holds, once
    the goroutine of the constructor has made its dial, two connections
    and has [active = 2]; [Empty] closes both, [active] is still 2, and
    the next [Get] reports the pool exhausted although no connection is
    left. *)
Example Empty_leaves_active_stale :
  let c0 := Pool.mkClient 0 None in
  let c1 := Pool.mkClient 1 None in
  exists p0 pr p,
    Pool.NewCustom "tcp" "a" 2 2 Scenario.dialFresh 0
      = Pool.Built p0 None pr [Pool.Dialed c0] /\
    Pool.dialerRun Scenario.dialFresh 3 (Pool.background 2 None) p0
      = (Pool.Dialing 2 0, p) /\
    Pool.buf (Pool.pool p) = [c0; c1] /\
    Pool.active p = 2 /\
    (Pool.Empty p).2 = [Pool.Closed c0; Pool.Closed c1] /\
    Pool.active (Pool.Empty p).1 = 2 /\
    (Pool.Get 1 (inl (Pool.mkClient 2 None)) (Pool.Empty p).1).1.2
      = inr Pool.ErrPoolExhausted.
Proof. simpl. eexists _, _, _. repeat split. Qed.

(** C7 (the code departs from it): the bad-arguments check compares
    [size] with [maxActive] as passed, before the default of 100 is
    applied. Construction fails exactly when size > maxActive; so with
    maxActive <= 0 every size >= 1 is refused, although the same size
    with maxActive 100 builds a pool with [maxActive = 100], and the
    only pool the default ever reaches is the one of size 0, whose
    probe goroutine panics. *)
Theorem NewCustom_default_unreachable network addr size maxActive df now :
  (Pool.NewCustom network addr size maxActive df now
     = Pool.Failed Pool.ErrIllegalArgument <-> maxActive < size) /\
  (maxActive <= 0 -> 1 <= size ->
   Pool.NewCustom network addr size maxActive df now
     = Pool.Failed Pool.ErrIllegalArgument /\
   (size <= 100 ->
    exists p err pr evs,
      Pool.NewCustom network addr size 100 df now = Pool.Built p err pr evs /\
      Pool.maxActive p = 100)) /\
  (maxActive <= 0 ->
   forall p err pr evs,
     Pool.NewCustom network addr size maxActive df now = Pool.Built p err pr evs ->
     size = 0 /\ maxActive = 0 /\ Pool.maxActive p = 100 /\
     pr = Pool.ProbePanics "runtime error: integer divide by zero").
Proof.
  split; [|split].
  - unfold Pool.NewCustom. destruct (maxActive <? size) eqn:E.
    + apply Z.ltb_lt in E. by split.
    + apply Z.ltb_ge in E. split; [|lia].
      destruct (size <? 0); [done|].
      destruct (size <? 1); [done|].
      by destruct (Pool.mkConn _ _) as [[p1 e] evs].
  - intros H0 Hs. split.
    + unfold Pool.NewCustom. by destruct (Z.ltb_spec maxActive size); [|lia].
    + intros H100. unfold Pool.NewCustom.
      destruct (Z.ltb_spec 100 size); [lia|].
      destruct (Z.ltb_spec size 0); [lia|].
      destruct (Z.ltb_spec size 1); [lia|].
      destruct (df 0%nat) as [c|msg]; cbn; eexists _, _, _, _; split; reflexivity.
  - intros H0 p err pr evs. unfold Pool.NewCustom.
    destruct (Z.ltb_spec maxActive size); [done|].
    destruct (Z.leb_spec maxActive 0); [|lia].
    destruct (Z.ltb_spec size 0); [done|].
    assert (size = 0) as -> by lia. assert (maxActive = 0) as -> by lia.
    cbn. by intros [= <- _ <- _].
Qed.

(** The theorem above for size 1 and maxActive 0. *)
Lemma NewCustom_default_unreachable_witness :
  Pool.NewCustom "tcp" "a" 1 0 Scenario.dialFresh 0
    = Pool.Failed Pool.ErrIllegalArgument /\
  (1 <= 100 ->
   exists p err pr evs,
     Pool.NewCustom "tcp" "a" 1 100 Scenario.dialFresh 0 = Pool.Built p err pr evs /\
     Pool.maxActive p = 100).
Proof.
  apply (proj1 (proj2 (NewCustom_default_unreachable "tcp" "a" 1 0
                         Scenario.dialFresh 0))); lia.
Defined.

(** C8, as stated, fails: a healthy connection handed to [Put] after
    [Empty] is queued in the primary channel again; it is not closed and
    [active] stays where it was. *)
Lemma Put_after_Empty_keeps_connection :
  let c0 := Pool.mkClient 0 None in
  exists p pr evs,
    Pool.NewCustom "tcp" "a" 1 1 Scenario.dialFresh 0 = Pool.Built p None pr evs /\
    let lent := (Pool.Get 1 (inr "unused"%string) p).1.1 in
    let emptied := (Pool.Empty lent).1 in
    (Pool.Get 1 (inr "unused"%string) p).1.2 = inl c0 /\
    Pool.stopped emptied = true /\
    (Pool.Put 2 c0 emptied).2 = [] /\
    Pool.buf (Pool.pool (Pool.Put 2 c0 emptied).1) = [c0] /\
    Pool.active (Pool.Put 2 c0 emptied).1 = Pool.active emptied.
Proof. simpl. eexists _, _, _. repeat split. Qed.

(** C8 (amended): [Empty] stops the probe and closes the idle primary
    connections, and [Put] afterwards works as on any pool. A connection
    with a critical error is dropped and [active] lowered by one. A
    healthy connection put into a pool of size at least 1 is queued in
    the emptied primary channel and stays open; the only connection such
    a [Put] may close is the oldest secondary one, once the secondary
    tier has been idle for a minute. *)
Theorem Put_after_Empty now conn p :
  let q := (Pool.Empty p).1 in
  Pool.stopped q = true /\
  (Pool.LastCritical conn <> None ->
   Pool.Put now conn q = (Pool.set_active q (AddInt32 (Pool.active p) (-1)), [])) /\
  (Pool.LastCritical conn = None -> 1 <= Pool.cap (Pool.pool p) ->
   Pool.buf (Pool.pool (Pool.Put now conn q).1) = [conn] /\
   (((Pool.Put now conn q).2 = [] /\
     Pool.active (Pool.Put now conn q).1 = Pool.active p) \/
    (exists c2, head (Pool.buf (Pool.secondaryPool p)) = Some c2 /\
                Pool.secondaryActive p + Pool.waitForReuse < now /\
                (Pool.Put now conn q).2 = [Pool.Closed c2] /\
                Pool.active (Pool.Put now conn q).1 = AddInt32 (Pool.active p) (-1)))).
Proof.
  simpl. split; [done|]. split.
  - intros Hc. unfold Pool.Put. by destruct (Pool.LastCritical conn).
  - intros Hc Hcap. unfold Pool.Put. rewrite Hc.
    assert (Hs : Pool.try_send (Pool.mkChan [] (Pool.cap (Pool.pool p))) conn
                 = Some (Pool.mkChan [conn] (Pool.cap (Pool.pool p)))).
    { unfold Pool.try_send. cbn [Pool.buf Pool.cap length].
      destruct (Z.ltb_spec (Z.of_nat 0) (Pool.cap (Pool.pool p))); [done|lia]. }
    cbn [Pool.pool Pool.set_pool Pool.set_stopped]. rewrite Hs.
    cbn [Pool.secondaryActive Pool.secondaryPool Pool.set_pool Pool.set_stopped].
    destruct (_ <? now) eqn:E2.
    + unfold Pool.try_recv. simpl.
      destruct (Pool.buf (Pool.secondaryPool p)) as [|c2 rest] eqn:E3; simpl.
      * split; [done|]. by left.
      * split; [done|]. right. exists c2. apply Z.ltb_lt in E2. done.
    + simpl. split; [done|]. by left.
Qed.

(** The theorem above for a healthy connection and a pool of size 1. *)
Lemma Put_after_Empty_witness :
  let p := Pool.mkPool (Pool.mkChan [Pool.mkClient 0 None] 1) (Pool.mkChan [] 0)
                       0 1 1 false "tcp" "a" in
  let conn := Pool.mkClient 5 None in
  Pool.buf (Pool.pool (Pool.Put 2 conn (Pool.Empty p).1).1) = [conn].
Proof.
  intros p conn.
  apply (proj2 (proj2 (Put_after_Empty 2 conn p))); [reflexivity | simpl; lia].
Defined.

(** C9 (the code departs from it): with size 0 and maxActive 5 the
    constructor returns a pool and no error, but the goroutine it has
    started divides by [size] to get the probe interval and panics. *)
Example NewCustom_size_zero_probe_panics df now :
  exists p,
    Pool.NewCustom "tcp" "a" 0 5 df now
      = Pool.Built p None
          (Pool.ProbePanics "runtime error: integer divide by zero") [] /\
    Pool.active p = 0 /\ Pool.maxActive p = 5.
Proof. eexists. repeat split. Qed.

(** * More on package pool *)

Set Warnings "-clear-no-such-hyp".

(** X1: when the first dial fails, [NewCustom] still hands back a pool,
    together with the dial error: the pool is empty, counts no
    connection, and a later [Get] whose dial works gets a connection
    from it. *)
Theorem NewCustom_first_dial_fails network addr size maxActive df now msg :
  1 <= size -> size <= maxActive -> maxActive < 2147483648 ->
  df O = inr msg ->
  let p := Pool.mkPool (Pool.mkChan [] size) (Pool.mkChan [] (maxActive - size))
                       now 0 maxActive false network addr in
  Pool.NewCustom network addr size maxActive df now
    = Pool.Built p (Some (Pool.ErrDial msg)) (Pool.startProbe size) [] /\
  forall later c,
    Pool.Get later (inl c) p
      = (Pool.set_active p 1, inl c, [Pool.Dialed c]).
Proof.
  intros H1 H2 H3 Hdf p. split.
  - unfold Pool.NewCustom.
    destruct (Z.ltb_spec maxActive size); [lia|].
    destruct (Z.leb_spec maxActive 0); [lia|].
    destruct (Z.ltb_spec size 0); [lia|].
    destruct (Z.ltb_spec size 1); [lia|].
    rewrite Hdf. cbn [Pool.mkConn]. rewrite int32_small by lia. reflexivity.
  - intros later c. unfold Pool.Get, p. cbn.
    destruct (Z.ltb_spec 0 maxActive); [reflexivity | lia].
Qed.

(** The theorem above for size 3, maxActive 5 and a dial that never
    works. *)
Lemma NewCustom_first_dial_fails_witness :
  Pool.NewCustom "tcp" "a" 3 5 (fun _ => inr "refused"%string) 0
    = Pool.Built (Pool.mkPool (Pool.mkChan [] 3) (Pool.mkChan [] 2)
                              0 0 5 false "tcp" "a")
                 (Some (Pool.ErrDial "refused")) (Pool.startProbe 3) [].
Proof.
  apply (NewCustom_first_dial_fails "tcp" "a" 3 5
           (fun _ => inr "refused"%string) 0 "refused"); [lia | lia | lia | reflexivity].
Defined.

(** The goroutine of the constructor, once it has nothing left to do,
    stays as it is. *)
Lemma dialer_done df k : forall p i,
  Pool.dialerRun df k (Pool.Dialing i 0) p = (Pool.Dialing i 0, p).
Proof. induction k as [|k IH]; intros p i; [done|]. cbn. apply IH. Qed.

(** The goroutine left alone: with room in the primary channel for the
    [n] connections it may make, [3 * n] actions see it through. *)
Lemma dialer_alone df n : forall i p k,
  Pool.active p = Z.of_nat (length (Pool.buf (Pool.pool p))) ->
  Z.of_nat (length (Pool.buf (Pool.pool p))) + Z.of_nat n <= Pool.cap (Pool.pool p) ->
  Pool.active p + Z.of_nat n < 2147483648 ->
  (3 * n <= k)%nat ->
  exists q,
    Pool.dialerRun df k (Pool.Dialing i n) p = (Pool.Dialing (i + n) 0, q) /\
    Pool.active q = Z.of_nat (length (Pool.buf (Pool.pool q))) /\
    Pool.active p <= Pool.active q <= Pool.active p + Z.of_nat n /\
    Pool.cap (Pool.pool q) = Pool.cap (Pool.pool p) /\
    Pool.secondaryPool q = Pool.secondaryPool p /\
    Pool.maxActive q = Pool.maxActive p /\
    ((forall j, (i <= j < i + n)%nat -> exists c, df j = inl c) ->
     Pool.active q = Pool.active p + Z.of_nat n).
Proof.
  induction n as [|n IH]; intros i p k Ha Hroom H32 Hk.
  { exists p. rewrite dialer_done, Nat.add_0_r.
    split; [done|]. repeat split; try done; lia. }
  assert (Hlen := Nat2Z.is_nonneg (length (Pool.buf (Pool.pool p)))).
  destruct k as [|k]; [lia|]. cbn [Pool.dialerRun Pool.dialerStep].
  destruct (df i) as [client|msg] eqn:Edf.
  - destruct k as [|k]; [lia|]. destruct k as [|k]; [lia|].
    cbn [Pool.dialerRun Pool.dialerStep].
    unfold Pool.try_send.
    destruct (Z.ltb_spec (Z.of_nat (length (Pool.buf (Pool.pool p))))
                (Pool.cap (Pool.pool p))); [|lia].
    cbn [Pool.dialerRun Pool.dialerStep].
    set (p1 := Pool.set_active _ _).
    destruct (IH (S i) p1 k) as (q & Hrun & Q1 & Q2 & Q3 & Q4 & Q5 & Q6).
    + subst p1. cbn. rewrite AddInt32_small by lia. rewrite length_app. cbn. lia.
    + subst p1. cbn. rewrite length_app. cbn. lia.
    + subst p1. cbn. rewrite AddInt32_small by lia. lia.
    + lia.
    + exists q. replace (i + S n)%nat with (S i + n)%nat by lia.
      split; [done|]. subst p1. cbn in Q2, Q3, Q4, Q5, Q6.
      rewrite AddInt32_small in Q2, Q6 by lia.
      split; [done|]. split; [lia|]. split; [done|]. split; [done|]. split; [done|].
      intros Hall. rewrite Q6; [lia|]. intros j Hj. apply Hall. lia.
  - destruct (IH (S i) p k) as (q & Hrun & Q1 & Q2 & Q3 & Q4 & Q5 & Q6);
      [done|lia|lia|lia|].
    exists q. replace (i + S n)%nat with (S i + n)%nat by lia.
    split; [done|]. split; [done|]. split; [lia|]. split; [done|]. split; [done|].
    split; [done|]. intros Hall. destruct (Hall i) as [c Hc]; [lia|]. congruence.
Qed.

(** X2: when the first dial works, [NewCustom] returns no error and a
    pool that holds this one connection, idle and counted. The other
    [size - 1] dials are made by the goroutine it has started, whose
    dial failures are ignored: left alone (no [Get] or [Put] before it
    is through, which takes at most [3 * (size - 1)] of its actions) it
    ends with every connection made idle in the primary channel and
    counted in [active], between 1 and [size] of them, and exactly
    [size] when every dial works. *)
Theorem NewCustom_dials network addr size maxActive df now c0 :
  1 <= size -> size <= maxActive -> maxActive < 2147483648 ->
  df O = inl c0 ->
  exists p,
    Pool.NewCustom network addr size maxActive df now
      = Pool.Built p None (Pool.startProbe size) [Pool.Dialed c0] /\
    Pool.buf (Pool.pool p) = [c0] /\
    Pool.active p = 1 /\
    Pool.buf (Pool.secondaryPool p) = [] /\
    Pool.maxActive p = maxActive /\
    forall k, (3 * Z.to_nat (size - 1) <= k)%nat ->
      exists q i,
        Pool.dialerRun df k (Pool.background size None) p = (Pool.Dialing i 0, q) /\
        Pool.active q = Pool.Avail q /\
        1 <= Pool.Avail q <= size /\
        Pool.buf (Pool.secondaryPool q) = [] /\
        Pool.maxActive q = maxActive /\
        ((forall j, (j < Z.to_nat size)%nat -> exists c, df j = inl c) ->
         Pool.Avail q = size).
Proof.
  intros H1 H2 H3 Hdf. unfold Pool.NewCustom.
  destruct (Z.ltb_spec maxActive size); [lia|].
  destruct (Z.leb_spec maxActive 0); [lia|].
  destruct (Z.ltb_spec size 0); [lia|].
  destruct (Z.ltb_spec size 1); [lia|].
  rewrite Hdf. cbn [Pool.mkConn].
  set (p1 := Pool.set_active _ _). exists p1.
  split; [done|]. split; [done|]. split; [done|]. split; [done|].
  split; [subst p1; cbn; by apply int32_small; lia|].
  intros k Hk. unfold Pool.background.
  destruct (dialer_alone df (Z.to_nat (size - 1)) 1%nat p1 k)
    as (q & Hrun & Q1 & Q2 & Q3 & Q4 & Q5 & Q6); [done| | |done|].
  { subst p1. cbn. lia. }
  { subst p1. cbn. change (AddInt32 0 1) with 1. lia. }
  exists q, (1 + Z.to_nat (size - 1))%nat. split; [done|].
  unfold Pool.Avail. rewrite <- Q1.
  subst p1. cbn in Q2, Q4, Q5, Q6. change (AddInt32 0 1) with 1 in Q2, Q6.
  split; [done|]. split; [lia|]. split; [by rewrite Q4|].
  split; [rewrite Q5; by apply int32_small; lia|].
  intros Hall. rewrite Q6; [lia|]. intros j Hj. apply Hall. lia.
Qed.

(** The theorem above for size 2 and a dial that always works. *)
Lemma NewCustom_dials_witness :
  exists p,
    Pool.NewCustom "tcp" "a" 2 4 Scenario.dialFresh 0
      = Pool.Built p None (Pool.startProbe 2) [Pool.Dialed (Pool.mkClient 0 None)] /\
    Pool.buf (Pool.pool p) = [Pool.mkClient 0 None] /\
    Pool.active p = 1 /\
    Pool.buf (Pool.secondaryPool p) = [] /\
    Pool.maxActive p = 4 /\
    forall k, (3 * Z.to_nat (2 - 1) <= k)%nat ->
      exists q i,
        Pool.dialerRun Scenario.dialFresh k (Pool.background 2 None) p
          = (Pool.Dialing i 0, q) /\
        Pool.active q = Pool.Avail q /\
        1 <= Pool.Avail q <= 2 /\
        Pool.buf (Pool.secondaryPool q) = [] /\
        Pool.maxActive q = 4 /\
        ((forall j, (j < Z.to_nat 2)%nat -> exists c, Scenario.dialFresh j = inl c) ->
         Pool.Avail q = 2).
Proof.
  apply (NewCustom_dials "tcp" "a" 2 4 Scenario.dialFresh 0 (Pool.mkClient 0 None));
    [lia | lia | lia | reflexivity].
Defined.

(** What [NewCustom] builds, in the two cases: a first connection and
    a goroutine for the others, or no goroutine. *)
Lemma NewCustom_shape network addr size maxActive df now p err pr evs :
  maxActive < 2147483648 ->
  Pool.NewCustom network addr size maxActive df now = Pool.Built p err pr evs ->
  (err = None /\ 1 <= size /\
   Pool.active p = Z.of_nat (length (Pool.buf (Pool.pool p))) /\
   Pool.active p = 1 /\
   Pool.cap (Pool.pool p) = size /\ Pool.buf (Pool.secondaryPool p) = [] /\
   Pool.maxActive p = maxActive /\ size <= maxActive) \/
  (Pool.todo (Pool.background size err) = 0 /\
   Pool.background size err = Pool.Dialing 1 0).
Proof.
  intros H32. unfold Pool.NewCustom.
  destruct (Z.ltb_spec maxActive size); [done|].
  destruct (Z.ltb_spec size 0); [done|].
  destruct (Z.ltb_spec size 1).
  - intros [= <- <- _ _]. right. unfold Pool.background.
    replace (Z.to_nat (size - 1)) with O by lia. done.
  - destruct (df 0%nat) as [c|msg]; cbn; intros [= <- <- _ _].
    + left. cbn. change (AddInt32 0 1) with 1.
      repeat split; try done.
      destruct (Z.leb_spec maxActive 0); [lia|]. by rewrite int32_small by lia.
    + by right.
Qed.

(** X3: for a pool built by [NewCustom], once the goroutine that makes
    the other [size - 1] connections is through (which, left alone, it
    is after [3 * (size - 1)] of its actions), [active] stays between 0
    and [maxActive] after every sequence of [Get], [Put] and [Empty] of
    a caller that only puts back connections it holds. *)
Theorem pool_active_bounds network addr size maxActive df now p err pr evs k ops :
  maxActive < 2147483648 ->
  Pool.NewCustom network addr size maxActive df now = Pool.Built p err pr evs ->
  (3 * Z.to_nat (size - 1) <= k)%nat ->
  let q := (Pool.dialerRun df k (Pool.background size err) p).2 in
  Pool.allowed_run (q, 0) ops ->
  0 <= Pool.active (Pool.run (q, 0) ops).1 <= Pool.maxActive (Pool.run (q, 0) ops).1.
Proof.
  intros H32 Hnew Hk q Hal. apply active_bounds; [|done].
  pose proof (NewCustom_accounted _ _ _ _ _ _ _ _ _ _ H32 Hnew)
    as (A1 & A2 & A3 & A4).
  subst q.
  destruct (NewCustom_shape _ _ _ _ _ _ _ _ _ _ H32 Hnew)
    as [(-> & Hs1 & Hact & Hone & Hcap & Hsec & Hmx & Hle)|[Ht Hbg]].
  - unfold Pool.background.
    destruct (dialer_alone df (Z.to_nat (size - 1)) 1%nat p k)
      as (q & Hrun & Q1 & Q2 & Q3 & Q4 & Q5 & Q6); [done|lia|lia|done|].
    rewrite Hrun. cbn. rewrite Q4, Hsec, Q5, <- Q1. cbn. lia.
  - rewrite Hbg, dialer_done. cbn. lia.
Qed.

(** The theorem above for a pool of size 2, maxActive 3, its goroutine
    through, and the run Get, Get, Get, Put, Empty, Get. *)
Lemma pool_active_bounds_witness :
  let p := Pool.mkPool (Pool.mkChan [Pool.mkClient 0 None] 2) (Pool.mkChan [] 1)
                       0 1 3 false "tcp" "a" in
  let ops := [Pool.OpGet 1 (inl (Pool.mkClient 7 None));
              Pool.OpGet 2 (inl (Pool.mkClient 8 None));
              Pool.OpGet 3 (inl (Pool.mkClient 9 None));
              Pool.OpPut 4 (Pool.mkClient 0 None);
              Pool.OpEmpty;
              Pool.OpGet 5 (inl (Pool.mkClient 10 None))] in
  let q := (Pool.dialerRun Scenario.dialFresh 3 (Pool.background 2 None) p).2 in
  0 <= Pool.active (Pool.run (q, 0) ops).1 <= Pool.maxActive (Pool.run (q, 0) ops).1.
Proof.
  intros p ops.
  apply (pool_active_bounds "tcp" "a" 2 3 Scenario.dialFresh 0 p None
           (Pool.startProbe 2) [Pool.Dialed (Pool.mkClient 0 None)] 3 ops).
  - lia.
  - reflexivity.
  - cbn. lia.
  - cbn. repeat split; lia.
Defined.

Lemma try_send_fits ch c ch' :
  Pool.try_send ch c = Some ch' ->
  Z.of_nat (length (Pool.buf ch')) <= Pool.cap ch' /\ Pool.cap ch' = Pool.cap ch.
Proof.
  unfold Pool.try_send. destruct (Z.ltb_spec (Z.of_nat (length (Pool.buf ch))) (Pool.cap ch)); [|done].
  intros [= <-]. cbn. rewrite length_app. cbn. lia.
Qed.

Lemma try_recv_fits ch c ch' :
  Pool.try_recv ch = Some (c, ch') ->
  Z.of_nat (length (Pool.buf ch')) <= Z.of_nat (length (Pool.buf ch)) /\
  Pool.cap ch' = Pool.cap ch.
Proof.
  unfold Pool.try_recv. destruct (Pool.buf ch) as [|x l] eqn:E; [done|].
  intros [= <- <-]. cbn. lia.
Qed.

Lemma step_fits st o : Pool.fits st.1 -> Pool.fits (Pool.step st o).1.
Proof.
  destruct st as [p out]. unfold Pool.fits. cbn [fst]. intros [Hp Hs].
  destruct o as [now d|now conn|]; cbn [Pool.step].
  - unfold Pool.Get.
    destruct (Pool.try_recv (Pool.pool p)) as [[c ch]|] eqn:E1.
    { apply try_recv_fits in E1 as [? Hc]. cbn. rewrite Hc. lia. }
    destruct (Pool.try_recv (Pool.secondaryPool p)) as [[c ch]|] eqn:E2.
    { apply try_recv_fits in E2 as [? Hc]. cbn. rewrite Hc. lia. }
    destruct (Pool.active p <? Pool.maxActive p); [|done].
    by destruct d.
  - unfold Pool.Put. destruct (Pool.LastCritical conn); [done|].
    destruct (Pool.try_send (Pool.pool p) conn) as [ch|] eqn:E1.
    + apply try_send_fits in E1 as [? Hc].
      cbn [Pool.secondaryActive Pool.set_pool Pool.secondaryPool].
      destruct (_ <? now).
      * destruct (Pool.try_recv (Pool.secondaryPool p)) as [[c2 ch2]|] eqn:E2.
        -- apply try_recv_fits in E2 as [? Hc2]. cbn. rewrite Hc2. lia.
        -- cbn. lia.
      * cbn. lia.
    + destruct (Pool.try_send (Pool.secondaryPool p) conn) as [ch|] eqn:E2.
      * apply try_send_fits in E2 as [? Hc]. cbn. lia.
      * done.
  - cbn. split; [|done].
    assert (Hlen := Nat2Z.is_nonneg (length (Pool.buf (Pool.pool p)))). lia.
Qed.

Lemma run_fits ops : forall st, Pool.fits st.1 -> Pool.fits (Pool.run st ops).1.
Proof.
  induction ops as [|o ops IH]; intros st H; [done|].
  cbn [Pool.run]. apply IH. by apply step_fits.
Qed.

(** X4: the two channels of a pool built by [NewCustom] never hold more
    than their capacities ([size] and [maxActive - size]), whatever
    sequence of [Get], [Put] and [Empty] follows, well-behaved or not. *)
Theorem pool_capacity network addr size maxActive df now p err pr evs out ops :
  Pool.NewCustom network addr size maxActive df now = Pool.Built p err pr evs ->
  let q := (Pool.run (p, out) ops).1 in
  Z.of_nat (length (Pool.buf (Pool.pool q))) <= Pool.cap (Pool.pool q) /\
  Z.of_nat (length (Pool.buf (Pool.secondaryPool q))) <= Pool.cap (Pool.secondaryPool q) /\
  Pool.cap (Pool.pool p) = size /\
  0 <= Pool.cap (Pool.secondaryPool p).
Proof.
  intros Hnew q.
  assert (Hinit : Pool.fits p /\ Pool.cap (Pool.pool p) = size /\
                  0 <= Pool.cap (Pool.secondaryPool p)).
  { revert Hnew. unfold Pool.NewCustom.
    destruct (Z.ltb_spec maxActive size); [done|].
    set (m := if maxActive <=? 0 then Pool.defaultMaxActive else maxActive).
    assert (Hm : size <= m).
    { subst m. unfold Pool.defaultMaxActive. destruct (Z.leb_spec maxActive 0); lia. }
    destruct (Z.ltb_spec size 0); [done|].
    destruct (Z.ltb_spec size 1).
    { intros [= <- _ _ _]. unfold Pool.fits. cbn. lia. }
    destruct (df O) as [c0|msg]; cbn [Pool.mkConn];
      intros [= <- _ _ _]; unfold Pool.fits; cbn; lia. }
  destruct Hinit as (Hfit & Hcap & Hsec).
  pose proof (run_fits ops (p, out) Hfit) as [H1 H2].
  split; [done|]. split; [done|]. done.
Qed.

(** The theorem above for a built pool of size 1 and three [Put]s of
    connections it never handed out. *)
Lemma pool_capacity_witness :
  let p := Pool.mkPool (Pool.mkChan [Pool.mkClient 0 None] 1) (Pool.mkChan [] 1)
                       0 1 2 false "tcp" "a" in
  let q := (Pool.run (p, 0) [Pool.OpPut 1 (Pool.mkClient 7 None);
                             Pool.OpPut 2 (Pool.mkClient 8 None);
                             Pool.OpPut 3 (Pool.mkClient 9 None)]).1 in
  Z.of_nat (length (Pool.buf (Pool.pool q))) <= Pool.cap (Pool.pool q) /\
  Z.of_nat (length (Pool.buf (Pool.secondaryPool q))) <= Pool.cap (Pool.secondaryPool q) /\
  Pool.cap (Pool.pool p) = 1 /\
  0 <= Pool.cap (Pool.secondaryPool p).
Proof.
  intros p.
  apply (pool_capacity "tcp" "a" 1 2 Scenario.dialFresh 0 p None
           (Pool.startProbe 1) [Pool.Dialed (Pool.mkClient 0 None)] 0).
  reflexivity.
Defined.

(** X5: [Get] fails with the pool-exhausted error exactly when both
    channels are empty and [active] has reached [maxActive]; it then
    leaves the pool as it is and dials nothing. A dial is made exactly
    when both channels are empty and [active] is below [maxActive]. *)
Theorem Get_exhausted_iff now d p :
  ((Pool.Get now d p).1.2 = inr Pool.ErrPoolExhausted <->
   Pool.buf (Pool.pool p) = [] /\ Pool.buf (Pool.secondaryPool p) = [] /\
   Pool.maxActive p <= Pool.active p) /\
  ((Pool.Get now d p).1.2 = inr Pool.ErrPoolExhausted ->
   Pool.Get now d p = (p, inr Pool.ErrPoolExhausted, [])) /\
  ((exists c, (Pool.Get now d p).2 = [Pool.Dialed c] /\ d = inl c) <->
   Pool.buf (Pool.pool p) = [] /\ Pool.buf (Pool.secondaryPool p) = [] /\
   Pool.active p < Pool.maxActive p /\ exists c, d = inl c) /\
  ((Pool.Get now d p).2 = [] \/ exists c, (Pool.Get now d p).2 = [Pool.Dialed c]).
Proof.
  unfold Pool.Get, Pool.try_recv.
  destruct (Pool.buf (Pool.pool p)) as [|c1 r1] eqn:E1;
    [|cbn; naive_solver].
  destruct (Pool.buf (Pool.secondaryPool p)) as [|c2 r2] eqn:E2;
    [|cbn; naive_solver].
  destruct (Z.ltb_spec (Pool.active p) (Pool.maxActive p)) as [Hlt|Hge].
  - destruct d as [c|msg]; cbn; naive_solver lia.
  - cbn. naive_solver lia.
Qed.

(** The theorem above on a pool of one connection, which is lent out. *)
Lemma Get_exhausted_iff_witness :
  let p := Pool.mkPool (Pool.mkChan [] 1) (Pool.mkChan [] 0) 0 1 1 false "tcp" "a" in
  Pool.Get 1 (inl (Pool.mkClient 1 None)) p = (p, inr Pool.ErrPoolExhausted, []).
Proof.
  intros p.
  pose proof (Get_exhausted_iff 1 (inl (Pool.mkClient 1 None)) p) as (Hiff & Hsame & _).
  apply Hsame, Hiff. split; [reflexivity|]. split; [reflexivity|]. cbn. lia.
Defined.

(** X6: [Get] raises [active] by exactly the number of connections it
    has dialed (none or one); a failed dial leaves [active] where it
    was. *)
Theorem Get_accounting now d p :
  -2147483648 <= Pool.active p < 2147483647 ->
  Pool.active (Pool.Get now d p).1.1
    = Pool.active p + Z.of_nat (length (Pool.Get now d p).2) /\
  (forall e, (Pool.Get now d p).1.2 = inr e ->
     Pool.active (Pool.Get now d p).1.1 = Pool.active p).
Proof.
  intros Hr. unfold Pool.Get.
  destruct (Pool.try_recv (Pool.pool p)) as [[c ch]|]; [cbn; split; [lia|done]|].
  destruct (Pool.try_recv (Pool.secondaryPool p)) as [[c ch]|]; [cbn; split; [lia|done]|].
  destruct (Pool.active p <? Pool.maxActive p); [|cbn; split; [lia|done]].
  destruct d as [c|msg]; cbn.
  - split; [lia|done].
  - rewrite AddInt32_small by lia. split; [lia|]. intros _ _. lia.
Qed.

(** The theorem above on an empty pool with room for one connection. *)
Lemma Get_accounting_witness :
  let p := Pool.mkPool (Pool.mkChan [] 1) (Pool.mkChan [] 0) 0 0 1 false "tcp" "a" in
  Pool.active (Pool.Get 1 (inl (Pool.mkClient 0 None)) p).1.1
    = Pool.active p
      + Z.of_nat (length (Pool.Get 1 (inl (Pool.mkClient 0 None)) p).2).
Proof.
  intros p.
  apply (proj1 (Get_accounting 1 (inl (Pool.mkClient 0 None)) p
                  ltac:(cbn; lia))).
Defined.

(** X7: [Put] closes at most one connection, and lowers [active] by
    exactly one for each connection it closes or, for a connection with
    a critical error, drops. *)
Theorem Put_accounting now conn p :
  -2147483648 < Pool.active p <= 2147483647 ->
  let r := Pool.Put now conn p in
  (length r.2 <= 1)%nat /\
  Pool.active r.1
    = Pool.active p - Z.of_nat (length r.2)
      - match Pool.LastCritical conn with Some _ => 1 | None => 0 end /\
  (forall c, Pool.Closed c ∈ r.2 ->
     (c = conn /\ Pool.LastCritical conn = None) \/
     head (Pool.buf (Pool.secondaryPool p)) = Some c).
Proof.
  intros Hr. unfold Pool.Put.
  destruct (Pool.LastCritical conn) eqn:Ecrit.
  { cbn. rewrite AddInt32_small by lia. repeat split; try lia.
    by intros c ?%elem_of_nil. }
  destruct (Pool.try_send (Pool.pool p) conn) as [ch|].
  - cbn [Pool.secondaryActive Pool.set_pool Pool.secondaryPool Pool.active].
    destruct (_ <? now).
    + unfold Pool.try_recv.
      destruct (Pool.buf (Pool.secondaryPool p)) as [|c2 rest] eqn:E2; cbn.
      * repeat split; try lia. by intros c ?%elem_of_nil.
      * rewrite AddInt32_small by lia. repeat split; try lia.
        intros c [= ->]%list_elem_of_singleton. by right.
    + cbn. repeat split; try lia. by intros c ?%elem_of_nil.
  - destruct (Pool.try_send (Pool.secondaryPool p) conn) as [ch|]; cbn.
    + repeat split; try lia. by intros c ?%elem_of_nil.
    + rewrite AddInt32_small by lia. repeat split; try lia.
      intros c [= ->]%list_elem_of_singleton. by left.
Qed.

(** The theorem above for a full pool: the connection is closed. *)
Lemma Put_accounting_witness :
  let p := Pool.mkPool (Pool.mkChan [Pool.mkClient 0 None] 1) (Pool.mkChan [] 0)
                       0 2 2 false "tcp" "a" in
  let r := Pool.Put 1 (Pool.mkClient 1 None) p in
  (length r.2 <= 1)%nat /\
  Pool.active r.1 = Pool.active p - Z.of_nat (length r.2) - 0.
Proof.
  intros p r.
  pose proof (Put_accounting 1 (Pool.mkClient 1 None) p ltac:(cbn; lia)) as H.
  exact (conj (proj1 H) (proj1 (proj2 H))).
Defined.

(** X8: a healthy connection taken from the primary channel and put back
    goes to the end of that channel: the idle connections are the same,
    rotated by one, and [Avail] is what it was. *)
Theorem Get_Put_round_trip now later d p c rest :
  Pool.buf (Pool.pool p) = c :: rest ->
  Z.of_nat (length (Pool.buf (Pool.pool p))) <= Pool.cap (Pool.pool p) ->
  Pool.LastCritical c = None ->
  (Pool.Get now d p).1.2 = inl c /\
  (Pool.Get now d p).2 = [] /\
  let q := (Pool.Put later c (Pool.Get now d p).1.1).1 in
  Pool.buf (Pool.pool q) = rest ++ [c] /\
  Pool.Avail q = Pool.Avail p.
Proof.
  intros Hbuf Hcap Hc. unfold Pool.Get, Pool.try_recv. rewrite Hbuf.
  cbn [fst snd]. split; [done|]. split; [done|].
  unfold Pool.Put. rewrite Hc.
  unfold Pool.try_send. cbn [Pool.pool Pool.set_pool Pool.buf Pool.cap].
  rewrite Hbuf in Hcap. cbn [length] in Hcap.
  destruct (Z.ltb_spec (Z.of_nat (length rest)) (Pool.cap (Pool.pool p))); [|lia].
  cbn [Pool.secondaryActive Pool.secondaryPool Pool.set_pool].
  assert (Hav : Z.of_nat (length (rest ++ [c])) = Z.of_nat (length (c :: rest))).
  { rewrite length_app. cbn [length]. lia. }
  unfold Pool.Avail. rewrite Hbuf.
  destruct (_ <? later).
  - unfold Pool.try_recv.
    destruct (Pool.buf (Pool.secondaryPool p)) as [|c2 r2] eqn:E2; cbn; done.
  - cbn. done.
Qed.

(** The theorem above for a pool holding two idle connections. *)
Lemma Get_Put_round_trip_witness :
  let c0 := Pool.mkClient 0 None in
  let c1 := Pool.mkClient 1 None in
  let p := Pool.mkPool (Pool.mkChan [c0; c1] 2) (Pool.mkChan [] 0)
                       0 2 2 false "tcp" "a" in
  Pool.buf (Pool.pool (Pool.Put 2 c0 (Pool.Get 1 (inr "unused"%string) p).1.1).1)
    = [c1; c0].
Proof.
  intros c0 c1 p.
  apply (proj1 (proj2 (proj2 (Get_Put_round_trip 1 2 (inr "unused"%string) p c0 [c1]
                        eq_refl ltac:(cbn; lia) eq_refl)))).
Defined.

(** X9: [Cmd] on a pool with an idle primary connection runs the
    command on the oldest one and dials nothing. If the command leaves
    the connection without a critical error it is queued again and
    [Avail] is unchanged; if it leaves it with one, the connection is
    dropped, [Avail] and [active] each go down by one and nothing is
    closed by the pool. *)
Theorem Cmd_on_idle {R} now later d (exec : Pool.Client -> Pool.Client * R) p c rest :
  Pool.buf (Pool.pool p) = c :: rest ->
  Z.of_nat (length (Pool.buf (Pool.pool p))) <= Pool.cap (Pool.pool p) ->
  -2147483648 < Pool.active p <= 2147483647 ->
  let r := Pool.Cmd now later d exec p in
  r.1.2 = inl (exec c).2 /\
  (Pool.LastCritical (exec c).1 = None ->
   Pool.buf (Pool.pool r.1.1) = rest ++ [(exec c).1] /\
   Pool.Avail r.1.1 = Pool.Avail p) /\
  (Pool.LastCritical (exec c).1 <> None ->
   Pool.buf (Pool.pool r.1.1) = rest /\
   Pool.Avail r.1.1 = Pool.Avail p - 1 /\
   Pool.active r.1.1 = Pool.active p - 1 /\
   r.2 = []).
Proof.
  intros Hbuf Hcap Hact. unfold Pool.Cmd, Pool.Get, Pool.try_recv.
  rewrite Hbuf. destruct (exec c) as [c' reply] eqn:Eexec. cbn [fst snd].
  unfold Pool.Put.
  rewrite Hbuf in Hcap. cbn [length] in Hcap.
  destruct (Pool.LastCritical c') as [crit|] eqn:Ecrit.
  - cbn. split; [done|]. split; [done|]. intros _.
    unfold Pool.Avail. rewrite Hbuf. cbn [length].
    rewrite AddInt32_small by lia. cbn.
    split; [done|]. split; [lia|]. split; [lia|done].
  - unfold Pool.try_send. cbn [Pool.pool Pool.set_pool Pool.buf Pool.cap].
    destruct (Z.ltb_spec (Z.of_nat (length rest)) (Pool.cap (Pool.pool p))); [|lia].
    cbn [Pool.secondaryActive Pool.secondaryPool Pool.set_pool].
    assert (Hav : Z.of_nat (length (rest ++ [c'])) = Z.of_nat (length (c :: rest))).
    { rewrite length_app. cbn [length]. lia. }
    unfold Pool.Avail. rewrite Hbuf.
    destruct (_ <? later).
    + unfold Pool.try_recv.
      destruct (Pool.buf (Pool.secondaryPool p)) as [|c2 r2] eqn:E2; cbn;
        (split; [done|]); (split; [done|]); done.
    + cbn. split; [done|]. split; [done|]. done.
Qed.

(** The theorem above for the probe's PING on a dead idle connection. *)
Lemma Cmd_on_idle_witness :
  let c0 := Pool.mkClient 0 None in
  let p := Pool.mkPool (Pool.mkChan [c0] 1) (Pool.mkChan [] 0)
                       0 1 1 false "tcp" "a" in
  let exec := fun c : Pool.Client =>
                (Pool.mkClient (Pool.cid c) (Some "EOF"%string), "io error"%string) in
  let r := Pool.Cmd 1 2 (inr "unused"%string) exec p in
  Pool.buf (Pool.pool r.1.1) = [] /\
  Pool.Avail r.1.1 = Pool.Avail p - 1 /\
  Pool.active r.1.1 = Pool.active p - 1 /\
  r.2 = [].
Proof.
  intros c0 p exec r.
  apply (proj2 (proj2 (Cmd_on_idle 1 2 (inr "unused"%string) exec p c0 []
                         eq_refl ltac:(cbn; lia) ltac:(cbn; lia)))).
  discriminate.
Defined.

(** * Beside the goroutine of the constructor *)

(** One turn of a schedule keeps the accounting beside the goroutine. *)
Lemma sstep_saccounted df extra st t :
  Pool.saccounted extra st ->
  match t with
  | Pool.Caller o => Pool.allowed (st.1.1, st.1.2) o
  | Pool.Background => True
  end ->
  Pool.saccounted extra (Pool.sstep df st t).
Proof.
  destruct st as [[p out] g]. intros (Hout & Hsum & Htodo & Hmax & H32) Hal.
  assert (Hlen := Nat2Z.is_nonneg (length (Pool.buf (Pool.pool p)))).
  assert (Hlen2 := Nat2Z.is_nonneg (length (Pool.buf (Pool.secondaryPool p)))).
  assert (Hu : 0 <= Pool.uncounted g <= 1) by (destruct g; cbn; lia).
  assert (Ht : Pool.uncounted g <= Pool.todo g) by (destruct g; cbn; lia).
  destruct t as [[now d|now conn|]|]; cbn [Pool.sstep Pool.step fst snd] in *.
  - unfold Pool.Get.
    destruct (Pool.try_recv (Pool.pool p)) as [[c ch]|] eqn:E1.
    { apply try_recv_length in E1. cbn. lia. }
    destruct (Pool.try_recv (Pool.secondaryPool p)) as [[c ch]|] eqn:E2.
    { apply try_recv_length in E2. cbn. lia. }
    apply try_recv_None in E1, E2.
    destruct (Z.ltb_spec (Pool.active p) (Pool.maxActive p)).
    + destruct d as [conn|msg]; cbn.
      * rewrite E1, E2. cbn. lia.
      * rewrite AddInt32_small by lia. rewrite E1, E2. cbn. lia.
    + cbn. lia.
  - unfold Pool.Put. unfold Pool.allowed in Hal. cbn in Hal.
    destruct (Pool.LastCritical conn).
    { cbn. rewrite AddInt32_small by lia. lia. }
    destruct (Pool.try_send (Pool.pool p) conn) as [ch|] eqn:E1.
    + apply try_send_length in E1. cbn.
      destruct (_ <? now).
      * destruct (Pool.try_recv (Pool.secondaryPool p)) as [[c2 ch2]|] eqn:E2.
        -- apply try_recv_length in E2. cbn.
           rewrite AddInt32_small by lia. lia.
        -- cbn. lia.
      * cbn. lia.
    + destruct (Pool.try_send (Pool.secondaryPool p) conn) as [ch|] eqn:E2.
      * apply try_send_length in E2. cbn. lia.
      * cbn. rewrite AddInt32_small by lia. lia.
  - cbn. lia.
  - destruct g as [i [|n]|client i n|i n]; cbn [Pool.dialerStep].
    + cbn in *. lia.
    + destruct (df i); cbn in *; lia.
    + destruct (Pool.try_send (Pool.pool p) client) as [ch|] eqn:E.
      * apply try_send_length in E. cbn in *. lia.
      * cbn in *. lia.
    + cbn in *. rewrite AddInt32_small by lia. lia.
Qed.

Lemma srun_saccounted df extra ts : forall st,
  Pool.saccounted extra st -> Pool.sallowed df st ts ->
  Pool.saccounted extra (Pool.srun df st ts).
Proof.
  induction ts as [|t ts IH]; intros st Hacc Hal; [done|].
  destruct Hal as [H1 H2]. cbn [Pool.srun]. apply IH; [|done].
  by apply sstep_saccounted.
Qed.

(** X24: the bounds of [active] beside the goroutine of [NewCustom],
    for a caller that only puts back connections it holds. Under every
    schedule of the caller's operations and the goroutine's actions,
    [active] is at least -1, and at least 0 unless the goroutine has
    sent a connection it has not counted yet; and it is at most
    [maxActive] plus the number of calls of [mkConn] the goroutine has
    finished. So [0 <= active <= maxActive] need not hold while the
    goroutine runs, nor after it. *)
Theorem pool_active_bounds_beside_dialer
    network addr size maxActive df now p err pr evs ts :
  maxActive < 2147483648 -> maxActive + size <= 2147483648 ->
  Pool.NewCustom network addr size maxActive df now = Pool.Built p err pr evs ->
  Pool.sallowed df (p, 0, Pool.background size err) ts ->
  let '(q, out, g) := Pool.srun df (p, 0, Pool.background size err) ts in
  - Pool.uncounted g <= Pool.active q /\
  - 1 <= Pool.active q /\
  Pool.active q
    <= Pool.maxActive q + (Pool.todo (Pool.background size err) - Pool.todo g).
Proof.
  intros H32 Hsum Hnew Hal.
  pose proof (NewCustom_accounted _ _ _ _ _ _ _ _ _ _ H32 Hnew)
    as (A1 & A2 & A3 & A4).
  pose proof (NewCustom_shape _ _ _ _ _ _ _ _ _ _ H32 Hnew) as Hshape.
  assert (Htodo : 0 <= Pool.todo (Pool.background size err) <= Z.max 0 (size - 1)).
  { unfold Pool.background. destruct err; cbn; lia. }
  assert (Hinit : Pool.saccounted (Pool.todo (Pool.background size err))
                    (p, 0, Pool.background size err)).
  { unfold Pool.saccounted. split; [lia|]. split.
    { assert (0 <= Pool.uncounted (Pool.background size err)).
      { unfold Pool.background. destruct err; cbn; lia. }
      lia. }
    split; [lia|]. split; [lia|].
    destruct Hshape as [(-> & ? & ? & ? & ? & ? & Hmx & ?)|[-> _]]; [|lia].
    cbn. rewrite Hmx. lia. }
  pose proof (srun_saccounted df _ ts _ Hinit Hal) as H.
  destruct (Pool.srun df (p, 0, Pool.background size err) ts) as [[q out] g].
  destruct H as (Hout & Hs & Ht & Hm & _).
  assert (Hlen := Nat2Z.is_nonneg (length (Pool.buf (Pool.pool q)))).
  assert (Hlen2 := Nat2Z.is_nonneg (length (Pool.buf (Pool.secondaryPool q)))).
  assert (Hu : 0 <= Pool.uncounted g <= 1) by (destruct g; cbn; lia).
  lia.
Qed.

(** The theorem above for size 2 and maxActive 2: the caller borrows
    two connections while the goroutine makes its own, and [active]
    ends at 3. *)
Lemma pool_active_bounds_beside_dialer_witness :
  let p := Pool.mkPool (Pool.mkChan [Pool.mkClient 0 None] 2) (Pool.mkChan [] 0)
                       0 1 2 false "tcp" "a" in
  let ts := [Pool.Caller (Pool.OpGet 1 (inr "unused"%string));
             Pool.Caller (Pool.OpGet 2 (inl (Pool.mkClient 7 None)));
             Pool.Background; Pool.Background; Pool.Background] in
  Pool.active (Pool.srun Scenario.dialFresh (p, 0, Pool.background 2 None) ts).1.1 = 3 /\
  let '(q, out, g) := Pool.srun Scenario.dialFresh (p, 0, Pool.background 2 None) ts in
  - Pool.uncounted g <= Pool.active q /\
  - 1 <= Pool.active q /\
  Pool.active q
    <= Pool.maxActive q + (Pool.todo (Pool.background 2 None) - Pool.todo g).
Proof.
  intros p ts. split; [reflexivity|].
  apply (pool_active_bounds_beside_dialer "tcp" "a" 2 2 Scenario.dialFresh 0 p None
           (Pool.startProbe 2) [Pool.Dialed (Pool.mkClient 0 None)] ts
           ltac:(lia) ltac:(lia) eq_refl).
  cbn. repeat split; lia.
Defined.

Import Cluster.

(** * Facts about the string helpers *)

Lemma append_nil_l (s : string) : EmptyString +:+ s = s.
Proof. reflexivity. Qed.

Lemma append_cons (a : ascii) (s t : string) :
  String a s +:+ t = String a (s +:+ t).
Proof. reflexivity. Qed.

Lemma length_append (a b : string) :
  String.length (a +:+ b) = (String.length a + String.length b)%nat.
Proof. induction a as [|x a IH]; simpl; [done | by rewrite IH]. Qed.








Lemma prefix_byte (c : ascii) (s : string) :
  String.prefix (String c EmptyString) s = true <->
  exists s', s = String c s'.
Proof.
  destruct s as [|a s]; simpl.
  - split; [done | by intros [? ?]].
  - destruct (ascii_dec c a) as [->|Hne].
    + split; [eauto | by destruct s].
    + split; [done | intros [s' [= -> _]]; done].
Qed.

Lemma index_of_byte_None_cons (c a : ascii) (s : string) :
  index_of (String a s) (String c EmptyString) = None <->
  a <> c /\ index_of s (String c EmptyString) = None.
Proof.
  cbn [index_of].
  destruct (String.prefix (String c EmptyString) (String a s)) eqn:E.
  - apply prefix_byte in E as [s' [= -> _]]. split; [done | by intros [? _]].
  - assert (a <> c) as Hne.
    { intros ->. assert (String.prefix (String c EmptyString) (String c s) = true) as E'.
      { apply prefix_byte. eauto. }
      congruence. }
    destruct (index_of s (String c EmptyString)); simpl; split; try done.
    by intros [_ ?].
Qed.

(** The first occurrence of a byte: right after a part that does not
    hold it. *)
Lemma index_of_byte_first (c : ascii) (pre rest : string) :
  index_of pre (String c EmptyString) = None ->
  index_of (pre +:+ String c rest) (String c EmptyString)
    = Some (String.length pre).
Proof.
  induction pre as [|a pre IH]; intros Hnone.
  - rewrite append_nil_l; cbn [index_of].
    assert (String.prefix (String c EmptyString) (String c rest) = true) as ->; [|done].
    apply prefix_byte. eauto.
  - apply index_of_byte_None_cons in Hnone as [Hne Hnone].
    rewrite append_cons; cbn [index_of String.length].
    destruct (String.prefix (String c EmptyString) (String a (pre +:+ String c rest))) eqn:E.
    { apply prefix_byte in E as [s' [= -> _]]. done. }
    rewrite IH by done. done.
Qed.


(** * Slot routing (claim C5) *)





(** A key that ends with its first brace makes [key[start+2:]] panic. *)
Lemma hashTag_trailing_brace pre :
  index_of pre "{" = None -> hashTag (pre +:+ "{") = None.
Proof.
  intros Hpre. unfold hashTag, Index.
  rewrite index_of_byte_first by done.
  destruct (Z.leb_spec 0 (Z.of_nat (String.length pre))); [|lia].
  unfold slice_from. rewrite length_append. cbn [String.length].
  destruct (Z.leb_spec (Z.of_nat (String.length pre) + 2)
              (Z.of_nat (String.length pre + 1))); [lia|].
  by rewrite andb_false_r.
Qed.

(** * Facts about package cluster *)

Lemma bind_Ret {A B} (m : M A) (f : A -> M B) s a s1 :
  m s = Ret a s1 -> (m ≫= f) s = f a s1.
Proof. intros H. unfold mbind, M_bind. by rewrite H. Qed.

Lemma bind_inv {A B} (m : M A) (f : A -> M B) s b s2 :
  (m ≫= f) s = Ret b s2 -> exists a s1, m s = Ret a s1 /\ f a s1 = Ret b s2.
Proof.
  unfold mbind, M_bind. destruct (m s) as [a s1| |]; [eauto | done | done].
Qed.

Lemma keeps_bind {A B} (m : M A) (f : A -> M B) :
  keeps m -> (forall a, keeps (f a)) -> keeps (m ≫= f).
Proof.
  intros Hm Hf s b s2 H. apply bind_inv in H as (a & s1 & H1 & H2).
  rewrite (Hf _ _ _ _ H2). eauto.
Qed.

Lemma keeps_ret {A} (a : A) : keeps (mret a).
Proof. by intros s a' s' [= _ <-]. Qed.

Lemma keeps_tick : keeps tick.
Proof. by intros s a s' [= _ <-]. Qed.

Lemma keeps_emit e : keeps (emit e).
Proof. by intros s a s' [= _ <-]. Qed.

Lemma keeps_getCluster : keeps getCluster.
Proof. by intros s a s' [= _ <-]. Qed.

Lemma keeps_panic {A} why : keeps (@panic A why).
Proof. by intros s a s'. Qed.

Create HintDb keeps.

#[local] Hint Resolve keeps_ret keeps_tick keeps_emit keeps_getCluster
  keeps_panic : keeps.

Ltac keeps_step :=
  match goal with
  | |- keeps (_ ≫= _) => apply keeps_bind; [|intros ?]
  | |- keeps (match ?x with _ => _ end) => destruct x
  | |- keeps (if ?x then _ else _) => destruct x
  | |- keeps (let '(_, _) := ?x in _) => destruct x
  | |- keeps _ => solve [auto with keeps]
  end.

Lemma keeps_rangeOver w {A} (m : gmap string A) : keeps (rangeOver w m).
Proof. unfold rangeOver. repeat keeps_step. Qed.

Lemma keeps_newPool w addr : keeps (newPool w addr).
Proof. unfold newPool. repeat keeps_step. Qed.

Lemma keeps_Pool_Get w p : keeps (Pool_Get w p).
Proof. unfold Pool_Get. repeat keeps_step. Qed.

Lemma keeps_Client_Cmd w c cmd args : keeps (Client_Cmd w c cmd args).
Proof. unfold Client_Cmd. repeat keeps_step. Qed.

Lemma keeps_addrForKeyInner w key : keeps (addrForKeyInner w key).
Proof. unfold addrForKeyInner. repeat keeps_step. Qed.

#[local] Hint Resolve keeps_rangeOver keeps_newPool keeps_Pool_Get
  keeps_Client_Cmd keeps_addrForKeyInner : keeps.

Lemma keeps_getRandomPoolInner w : keeps (getRandomPoolInner w).
Proof. unfold getRandomPoolInner. repeat keeps_step. Qed.

#[local] Hint Resolve keeps_getRandomPoolInner : keeps.

(** [getConn] never writes to the cluster: a pool it makes for an
    address missing from the registry is not stored there. *)
Lemma keeps_getConn w key addr : keeps (getConn w key addr).
Proof. unfold getConn. repeat keeps_step. Qed.

Lemma keeps_issue w c cmd args ask : keeps (issue w c cmd args ask).
Proof. unfold issue. repeat keeps_step. Qed.

Lemma keeps_Put c : keeps (Put c).
Proof. unfold Put. repeat keeps_step. Qed.

#[local] Hint Resolve keeps_getConn keeps_issue keeps_Put : keeps.

Lemma keeps_retryAt w addr ask tried haveReset :
  keeps (retryAt w addr ask tried haveReset).
Proof. unfold retryAt. repeat keeps_step. Qed.

Lemma moved_is_not_ask msg :
  HasPrefix msg "MOVED " = true -> HasPrefix msg "ASK " = false.
Proof.
  unfold HasPrefix. destruct msg as [|a m]; cbn [String.prefix]; [done|].
  destruct (ascii_dec "M" a) as [<-|]; [|done]. intros _.
  by destruct (ascii_dec "A" "M").
Qed.

Lemma ask_is_not_moved msg :
  HasPrefix msg "ASK " = true -> HasPrefix msg "MOVED " = false.
Proof.
  intros H. destruct (HasPrefix msg "MOVED ") eqn:E; [|done].
  apply moved_is_not_ask in E. congruence.
Qed.




(** * The retry loop *)

(** The two redirections, as equations on [attempt]. *)
Lemma attempt_moved w client cmd args ask tried haveReset s s1 msg slot addr :
  issue w client cmd args ask s = Ret (RespErr false msg) s1 ->
  redirectInfo msg = Some (slot, addr) ->
  haveTried (justTried tried (cAddr client)) addr = false ->
  HasPrefix msg "MOVED " = true -> 0 <= slot < numSlots ->
  attempt w client cmd args ask tried haveReset s
    = retryAt w addr false (justTried tried (cAddr client)) haveReset
        (mkSt (set_mapping (cl s) (<[slot := addr]> (mapping (cl s))))
              (clock s1) (trace s1 ++ [EvMiss])).
Proof.
  intros Hissue Hredir Htried Hmoved Hslot.
  pose proof (keeps_issue _ _ _ _ _ _ _ _ Hissue) as Hcl.
  unfold attempt. rewrite (bind_Ret _ _ _ _ _ Hissue).
  cbn [Err IsIOErr]. rewrite Hmoved, (moved_is_not_ask _ Hmoved).
  cbn [orb]. rewrite Hredir, Htried.
  unfold setSlot.
  destruct (Z.leb_spec 0 slot); [|lia].
  destruct (Z.ltb_spec slot numSlots); [|lia].
  cbn [andb]. rewrite <- Hcl. reflexivity.
Qed.

Lemma attempt_ask w client cmd args ask tried haveReset s s1 msg slot addr :
  issue w client cmd args ask s = Ret (RespErr false msg) s1 ->
  redirectInfo msg = Some (slot, addr) ->
  haveTried (justTried tried (cAddr client)) addr = false ->
  HasPrefix msg "ASK " = true ->
  attempt w client cmd args ask tried haveReset s
    = retryAt w addr true (justTried tried (cAddr client)) haveReset
        (mkSt (cl s) (clock s1) (trace s1 ++ [EvMiss])).
Proof.
  intros Hissue Hredir Htried Hask.
  pose proof (keeps_issue _ _ _ _ _ _ _ _ Hissue) as Hcl.
  unfold attempt. rewrite (bind_Ret _ _ _ _ _ Hissue).
  cbn [Err IsIOErr]. rewrite Hask, (ask_is_not_moved _ Hask).
  cbn [orb]. rewrite Hredir, Htried. rewrite <- Hcl. reflexivity.
Qed.

(** A MOVED that names a slot outside the slot map makes the write
    [c.mapping[slot] = addr] panic. *)
Lemma attempt_moved_out_of_range w client cmd args ask tried haveReset s s1
    msg slot addr :
  issue w client cmd args ask s = Ret (RespErr false msg) s1 ->
  redirectInfo msg = Some (slot, addr) ->
  haveTried (justTried tried (cAddr client)) addr = false ->
  HasPrefix msg "MOVED " = true -> slot < 0 \/ numSlots <= slot ->
  attempt w client cmd args ask tried haveReset s = Panic "index out of range".
Proof.
  intros Hissue Hredir Htried Hmoved Hslot.
  unfold attempt. rewrite (bind_Ret _ _ _ _ _ Hissue).
  cbn [Err IsIOErr]. rewrite Hmoved, (moved_is_not_ask _ Hmoved).
  cbn [orb]. rewrite Hredir, Htried.
  unfold setSlot.
  destruct (Z.leb_spec 0 slot); destruct (Z.ltb_spec slot numSlots);
    try lia; reflexivity.
Qed.

(** Following a redirection never adds to the registry: the pool made
    for an address it does not hold is not stored. *)
Lemma redirect_leaves_registry w client cmd args ask tried haveReset s s1
    msg slot addr nx s3 :
  issue w client cmd args ask s = Ret (RespErr false msg) s1 ->
  redirectInfo msg = Some (slot, addr) ->
  haveTried (justTried tried (cAddr client)) addr = false ->
  (HasPrefix msg "MOVED " = true /\ 0 <= slot < numSlots) \/
  HasPrefix msg "ASK " = true ->
  attempt w client cmd args ask tried haveReset s = Ret nx s3 ->
  pools (cl s3) = pools (cl s).
Proof.
  intros Hissue Hredir Htried [[Hm Hslot]|Ha] H.
  - rewrite (attempt_moved w client cmd args ask tried haveReset s s1 msg slot addr
               Hissue Hredir Htried Hm Hslot) in H.
    apply keeps_retryAt in H. by rewrite H.
  - rewrite (attempt_ask w client cmd args ask tried haveReset s s1 msg slot addr
               Hissue Hredir Htried Ha) in H.
    apply keeps_retryAt in H. by rewrite H.
Qed.

(** C2 (the code departs from it): [getConn] makes a pool for an address
    missing from the registry and never stores it. Here the cluster
    knows [A] only, [A] answers GET k with MOVED 7629 B, and [B] serves
    the command: after [Cmd] slot 7629 maps to [B], a pool for [B] has
    been made, and the registry still holds [A] alone. *)
Example Cmd_moved_pool_not_recorded :
  exists s',
    Cmd (Scenario.redirecting "MOVED") 2 "GET" [AStr "k"] Scenario.onlyA
      = Ret (RespStr "v") s' /\
    slotAt (mapping (cl s')) 7629 = Scenario.B /\
    EvNewPool (mkPool 3 Scenario.B) None ∈ trace s' /\
    pools (cl s') !! Scenario.B = None /\
    dom (pools (cl s')) = {[Scenario.A]}.
Proof.
  eexists. split; [vm_compute; reflexivity|].
  split; [reflexivity|]. split.
  - cbn [trace]. rewrite !elem_of_cons. tauto.
  - split; [reflexivity|]. vm_compute. reflexivity.
Qed.




(** * Iterating over the registry *)

Lemma shuffle_Permutation {A} (seed : list nat) : forall l : list A,
  shuffle seed l ≡ₚ l.
Proof.
  induction seed as [|i seed IH]; intros l; simpl; [done|].
  destruct (l !! (i mod length l)%nat) as [x|] eqn:E; [|done].
  rewrite IH. symmetry. by apply delete_Permutation.
Qed.

Lemma rangeOver_inv w {A} (m : gmap string A) s l s' :
  rangeOver w m s = Ret l s' ->
  cl s' = cl s /\ trace s' = trace s /\
  forall k v, (k, v) ∈ l <-> m !! k = Some v.
Proof.
  intros [= <- <-]. repeat split; try done.
  - intros H. apply elem_of_map_to_list.
    by rewrite <- (shuffle_Permutation (order w (clock s))).
  - intros H. rewrite (shuffle_Permutation (order w (clock s))).
    by apply elem_of_map_to_list.
Qed.

Lemma Pool_Get_inv w p s g s' :
  Pool_Get w p s = Ret g s' ->
  cl s' = cl s /\
  ((exists c, g = inr c /\ cAddr c = Addr p /\ trace s' = trace s ++ [EvGet p c]) \/
   (exists e, g = inl e /\ trace s' = trace s ++ [EvGetFail p e])).
Proof.
  unfold Pool_Get, mbind, M_bind, tick, emit, mret, M_ret. cbn.
  destruct (poolGet w (clock s) (Addr p)) as [e|]; intros [= <- <-]; cbn.
  - split; [done|]. right. eauto.
  - split; [done|]. left. eauto.
Qed.

Lemma getEach_fails w l : forall m s err s',
  getEach w l m s = Ret (inl err) s' ->
  cl s' = cl s /\
  exists borrowed failing,
    trace s' = trace s ++ borrowedEvents borrowed ++ [EvGetFail failing err] /\
    (forall p c, (p, c) ∈ borrowed ->
       cAddr c = Addr p /\ exists addr, (addr, p) ∈ l) /\
    exists addr, (addr, failing) ∈ l.
Proof.
  induction l as [|[addr p] rest IH]; intros m s err s' H; [done|].
  cbn [getEach] in H. apply bind_inv in H as (g & s1 & Hg & H).
  apply Pool_Get_inv in Hg as [Hcl Hg].
  destruct Hg as [(c & -> & Hc & Htr)|(e & -> & Htr)].
  - apply IH in H as (Hcl' & borrowed & failing & Htr' & Hb & [a Hf]).
    split; [congruence|].
    exists ((p, c) :: borrowed), failing. split; [|split].
    + rewrite Htr', Htr. cbn. by rewrite <- !app_assoc.
    + intros p' c' [[= -> ->]|Hin]%elem_of_cons.
      * split; [done|]. exists addr. by left.
      * destruct (Hb _ _ Hin) as [? [a' ?]]. split; [done|].
        exists a'. by right.
    + exists a. by right.
  - injection H as <- <-. split; [done|].
    exists [], p. split; [done|]. split.
    + intros p' c' Hin. by apply elem_of_nil in Hin.
    + exists addr. by left.
Qed.

(** C10: when [GetEvery] fails on some pool it returns the error alone,
    the cluster is unchanged, and all it has done is the sequence of
    successful [Get]s on the pools visited before, followed by the
    failed one: none of the borrowed connections is put back or closed,
    and the caller gets no handle on them. *)
Theorem GetEvery_failure_leaks w s err s' :
  GetEvery w s = Ret (inl err) s' ->
  cl s' = cl s /\
  exists borrowed failing,
    trace s' = trace s ++ borrowedEvents borrowed ++ [EvGetFail failing err] /\
    (forall p c, (p, c) ∈ borrowed ->
       cAddr c = Addr p /\
       (exists addr, pools (cl s) !! addr = Some p) /\
       (EvPoolPut p c ∉ borrowedEvents borrowed ++ [EvGetFail failing err]) /\
       (EvClose c ∉ borrowedEvents borrowed ++ [EvGetFail failing err])) /\
    exists addr, pools (cl s) !! addr = Some failing.
Proof.
  unfold GetEvery. intros H.
  apply bind_inv in H as (c & s0 & [= <- <-] & H).
  apply bind_inv in H as (l & s1 & Hl & H).
  apply rangeOver_inv in Hl as (Hcl & Htr & Hl).
  apply getEach_fails in H as (Hcl' & borrowed & failing & Htr' & Hb & [a Hf]).
  split; [congruence|].
  exists borrowed, failing. split; [congruence|]. split.
  - intros p c0 Hin. destruct (Hb _ _ Hin) as [Hc [a' Ha']].
    split; [done|]. split; [exists a'; by apply Hl|].
    assert (Hshape : forall e, e ∈ borrowedEvents borrowed ++ [EvGetFail failing err] ->
              match e with EvGet _ _ | EvGetFail _ _ => True | _ => False end).
    { intros e [He|He]%elem_of_app.
      - unfold borrowedEvents in He. apply list_elem_of_fmap in He as [? [-> _]]. done.
      - apply list_elem_of_singleton in He as ->. done. }
    split; intros Hbad; exact (Hshape _ Hbad).
  - exists a. by apply Hl.
Qed.

(** The theorem above with the registry [A], [B] and [Get] failing on
    [B]: a connection to [A] has been borrowed and is lost. *)
Lemma GetEvery_failure_leaks_witness :
  exists borrowed failing,
    trace (mkSt (cl Scenario.both) 5
             [EvGet (mkPool 0 Scenario.A) (mkClient 3 Scenario.A);
              EvGetFail (mkPool 1 Scenario.B) "redis: connection pool exhausted"])
      = trace Scenario.both ++ borrowedEvents borrowed
        ++ [EvGetFail failing "redis: connection pool exhausted"] /\
    (forall p c, (p, c) ∈ borrowed ->
       cAddr c = Addr p /\
       (exists addr, pools (cl Scenario.both) !! addr = Some p) /\
       (EvPoolPut p c ∉ borrowedEvents borrowed
                        ++ [EvGetFail failing "redis: connection pool exhausted"]) /\
       (EvClose c ∉ borrowedEvents borrowed
                    ++ [EvGetFail failing "redis: connection pool exhausted"])) /\
    exists addr, pools (cl Scenario.both) !! addr = Some failing.
Proof.
  refine (proj2 (GetEvery_failure_leaks Scenario.exhaustedB Scenario.both
                   "redis: connection pool exhausted"
                   (mkSt (cl Scenario.both) 5
                      [EvGet (mkPool 0 Scenario.A) (mkClient 3 Scenario.A);
                       EvGetFail (mkPool 1 Scenario.B)
                                 "redis: connection pool exhausted"]) _)).
  vm_compute. reflexivity.
Defined.

(** * Reset *)

Lemma grows_bind {A B} (m : M A) (f : A -> M B) :
  grows m -> (forall a, grows (f a)) -> grows (m ≫= f).
Proof.
  intros Hm Hf s b s2 H. apply bind_inv in H as (a & s1 & H1 & H2).
  destruct (Hm _ _ _ H1) as [Hp [e1 He1]].
  destruct (Hf _ _ _ _ H2) as [Hp' [e2 He2]].
  split; [congruence|]. exists (e1 ++ e2). rewrite He2, He1. by rewrite app_assoc.
Qed.

Lemma grows_ret {A} (a : A) : grows (mret a).
Proof. intros s a' s' [= _ <-]. split; [done|]. exists []. by rewrite app_nil_r. Qed.

Lemma grows_skip : grows skip.
Proof. apply grows_ret. Qed.

Lemma grows_tick : grows tick.
Proof. intros s a s' [= _ <-]. split; [done|]. exists []. by rewrite app_nil_r. Qed.

Lemma grows_emit e : grows (emit e).
Proof. intros s a s' [= _ <-]. split; [done|]. by exists [e]. Qed.

Lemma grows_getCluster : grows getCluster.
Proof. intros s a s' [= _ <-]. split; [done|]. exists []. by rewrite app_nil_r. Qed.

Lemma grows_panic {A} why : grows (@panic A why).
Proof. by intros s a s'. Qed.

Lemma grows_setSlot i addr : grows (setSlot i addr).
Proof.
  unfold setSlot. destruct (_ && _); [|apply grows_panic].
  intros s a s' [= _ <-]. split; [done|]. exists []. by rewrite app_nil_r.
Qed.

Create HintDb grows.

#[local] Hint Resolve grows_ret grows_skip grows_tick grows_emit
  grows_getCluster grows_panic grows_setSlot : grows.

Ltac grows_step :=
  match goal with
  | |- grows (_ ≫= _) => apply grows_bind; [|intros ?]
  | |- grows (match ?x with _ => _ end) => destruct x
  | |- grows (if ?x then _ else _) => destruct x
  | |- grows _ => solve [auto with grows]
  end.

Lemma grows_setRange n : forall i addr, grows (setRange n i addr).
Proof.
  induction n as [|n IH]; intros i addr; cbn [setRange]; repeat grows_step.
Qed.

Lemma grows_newPool w addr : grows (newPool w addr).
Proof. unfold newPool. repeat grows_step. Qed.

Lemma grows_Client_Cmd w c cmd args : grows (Client_Cmd w c cmd args).
Proof. unfold Client_Cmd. repeat grows_step. Qed.

#[local] Hint Resolve grows_setRange grows_newPool grows_Client_Cmd : grows.

Lemma grows_slotLoop w src elems : forall acc, grows (slotLoop w src elems acc).
Proof.
  induction elems as [|g rest IH]; intros acc; cbn [slotLoop].
  - auto with grows.
  - destruct (parseGroup g) as [[[[start end_] ip] port]| |]; auto with grows.
    repeat grows_step; try apply IH.
Qed.

Lemma grows_dropStale old new : forall changed, grows (dropStale old new changed).
Proof.
  induction old as [|[addr p] rest IH]; intros changed; cbn [dropStale].
  - auto with grows.
  - destruct (new !! addr); [apply IH|]. repeat grows_step; try apply IH.
Qed.

(** The registry built by the loop over the slot groups: the entries it
    started from and one entry per master address. *)
Lemma slotLoop_dom w src elems : forall acc s new changed s',
  slotLoop w src elems acc s = Ret (inr (new, changed)) s' ->
  dom new = dom acc.1 ∪ list_to_set (masterAddrs (Addr src) elems).
Proof.
  induction elems as [|g rest IH]; intros acc s new changed s' H.
  - injection H as -> _. cbn. by rewrite (right_id_L ∅ (∪)).
  - cbn [slotLoop] in H. unfold masterAddrs. cbn [flat_map].
    fold (masterAddrs (Addr src) rest).
    destruct (parseGroup g) as [[[[start end_] ip] port]| |]; [|done|done].
    apply bind_inv in H as (u & s1 & _ & H).
    apply bind_inv in H as (c & s2 & _ & H).
    destruct (pools c !! slotAddrOf (Addr src) ip port) as [sp|].
    + apply IH in H. rewrite H. cbn [fst]. rewrite dom_insert_L.
      cbn [app list_to_set].
      by rewrite (comm_L (∪) {[_]} (dom acc.1)), <- (assoc_L (∪)).
    + apply bind_inv in H as ([sp err] & s3 & _ & H).
      destruct err as [e|]; [done|].
      apply IH in H. rewrite H. cbn [fst]. rewrite dom_insert_L.
      cbn [app list_to_set].
      by rewrite (comm_L (∪) {[_]} (dom acc.1)), <- (assoc_L (∪)).
Qed.

(** [dropStale] empties every pool of the old registry that the new one
    has no entry for, and no other. *)
Lemma dropStale_empties old new : forall changed s b s',
  dropStale old new changed s = Ret b s' ->
  exists evs,
    trace s' = trace s ++ evs /\
    forall q, EvEmpty q ∈ evs <->
              exists addr, (addr, q) ∈ old /\ new !! addr = None.
Proof.
  induction old as [|[a p] rest IH]; intros changed s b s' H.
  { injection H as _ <-. exists []. split; [by rewrite app_nil_r|].
    intros q. split.
    - by intros ?%elem_of_nil.
    - by intros (addr & ?%elem_of_nil & _). }
  cbn [dropStale] in H. destruct (new !! a) as [kept|] eqn:Ea.
  - apply IH in H as (evs & Htr & Hev). exists evs. split; [done|].
    intros q. rewrite Hev. split.
    + intros (addr & Hin & Hn). exists addr. split; [by right | done].
    + intros (addr & [[= -> ->]|Hin]%elem_of_cons & Hn); [congruence|].
      by exists addr.
  - apply bind_inv in H as (u & s1 & [= _ <-] & H).
    apply IH in H as (evs & Htr & Hev). exists (EvEmpty p :: evs). split.
    + rewrite Htr. cbn [trace]. by rewrite <- app_assoc.
    + intros q. rewrite elem_of_cons, Hev. split.
      * intros [[= ->]|(addr & Hin & Hn)].
        -- exists a. split; [by left | done].
        -- exists addr. split; [by right | done].
      * intros (addr & [[= -> ->]|Hin]%elem_of_cons & Hn); [by left|].
        right. by exists addr.
Qed.

(** What a successful [rebuild] leaves behind. *)
Lemma rebuild_registry w p client s s' :
  rebuild w p client s = Ret None s' ->
  exists elems evs,
    reply w (clock s) (cAddr client) "CLUSTER" [AStr "SLOTS"] = RespArr elems /\
    elems <> [] /\
    dom (pools (cl s')) = {[Addr p]} ∪ list_to_set (masterAddrs (Addr p) elems) /\
    trace s' = trace s ++ EvCmd client "CLUSTER" [AStr "SLOTS"] :: evs /\
    forall addr q, pools (cl s) !! addr = Some q ->
                   addr ∉ dom (pools (cl s')) -> EvEmpty q ∈ evs.
Proof.
  unfold rebuild. intros H.
  apply bind_inv in H as (r & s1 & Hr & H).
  assert (Hr' : r = reply w (clock s) (cAddr client) "CLUSTER" [AStr "SLOTS"]).
  { by injection Hr as <- _. }
  assert (Ht1 : trace s1 = trace s ++ [EvCmd client "CLUSTER" [AStr "SLOTS"]]).
  { by injection Hr as _ <-. }
  pose proof (grows_Client_Cmd _ _ _ _ _ _ _ Hr) as [Hp1 _].
  destruct r as [io m|z|str|elems|]; try (by injection H).
  cbn [Array] in H. destruct elems as [|g rest]; [by injection H|].
  apply bind_inv in H as (lp & s2 & Hloop & H).
  destruct lp as [e|[new changed]]; [by injection H|].
  pose proof (grows_slotLoop _ _ _ _ _ _ _ Hloop) as [Hp2 [ev2 Ht2]].
  apply slotLoop_dom in Hloop. cbn [fst] in Hloop.
  rewrite dom_singleton_L in Hloop.
  apply bind_inv in H as (c & s3 & [= <- <-] & H).
  apply bind_inv in H as (old & s4 & Hold & H).
  apply rangeOver_inv in Hold as (Hcl4 & Htr4 & Hold).
  apply bind_inv in H as (ch & s5 & Hdrop & H).
  apply dropStale_empties in Hdrop as (ev3 & Ht3 & Hempt).
  apply bind_inv in H as (c5 & s6 & [= <- <-] & H).
  apply bind_inv in H as (u & s7 & [= _ <-] & H).
  assert (Hfin : pools (cl s') = new /\ exists evs, trace s' = trace s5 ++ evs).
  { destruct ch.
    - apply bind_inv in H as (u' & s8 & [= _ <-] & H). injection H as <-.
      split; [done|]. by exists [EvChange].
    - apply bind_inv in H as (u' & s8 & [= _ <-] & H). injection H as <-.
      split; [done|]. exists []. by rewrite app_nil_r. }
  destruct Hfin as [Hnew [ev4 Ht4]].
  exists (g :: rest), (ev2 ++ ev3 ++ ev4).
  split; [done|]. split; [done|]. rewrite Hnew. split; [done|]. split.
  - rewrite Ht4, Ht3, Htr4, Ht2, Ht1. by rewrite <- !app_assoc.
  - intros addr q Hq Hnot. rewrite !elem_of_app. right. left.
    apply Hempt. exists addr. split.
    + apply Hold. by rewrite Hp2, Hp1.
    + by apply not_elem_of_dom.
Qed.

(** C3, as stated, fails: the pool the reply was obtained from is always
    kept. Here the registry holds [A] only, and CLUSTER SLOTS asked of
    [A] names the single master [B]: Reset succeeds, the registry then
    holds [A] and [B], and [A] has not been emptied. *)
Lemma resetInner_keeps_source_pool :
  exists s',
    resetInner Scenario.replicaSeed Scenario.onlyA = Ret None s' /\
    masterAddrs Scenario.A [RespArr [RespInt 7620; RespInt 7629;
                              RespArr [RespStr "10.0.0.2"; RespInt 6379]]]
      = [Scenario.B] /\
    dom (pools (cl s')) = {[Scenario.A; Scenario.B]} /\
    dom (pools (cl s')) <> {[Scenario.B]} /\
    pools (cl s') !! Scenario.A = Some (mkPool 0 Scenario.A) /\
    EvEmpty (mkPool 0 Scenario.A) ∉ trace s'.
Proof.
  eexists. split; [vm_compute; reflexivity|].
  split; [vm_compute; reflexivity|].
  split; [vm_compute; reflexivity|]. split.
  - intros H. assert (Scenario.A ∈ ({[Scenario.B]} : gset string)) as Hin.
    { rewrite <- H. vm_compute. reflexivity. }
    apply elem_of_singleton in Hin. discriminate.
  - split; [vm_compute; reflexivity|].
    cbn [trace]. rewrite !elem_of_cons, elem_of_nil.
    intros [H|[H|[H|[H|[H|H]]]]]; done.
Qed.

(** A throttled Reset reports success and touches nothing but the
    clock. *)
Lemma resetInner_throttled w s period :
  resetThrottle (cl s) = Some period -> ticked w (clock s) = false ->
  resetInner w s = Ret None (mkSt (cl s) (S (clock s)) (trace s)).
Proof.
  intros Hth Htick. unfold resetInner, mbind, M_bind, getCluster. cbn.
  rewrite Hth. unfold tick, mret, M_ret. cbn. by rewrite Htick.
Qed.

(** A Reset that ran and succeeded, step by step: the pool the range
    over the registry gave first, the connection borrowed from it, and
    the rebuilding of the registry from the reply to that connection. *)
Lemma resetInner_run w s s' :
  resetInner w s = Ret None s' ->
  resetThrottle (cl s) = None \/ ticked w (clock s) = true ->
  let t0 := match resetThrottle (cl s) with
            | Some _ => S (clock s)
            | None => clock s
            end in
  exists a p s3 s4,
    head (shuffle (order w t0) (map_to_list (pools (cl s)))) = Some (a, p) /\
    pools (cl s) !! a = Some p /\
    poolGet w (S t0) (Addr p) = None /\
    clock s3 = S (S t0) /\
    trace s3 = trace s ++ [EvGet p (mkClient (S t0) (Addr p))] /\
    pools (cl s3) = pools (cl s) /\ mapping (cl s3) = mapping (cl s) /\
    o (cl s3) = o (cl s) /\
    rebuild w p (mkClient (S t0) (Addr p)) s3 = Ret None s4 /\
    cl s' = cl s4 /\
    trace s' = trace s4 ++ [EvClose (mkClient (S t0) (Addr p))].
Proof.
  intros H Hgo t0. unfold resetInner in H.
  apply bind_inv in H as (c & s0 & [= <- <-] & H).
  apply bind_inv in H as (proceed & s1 & Hthr & H).
  assert (Hs1 : proceed = true /\ pools (cl s1) = pools (cl s) /\
                mapping (cl s1) = mapping (cl s) /\ o (cl s1) = o (cl s) /\
                trace s1 = trace s /\ clock s1 = t0).
  { subst t0. destruct (resetThrottle (cl s)) as [period|].
    - injection Hthr as <- <-. destruct Hgo as [?|Hgo]; [done|]. by rewrite Hgo.
    - destruct (ResetThrottle (o (cl s)) <=? 0); [done|].
      by injection Hthr as <- <-. }
  destruct Hs1 as (-> & Hp1 & Hm1 & Ho1 & Ht1 & Hc1). cbn [negb] in H.
  apply bind_inv in H as (rp & s2 & Hrp & H).
  unfold getRandomPoolInner in Hrp.
  apply bind_inv in Hrp as (c1 & s1' & [= <- <-] & Hrp).
  apply bind_inv in Hrp as (l & s2' & Hl & [= <- <-]).
  assert (Hl' : l = shuffle (order w t0) (map_to_list (pools (cl s))) /\
                clock s2' = S t0).
  { injection Hl as <- <-. by rewrite Hc1, Hp1. }
  destruct Hl' as [Hlist Hc2].
  apply rangeOver_inv in Hl as (Hcl2 & Ht2 & Hl).
  destruct l as [|[a p] l]; [by injection H|].
  cbn [head fmap option_fmap option_map snd] in H.
  apply bind_inv in H as (g & s3 & Hg & H).
  assert (Hget : poolGet w (S t0) (Addr p) = None /\
                 g = inr (mkClient (S t0) (Addr p)) /\
                 s3 = mkSt (cl s2') (S (S t0))
                           (trace s2' ++ [EvGet p (mkClient (S t0) (Addr p))])).
  { unfold Pool_Get, mbind, M_bind, tick, emit, mret, M_ret in Hg. cbn in Hg.
    rewrite Hc2 in Hg.
    destruct (poolGet w (S t0) (Addr p)) as [e|].
    - injection Hg as <- _. by injection H.
    - by injection Hg as <- <-. }
  destruct Hget as (Hpg & -> & ->).
  apply bind_inv in H as (res & s4 & Hreb & H).
  apply bind_inv in H as (u & s5 & [= _ <-] & [= -> <-]).
  exists a, p, (mkSt (cl s2') (S (S t0))
                     (trace s2' ++ [EvGet p (mkClient (S t0) (Addr p))])), s4.
  cbn [cl clock trace]. rewrite Hcl2, Ht2, Ht1 in Hreb.
  rewrite Hcl2, Ht2, Hp1, Hm1, Ho1, Ht1.
  split; [by rewrite <- Hlist|]. split; [rewrite <- Hp1; apply Hl; by left|].
  repeat split; done.
Qed.

(** C3 (amended): after a Reset that was not skipped by the throttle and
    succeeded, the keys of the registry are exactly the master addresses
    of the CLUSTER SLOTS reply (an empty ip standing for the address of
    the pool the reply was obtained from) together with the address of
    that pool, which is always kept; and every pool of the old registry
    whose address is not among these keys has been emptied and is
    gone. The pool is the one the range over the registry gave first,
    the reply is the one to the CLUSTER SLOTS command this Reset sent
    on the connection it borrowed from that pool, and what the Reset
    did is: the [Get], the command, the rebuilding, the [Close] of the
    connection. *)
Theorem resetInner_registry w s s' :
  resetInner w s = Ret None s' ->
  resetThrottle (cl s) = None \/ ticked w (clock s) = true ->
  let t0 := match resetThrottle (cl s) with
            | Some _ => S (clock s)
            | None => clock s
            end in
  exists a p elems evs,
    let client := mkClient (S t0) (Addr p) in
    head (shuffle (order w t0) (map_to_list (pools (cl s)))) = Some (a, p) /\
    pools (cl s) !! a = Some p /\
    reply w (S (S t0)) (Addr p) "CLUSTER" [AStr "SLOTS"] = RespArr elems /\
    trace s' = trace s ++ EvGet p client
                          :: EvCmd client "CLUSTER" [AStr "SLOTS"]
                          :: evs ++ [EvClose client] /\
    dom (pools (cl s'))
      = {[Addr p]} ∪ list_to_set (masterAddrs (Addr p) elems) /\
    forall addr q,
      pools (cl s) !! addr = Some q ->
      addr ∉ dom (pools (cl s')) ->
      EvEmpty q ∈ evs /\ pools (cl s') !! addr = None.
Proof.
  intros H Hgo t0.
  destruct (resetInner_run w s s' H Hgo)
    as (a & p & s3 & s4 & Hhead & Hap & _ & Hc3 & Ht3 & Hp3 & _ & _ & Hreb & Hcl & Htr).
  fold t0 in Hhead, Hc3, Ht3, Hreb, Htr.
  apply rebuild_registry in Hreb as (elems & evs & Hreply & _ & Hdom & Ht4 & Hempt).
  rewrite Hc3 in Hreply. cbn [cAddr] in Hreply.
  exists a, p, elems, evs. cbn zeta.
  split; [done|]. split; [done|]. split; [done|]. split; [|split].
  - rewrite Htr, Ht4, Ht3. by rewrite <- !app_assoc.
  - by rewrite Hcl.
  - intros addr q Hq Hnot. rewrite Hcl in Hnot |- *. split.
    + apply (Hempt addr q); [by rewrite Hp3|done].
    + by apply not_elem_of_dom.
Qed.

(** The theorem above for the replica seed: the reply comes from [A],
    names [B], and the registry ends with both. *)
Lemma resetInner_registry_witness :
  exists s' a p elems evs,
    resetInner Scenario.replicaSeed Scenario.onlyA = Ret None s' /\
    head (shuffle (order Scenario.replicaSeed 2)
                  (map_to_list (pools (cl Scenario.onlyA)))) = Some (a, p) /\
    pools (cl Scenario.onlyA) !! a = Some p /\
    reply Scenario.replicaSeed 4 (Addr p) "CLUSTER" [AStr "SLOTS"] = RespArr elems /\
    trace s' = trace Scenario.onlyA
               ++ EvGet p (mkClient 3 (Addr p))
                  :: EvCmd (mkClient 3 (Addr p)) "CLUSTER" [AStr "SLOTS"]
                  :: evs ++ [EvClose (mkClient 3 (Addr p))] /\
    dom (pools (cl s'))
      = {[Addr p]} ∪ list_to_set (masterAddrs (Addr p) elems) /\
    forall addr q,
      pools (cl Scenario.onlyA) !! addr = Some q ->
      addr ∉ dom (pools (cl s')) ->
      EvEmpty q ∈ evs /\ pools (cl s') !! addr = None.
Proof.
  eexists. 
  assert (Hrun : resetInner Scenario.replicaSeed Scenario.onlyA
                 = Ret None ?[s']) by (vm_compute; reflexivity).
  destruct (resetInner_registry Scenario.replicaSeed Scenario.onlyA _ Hrun
              (or_intror eq_refl)) as (a & p & elems & evs & H).
  exists a, p, elems, evs. split; [exact Hrun|]. exact H.
Defined.

(** * More on package cluster *)

Lemma keyOfArg_error : forall arg e,
  keyOfArg arg = Some (inl e) -> e = ErrBadCmdNoKey.
Proof.
  fix IH 1. intros arg e. destruct arg as [s|s|l| | |s]; cbn [keyOfArg].
  - done.
  - done.
  - destruct l as [|first l]; [by intros [= <-]|]. apply IH.
  - by intros [= <-].
  - done.
  - done.
Qed.

(** X10: how [Cmd] starts. When [KeyFromArgs] finds no key in the
    arguments (none given, or the first one an empty slice or a map,
    down to its first leaf) the answer is the error "bad command, no
    key" and nothing else is done: no connection is borrowed, the state
    is untouched. When the first leaf is a nil interface value, [Cmd]
    panics. When there is a non-empty key, the slot map has a node
    for the slot of its hashed part, the registry a pool for that
    node and that pool a connection, the retry loop is entered on
    that connection, nothing tried and no reset made. *)
Theorem Cmd_key w fuel cmd args s :
  (forall e, KeyFromArgs args = Some (inl e) ->
     e = ErrBadCmdNoKey /\
     Cmd w fuel cmd args s = Ret (errorResp ErrBadCmdNoKey) s) /\
  (KeyFromArgs args = None ->
   Cmd w fuel cmd args s
     = Panic "invalid memory address or nil pointer dereference") /\
  (forall key k p,
     KeyFromArgs args = Some (inr key) -> key <> EmptyString ->
     hashTag key = Some k ->
     pools (cl s) !! slotAt (mapping (cl s)) (CRC16 w k mod numSlots) = Some p ->
     poolGet w (clock s) (Addr p) = None ->
     let c := mkClient (clock s) (Addr p) in
     Cmd w fuel cmd args s
       = clientCmd w fuel c cmd args false None false
           (mkSt (cl s) (S (clock s)) (trace s ++ [EvGet p c]))).
Proof.
  split; [|split].
  - intros e He. destruct args as [|a l].
    + injection He as <-. done.
    + cbn [KeyFromArgs] in He. pose proof (keyOfArg_error _ _ He) as ->.
      split; [done|]. unfold Cmd. cbn [KeyFromArgs keyOfArg]. by rewrite He.
  - intros Hk. destruct args as [|a l]; [done|].
    cbn [KeyFromArgs] in Hk. unfold Cmd. cbn [KeyFromArgs keyOfArg].
    by rewrite Hk.
  - intros key k p Hk Hne Htag Hpool Hget c. destruct args as [|a l]; [done|].
    cbn [KeyFromArgs] in Hk. unfold Cmd. cbn [KeyFromArgs keyOfArg].
    rewrite Hk. unfold getConn.
    destruct (decide (key = EmptyString)) as [|_]; [done|].
    unfold addrForKeyInner. rewrite Htag.
    unfold mbind, M_bind, getCluster, mret, M_ret. cbn [cl].
    rewrite Hpool. unfold Pool_Get, mbind, M_bind, tick. cbn [clock cl trace].
    rewrite Hget. reflexivity.
Qed.

(** The theorem above for a command whose first argument is a map and
    for one whose first argument is nil. *)
Lemma Cmd_key_witness :
  Cmd (Scenario.redirecting "MOVED") 3 "HMSET" [AMap; AStr "k"] Scenario.onlyA
    = Ret (errorResp ErrBadCmdNoKey) Scenario.onlyA /\
  Cmd (Scenario.redirecting "MOVED") 3 "GET" [ANil] Scenario.onlyA
    = Panic "invalid memory address or nil pointer dereference".
Proof.
  split.
  - apply (proj1 (Cmd_key (Scenario.redirecting "MOVED") 3 "HMSET" [AMap; AStr "k"]
                    Scenario.onlyA) ErrBadCmdNoKey eq_refl).
  - apply (proj1 (proj2 (Cmd_key (Scenario.redirecting "MOVED") 3 "GET" [ANil]
                           Scenario.onlyA)) eq_refl).
Defined.



(** The event by which [Put] returns a connection. *)
Lemma Put_inv conn s :
  exists e,
    Put conn s = Ret tt (mkSt (cl s) (clock s) (trace s ++ [e])) /\
    ((exists p, pools (cl s) !! cAddr conn = Some p /\ e = EvPoolPut p conn) \/
     (pools (cl s) !! cAddr conn = None /\ e = EvClose conn)).
Proof.
  unfold Put, mbind, M_bind, getCluster. cbn.
  destruct (pools (cl s) !! cAddr conn) as [p|] eqn:E.
  - exists (EvPoolPut p conn). split; [done|]. left. eauto.
  - exists (EvClose conn). split; [done|]. by right.
Qed.

(** X12: when the reply to the command is not an error, or is an
    application error that is neither MOVED nor ASK, [clientCmd] returns
    that reply after this one attempt, whatever fuel is left; the
    cluster is unchanged and the only thing done after the command is
    the return of the client, to its pool if the registry has one for
    its address, closed otherwise. *)
Theorem clientCmd_passes_through w fuel client cmd args ask tried haveReset s r s1 :
  issue w client cmd args ask s = Ret r s1 ->
  Err r = None \/
  (exists msg, r = RespErr false msg /\
               HasPrefix msg "MOVED " = false /\ HasPrefix msg "ASK " = false) ->
  exists e,
    clientCmd w (S fuel) client cmd args ask tried haveReset s
      = Ret r (mkSt (cl s) (clock s1) (trace s1 ++ [e])) /\
    ((exists p, pools (cl s) !! cAddr client = Some p /\ e = EvPoolPut p client) \/
     (pools (cl s) !! cAddr client = None /\ e = EvClose client)).
Proof.
  intros Hissue Hr.
  pose proof (keeps_issue _ _ _ _ _ _ _ _ Hissue) as Hcl.
  assert (Hatt : attempt w client cmd args ask tried haveReset s = Ret (Return r) s1).
  { unfold attempt. rewrite (bind_Ret _ _ _ _ _ Hissue).
    destruct Hr as [Hr|(msg & -> & Hm & Ha)].
    - by rewrite Hr.
    - cbn [Err IsIOErr]. by rewrite Hm, Ha. }
  destruct (Put_inv client s1) as (e & Hput & He).
  exists e. rewrite <- Hcl. split; [|done].
  cbn [clientCmd]. rewrite (bind_Ret _ _ _ _ _ Hatt).
  unfold mbind at 1, M_bind at 1. cbn [mret M_ret].
  unfold mbind, M_bind. by rewrite Hput.
Qed.

(** The theorem above for a WRONGTYPE reply. *)
Lemma clientCmd_passes_through_witness :
  let w := Scenario.worldOf (fun _ _ => RespErr false "WRONGTYPE") in
  exists e,
    clientCmd w 1 Scenario.clientA "GET" [AStr "k"] false None false Scenario.onlyA
      = Ret (RespErr false "WRONGTYPE")
            (mkSt (cl Scenario.onlyA) 2
                  ([EvCmd Scenario.clientA "GET" [AStr "k"]] ++ [e])) /\
    ((exists p, pools (cl Scenario.onlyA) !! cAddr Scenario.clientA = Some p /\
                e = EvPoolPut p Scenario.clientA) \/
     (pools (cl Scenario.onlyA) !! cAddr Scenario.clientA = None /\
      e = EvClose Scenario.clientA)).
Proof.
  intros w.
  apply (clientCmd_passes_through w 0 Scenario.clientA "GET" [AStr "k"] false None
           false Scenario.onlyA (RespErr false "WRONGTYPE")
           (mkSt (cl Scenario.onlyA) 2 [EvCmd Scenario.clientA "GET" [AStr "k"]])
           eq_refl).
  right. exists "WRONGTYPE"%string. repeat split.
Defined.

(** [getRandomPoolInner] returns nil exactly when the registry is
    empty, and otherwise a pool of the registry; it changes nothing. *)
Lemma getRandomPoolInner_spec w s :
  exists rp s',
    getRandomPoolInner w s = Ret rp s' /\
    cl s' = cl s /\ trace s' = trace s /\
    (rp = None <-> pools (cl s) = ∅) /\
    (forall p, rp = Some p -> exists addr, pools (cl s) !! addr = Some p).
Proof.
  unfold getRandomPoolInner, mbind, M_bind, getCluster.
  destruct (rangeOver w (pools (cl s)) s) as [l s'| |] eqn:E; try done.
  apply rangeOver_inv in E as (Hcl & Htr & Hl).
  exists (snd <$> head l), s'. split; [done|]. split; [done|]. split; [done|].
  split.
  - destruct l as [|[a p] l]; cbn.
    + split; [|done]. intros _. apply map_eq. intros k.
      rewrite lookup_empty. destruct (pools (cl s) !! k) as [v|] eqn:Ek; [|done].
      apply Hl in Ek. by apply elem_of_nil in Ek.
    + split; [done|]. intros Hempty.
      assert (pools (cl s) !! a = Some p) as Hap by (apply Hl; by left).
      by rewrite Hempty, lookup_empty in Hap.
  - intros p Hp. destruct l as [|[a q] l]; [done|]. injection Hp as ->.
    exists a. apply Hl. by left.
Qed.

(** X13: what [getConn] can return. A connection it returns is bound
    either to the address asked for or to the address of a pool of the
    registry (the fallback). An error it returns is either the no-pools
    error, and then the registry is empty, or the error of a failed
    [Get] on a pool of the registry. In no case is the cluster state
    changed. *)
Theorem getConn_result w addr s g s' :
  getConn w "" addr s = Ret g s' ->
  cl s' = cl s /\
  exists evs,
    trace s' = trace s ++ evs /\
    match g with
    | inr c =>
        cAddr c = addr \/
        exists a p, pools (cl s) !! a = Some p /\ cAddr c = Addr p
    | inl e =>
        (e = errNoPools /\ pools (cl s) = ∅) \/
        exists a p, pools (cl s) !! a = Some p /\ EvGetFail p e ∈ evs
    end.
Proof.
  intros H. split; [by apply keeps_getConn in H|].
  unfold getConn in H.
  destruct (decide (EmptyString = EmptyString)) as [_|]; [|done].
  apply bind_inv in H as (addr0 & s0 & [= <- <-] & H).
  apply bind_inv in H as (c & s1 & [= <- <-] & H).
  apply bind_inv in H as ([p err] & s2 & Hp & H).
  assert (Hp' : cl s2 = cl s /\ (exists ev, trace s2 = trace s ++ ev) /\
                (Addr p = addr \/ exists a, pools (cl s) !! a = Some p)).
  { destruct (pools (cl s) !! addr) as [q|] eqn:Eq.
    - injection Hp as <- <- <-. split; [done|]. split; [|eauto].
      exists []. by rewrite app_nil_r.
    - pose proof (keeps_newPool _ _ _ _ _ Hp) as Hk.
      pose proof (grows_newPool _ _ _ _ _ Hp) as [_ Hg].
      split; [done|]. split; [done|]. left.
      unfold newPool in Hp. apply bind_inv in Hp as (t & st & _ & Hp).
      apply bind_inv in Hp as (u & su & _ & Hp). by injection Hp as <- _ _. }
  destruct Hp' as (Hcl2 & [ev2 Ht2] & Hpaddr).
  apply bind_inv in H as (r & s3 & Hr & H).
  assert (Hr' : cl s3 = cl s /\ exists ev, trace s3 = trace s ++ ev /\
                match r with
                | inr conn => cAddr conn = addr \/
                              exists a p, pools (cl s) !! a = Some p /\ cAddr conn = Addr p
                | inl _ => True
                end).
  { destruct err as [e|].
    - injection Hr as <- <-. split; [done|]. by exists ev2.
    - apply Pool_Get_inv in Hr as [Hcl3 Hr]. split; [congruence|].
      destruct Hr as [(conn & -> & Hc & Htr)|(e & -> & Htr)].
      + exists (ev2 ++ [EvGet p conn]). split; [by rewrite Htr, Ht2, app_assoc|].
        destruct Hpaddr as [<-|[a Ha]]; [by left|]. right. eauto.
      + exists (ev2 ++ [EvGetFail p e]). split; [by rewrite Htr, Ht2, app_assoc|done]. }
  destruct Hr' as (Hcl3 & ev3 & Ht3 & Hr').
  destruct r as [e0|conn].
  2:{ injection H as <- <-. by exists ev3. }
  apply bind_inv in H as (rp & s4 & Hrp & H).
  destruct (getRandomPoolInner_spec w s3) as (rp' & s4' & Hsp & Hcl4 & Ht4 & Hnone & Hsome).
  rewrite Hsp in Hrp. injection Hrp as -> ->.
  destruct rp as [q|].
  - destruct (Hsome q eq_refl) as [a Ha]. rewrite Hcl3 in Ha.
    apply Pool_Get_inv in H as [Hcl5 H].
    destruct H as [(conn & -> & Hc & Htr)|(e & -> & Htr)].
    + exists (ev3 ++ [EvGet q conn]). split; [by rewrite Htr, Ht4, Ht3, app_assoc|].
      right. eauto.
    + exists (ev3 ++ [EvGetFail q e]). split; [by rewrite Htr, Ht4, Ht3, app_assoc|].
      right. exists a, q. split; [done|]. apply elem_of_app. right. by left.
  - injection H as <- <-. exists ev3. split; [congruence|].
    left. split; [done|]. rewrite <- Hcl3. by apply Hnone.
Qed.

(** The theorem above when [Get] fails on the only pool of the
    registry. *)
Lemma getConn_result_witness :
  let w := mkWorld Scenario.crc16 (fun _ => Scenario.dialAny)
             (fun _ _ => Some "redis: connection pool exhausted"%string)
             (fun _ _ _ _ => RespNil) (fun _ => []) (fun _ => true) in
  let s' := mkSt (cl Scenario.onlyA) 4
              [EvGetFail (mkPool 0 Scenario.A) "redis: connection pool exhausted";
               EvGetFail (mkPool 0 Scenario.A) "redis: connection pool exhausted"] in
  cl s' = cl Scenario.onlyA /\
  exists evs,
    trace s' = trace Scenario.onlyA ++ evs /\
    ((("redis: connection pool exhausted"%string = errNoPools) /\
      pools (cl Scenario.onlyA) = ∅) \/
     exists a p, pools (cl Scenario.onlyA) !! a = Some p /\
                 EvGetFail p "redis: connection pool exhausted" ∈ evs).
Proof.
  intros w s'.
  refine (getConn_result w Scenario.A Scenario.onlyA
            (inl "redis: connection pool exhausted"%string) s' _).
  vm_compute. reflexivity.
Defined.

(** * More on Reset *)

Lemma quiet_bind {A B} (m : M A) (f : A -> M B) :
  quiet m -> (forall a, quiet (f a)) -> quiet (m ≫= f).
Proof.
  intros Hm Hf s b s2 H. apply bind_inv in H as (a & s1 & H1 & H2).
  destruct (Hm _ _ _ H1) as (Hp & e1 & He1 & Hq1).
  destruct (Hf _ _ _ _ H2) as (Hp' & e2 & He2 & Hq2).
  split; [congruence|]. exists (e1 ++ e2). split.
  - rewrite He2, He1. by rewrite app_assoc.
  - intros q [?|?]%elem_of_app; [by apply (Hq1 q) | by apply (Hq2 q)].
Qed.

Lemma quiet_ret {A} (a : A) : quiet (mret a).
Proof.
  intros s a' s' [= _ <-]. split; [done|]. exists []. split; [by rewrite app_nil_r|].
  by intros q ?%elem_of_nil.
Qed.

Lemma quiet_skip : quiet skip.
Proof. apply quiet_ret. Qed.

Lemma quiet_tick : quiet tick.
Proof.
  intros s a s' [= _ <-]. split; [done|]. exists []. split; [by rewrite app_nil_r|].
  by intros q ?%elem_of_nil.
Qed.

Lemma quiet_getCluster : quiet getCluster.
Proof.
  intros s a s' [= _ <-]. split; [done|]. exists []. split; [by rewrite app_nil_r|].
  by intros q ?%elem_of_nil.
Qed.

Lemma quiet_panic {A} why : quiet (@panic A why).
Proof. by intros s a s'. Qed.

Lemma quiet_emit e : (forall q, e <> EvEmpty q) -> quiet (emit e).
Proof.
  intros He s a s' [= _ <-]. split; [done|]. exists [e]. split; [done|].
  intros q Hq%list_elem_of_singleton. exact (He q (eq_sym Hq)).
Qed.

Lemma quiet_setSlot i addr : quiet (setSlot i addr).
Proof.
  unfold setSlot. destruct (_ && _); [|apply quiet_panic].
  intros s a s' [= _ <-]. split; [done|]. exists []. split; [by rewrite app_nil_r|].
  by intros q ?%elem_of_nil.
Qed.

Create HintDb quiet.

#[local] Hint Resolve quiet_ret quiet_skip quiet_tick quiet_getCluster
  quiet_panic quiet_setSlot : quiet.

Ltac quiet_step :=
  match goal with
  | |- quiet (_ ≫= _) => apply quiet_bind; [|intros ?]
  | |- quiet (emit _) => apply quiet_emit; intros ?; discriminate
  | |- quiet (match ?x with _ => _ end) => destruct x
  | |- quiet (if ?x then _ else _) => destruct x
  | |- quiet _ => solve [auto with quiet]
  end.

Lemma quiet_setRange n : forall i addr, quiet (setRange n i addr).
Proof.
  induction n as [|n IH]; intros i addr; cbn [setRange]; repeat quiet_step.
Qed.

Lemma quiet_rangeOver w {A} (m : gmap string A) : quiet (rangeOver w m).
Proof. unfold rangeOver. repeat quiet_step. Qed.

Lemma quiet_newPool w addr : quiet (newPool w addr).
Proof. unfold newPool. repeat quiet_step. Qed.

Lemma quiet_Pool_Get w p : quiet (Pool_Get w p).
Proof. unfold Pool_Get. repeat quiet_step. Qed.

Lemma quiet_Client_Cmd w c cmd args : quiet (Client_Cmd w c cmd args).
Proof. unfold Client_Cmd. repeat quiet_step. Qed.

#[local] Hint Resolve quiet_setRange quiet_rangeOver quiet_newPool
  quiet_Pool_Get quiet_Client_Cmd : quiet.

Lemma quiet_getRandomPoolInner w : quiet (getRandomPoolInner w).
Proof. unfold getRandomPoolInner. repeat quiet_step. Qed.

Lemma quiet_slotLoop w src elems : forall acc, quiet (slotLoop w src elems acc).
Proof.
  induction elems as [|g rest IH]; intros acc; cbn [slotLoop].
  - auto with quiet.
  - destruct (parseGroup g) as [[[[start end_] ip] port]| |]; auto with quiet.
    repeat quiet_step; try apply IH.
Qed.

#[local] Hint Resolve quiet_getRandomPoolInner quiet_slotLoop : quiet.

Lemma rebuild_failure_quiet w p client s e s' :
  rebuild w p client s = Ret (Some e) s' ->
  pools (cl s') = pools (cl s) /\
  exists evs, trace s' = trace s ++ evs /\ forall q, EvEmpty q ∉ evs.
Proof.
  unfold rebuild. intros H.
  apply bind_inv in H as (r & s1 & Hr & H).
  pose proof (quiet_Client_Cmd _ _ _ _ _ _ _ Hr) as Hq1.
  destruct (Array r) as [err|elems]; [by injection H as _ <-|].
  destruct elems as [|g rest]; [by injection H as _ <-|].
  apply bind_inv in H as (lp & s2 & Hloop & H).
  pose proof (quiet_slotLoop _ _ _ _ _ _ _ Hloop) as Hq2.
  destruct lp as [err|[new changed]].
  - injection H as _ <-.
    destruct Hq1 as (P1 & e1 & T1 & Q1). destruct Hq2 as (P2 & e2 & T2 & Q2).
    split; [congruence|]. exists (e1 ++ e2). split.
    + by rewrite T2, T1, app_assoc.
    + intros q [?|?]%elem_of_app; [by apply (Q1 q) | by apply (Q2 q)].
  - apply bind_inv in H as (c & s3 & _ & H).
    apply bind_inv in H as (old & s4 & _ & H).
    apply bind_inv in H as (ch & s5 & _ & H).
    apply bind_inv in H as (c5 & s6 & _ & H).
    apply bind_inv in H as (u & s7 & _ & H).
    apply bind_inv in H as (u' & s8 & _ & H). done.
Qed.

(** X14: a Reset that reports an error leaves the registry exactly as
    it was and has emptied no pool. It fails with "no available nodes to
    call CLUSTER SLOTS on" when it is not throttled and the registry is
    empty. *)
Theorem resetInner_failure_keeps_registry w s e s' :
  resetInner w s = Ret (Some e) s' ->
  pools (cl s') = pools (cl s) /\
  (exists evs, trace s' = trace s ++ evs /\ forall q, EvEmpty q ∉ evs) /\
  (pools (cl s) = ∅ ->
   e = "no available nodes to call CLUSTER SLOTS on"%string).
Proof.
  unfold resetInner. intros H.
  apply bind_inv in H as (c & s0 & [= <- <-] & H).
  apply bind_inv in H as (proceed & s1 & Hthr & H).
  assert (Hs1 : pools (cl s1) = pools (cl s) /\ trace s1 = trace s).
  { destruct (resetThrottle (cl s)) as [period|].
    - by injection Hthr as _ <-.
    - destruct (ResetThrottle (o (cl s)) <=? 0); [done|].
      by injection Hthr as _ <-. }
  destruct Hs1 as [Hp1 Ht1].
  destruct proceed; cbn [negb] in H; [|done].
  apply bind_inv in H as (rp & s2 & Hrp & H).
  destruct (getRandomPoolInner_spec w s1) as (rp' & s2' & Hsp & Hcl2 & Ht2 & Hnone & Hsome).
  rewrite Hsp in Hrp. injection Hrp as -> ->.
  destruct rp as [p|].
  2:{ injection H as <- <-. split; [congruence|]. split; [|done].
      exists []. split; [by rewrite app_nil_r; congruence|].
      by intros q ?%elem_of_nil. }
  assert (Hne : pools (cl s) <> ∅).
  { intros Hempty. rewrite <- Hp1 in Hempty. by apply Hnone in Hempty. }
  apply bind_inv in H as (g & s3 & Hg & H).
  pose proof (quiet_Pool_Get _ _ _ _ _ Hg) as (P3 & e3 & T3 & Q3).
  destruct g as [err|client].
  { injection H as <- <-. split; [congruence|]. split; [|done].
    exists e3. split; [congruence|done]. }
  apply bind_inv in H as (res & s4 & Hreb & H).
  apply bind_inv in H as (u & s5 & [= _ <-] & [= -> <-]).
  apply rebuild_failure_quiet in Hreb as (P4 & e4 & T4 & Q4).
  cbn [cl trace]. split; [congruence|]. split; [|done].
  exists (e3 ++ e4 ++ [EvClose client]). split.
  - rewrite T4, T3, Ht2, Ht1. by rewrite <- !app_assoc.
  - intros q [?|[?|?%list_elem_of_singleton]%elem_of_app]%elem_of_app;
      [by apply (Q3 q) | by apply (Q4 q) | done].
Qed.

(** The theorem above when the node answers CLUSTER SLOTS with an empty
    array. *)
Lemma resetInner_failure_keeps_registry_witness :
  let w := Scenario.worldOf (fun _ _ => RespArr []) in
  let s' := mkSt (cl Scenario.onlyA) 5
              [EvGet (mkPool 0 Scenario.A) (mkClient 3 Scenario.A);
               EvCmd (mkClient 3 Scenario.A) "CLUSTER" [AStr "SLOTS"];
               EvClose (mkClient 3 Scenario.A)] in
  pools (cl s') = pools (cl Scenario.onlyA).
Proof.
  intros w s'.
  refine (proj1 (resetInner_failure_keeps_registry w Scenario.onlyA
                   "empty CLUSTER SLOTS response" s' _)).
  vm_compute. reflexivity.
Defined.

(** [setRange] for [n] indices from [i]: it writes exactly these slots
    when all of them are indices of the slot map, and panics when one of
    them is not. *)
Lemma setRange_run n : forall i addr s,
  ((n = O \/ (0 <= i /\ i + Z.of_nat n <= numSlots)) ->
   exists s',
     setRange n i addr s = Ret tt s' /\
     pools (cl s') = pools (cl s) /\ o (cl s') = o (cl s) /\
     resetThrottle (cl s') = resetThrottle (cl s) /\
     clock s' = clock s /\ trace s' = trace s /\
     forall j, slotAt (mapping (cl s')) j
               = if (i <=? j) && (j <? i + Z.of_nat n) then addr
                 else slotAt (mapping (cl s)) j) /\
  (n <> O -> i < 0 \/ numSlots < i + Z.of_nat n ->
   setRange n i addr s = Panic "index out of range").
Proof.
  induction n as [|n IH]; intros i addr s.
  - split; [|done]. intros _. exists s. cbn [setRange]. split; [done|].
    repeat split; try done. intros j.
    destruct (Z.leb_spec i j); destruct (Z.ltb_spec j (i + Z.of_nat 0)); cbn; try done; lia.
  - cbn [setRange]. unfold setSlot at 1. split.
    + intros [Hn|[Hi Hlen]]; [done|].
      destruct (Z.leb_spec 0 i); [|lia].
      destruct (Z.ltb_spec i numSlots); [|lia]. cbn [andb].
      unfold mbind at 1, M_bind at 1. unfold mbind at 1, M_bind at 1.
      cbn [getCluster setCluster].
      set (s1 := mkSt _ _ _).
      destruct (IH (i + 1) addr s1) as [Hok _].
      destruct Hok as (s' & Hrun & Hp & Ho & Hr & Hc & Ht & Hm).
      { destruct n; [by left|]. right. lia. }
      exists s'. split; [done|]. repeat split; try done.
      intros j. rewrite Hm. subst s1. cbn [cl mapping set_mapping]. unfold slotAt.
      destruct (Z.leb_spec (i + 1) j); destruct (Z.ltb_spec j (i + 1 + Z.of_nat n));
        destruct (Z.leb_spec i j); destruct (Z.ltb_spec j (i + Z.of_nat (S n)));
        cbn [andb]; try done; try lia;
        (destruct (decide (j = i)) as [->|Hne];
         [rewrite lookup_insert_eq; try done; lia
         |rewrite lookup_insert_ne by done; try done; lia]).
    + intros _ Hbad. unfold setSlot.
      destruct (Z.leb_spec 0 i); [|done].
      destruct (Z.ltb_spec i numSlots); [|done]. cbn [andb].
      unfold mbind at 1, M_bind at 1. unfold mbind at 1, M_bind at 1.
      cbn [getCluster setCluster].
      set (s1 := mkSt _ _ _).
      destruct (IH (i + 1) addr s1) as [_ Hpanic].
      rewrite Hpanic; [done| |lia].
      destruct n; [|done]. cbn in Hbad. lia.
Qed.

(** X15: the loop [for i := start; i <= end; i++ { c.mapping[i] =
    slotAddr }] of a slot group. With [end < start] it does nothing;
    with [0 <= start <= end < 16384] it maps the slots [start..end] to
    the address and leaves every other slot, the registry and the
    trace alone; with [start <= end] and a bound outside the slot map
    it panics. *)
Theorem setRange_loop start end_ addr s :
  let run := setRange (Z.to_nat (end_ - start + 1)) start addr s in
  (end_ < start -> run = Ret tt s) /\
  (0 <= start -> start <= end_ -> end_ < numSlots ->
   exists s',
     run = Ret tt s' /\
     pools (cl s') = pools (cl s) /\ trace s' = trace s /\
     forall j, slotAt (mapping (cl s')) j
               = if (start <=? j) && (j <=? end_) then addr
                 else slotAt (mapping (cl s)) j) /\
  (start <= end_ -> start < 0 \/ numSlots <= end_ ->
   run = Panic "index out of range").
Proof.
  intros run. subst run. split; [|split].
  - intros Hlt. replace (Z.to_nat (end_ - start + 1)) with O by lia. done.
  - intros H0 Hle Hlt.
    destruct (setRange_run (Z.to_nat (end_ - start + 1)) start addr s) as [Hok _].
    destruct Hok as (s' & Hrun & Hp & _ & _ & _ & Ht & Hm); [right; lia|].
    exists s'. split; [done|]. split; [done|]. split; [done|].
    intros j. rewrite Hm.
    destruct (Z.leb_spec start j); destruct (Z.leb_spec j end_);
      destruct (Z.ltb_spec j (start + Z.of_nat (Z.to_nat (end_ - start + 1))));
      cbn [andb]; try done; lia.
  - intros Hle Hbad.
    destruct (setRange_run (Z.to_nat (end_ - start + 1)) start addr s) as [_ Hpanic].
    apply Hpanic; lia.
Qed.

(** The theorem above for the slots 5 to 7 and for a group that ends
    at slot 16384. *)
Lemma setRange_loop_witness :
  (exists s',
     setRange (Z.to_nat (7 - 5 + 1)) 5 Scenario.B Scenario.onlyA = Ret tt s' /\
     slotAt (mapping (cl s')) 6 = Scenario.B /\
     slotAt (mapping (cl s')) 8 = EmptyString) /\
  setRange (Z.to_nat (16384 - 16380 + 1)) 16380 Scenario.B Scenario.onlyA
    = Panic "index out of range".
Proof.
  split.
  - destruct (proj1 (proj2 (setRange_loop 5 7 Scenario.B Scenario.onlyA)))
      as (s' & Hrun & _ & _ & Hm); [lia|lia|unfold numSlots; lia|].
    exists s'. split; [exact Hrun|]. by rewrite !Hm.
  - apply (proj2 (proj2 (setRange_loop 16380 16384 Scenario.B Scenario.onlyA)));
      [lia|right; unfold numSlots; lia].
Defined.

Lemma setRange_inv n i addr s u s' :
  setRange n i addr s = Ret u s' ->
  (pools (cl s') = pools (cl s) /\ o (cl s') = o (cl s) /\
   resetThrottle (cl s') = resetThrottle (cl s)) /\
  (forall j, (i <=? j) && (j <? i + Z.of_nat n) = true -> 0 <= j < numSlots) /\
  forall j, slotAt (mapping (cl s')) j
            = if (i <=? j) && (j <? i + Z.of_nat n) then addr
              else slotAt (mapping (cl s)) j.
Proof.
  intros H. destruct (setRange_run n i addr s) as [Hok Hbad].
  destruct (decide (n = O)) as [->|Hn].
  - destruct Hok as (s2 & Hrun & Hp & Ho & Hr & _ & _ & Hm); [by left|].
    rewrite Hrun in H. injection H as _ <-. split; [done|]. split; [|done].
    intros j Hj. apply andb_true_iff in Hj as [?%Z.leb_le ?%Z.ltb_lt]. lia.
  - destruct (decide (0 <= i /\ i + Z.of_nat n <= numSlots)) as [Hr|Hr].
    + destruct Hok as (s2 & Hrun & Hp & Ho & Hrt & _ & _ & Hm); [by right|].
      rewrite Hrun in H. injection H as _ <-. split; [done|]. split; [|done].
      intros j Hj. apply andb_true_iff in Hj as [?%Z.leb_le ?%Z.ltb_lt]. lia.
    + rewrite Hbad in H; [done|done|lia].
Qed.

Lemma dropStale_keeps old new : forall changed, keeps (dropStale old new changed).
Proof.
  induction old as [|[a p] rest IH]; intros changed; cbn [dropStale].
  - apply keeps_ret.
  - destruct (new !! a); [apply IH|].
    apply keeps_bind; [apply keeps_emit | intros _; apply IH].
Qed.

Lemma slotLoop_mapping w src elems : forall acc s new changed s',
  slotLoop w src elems acc s = Ret (inr (new, changed)) s' ->
  forall j,
    if existsb (fun g => covers g j) elems
    then slotAt (mapping (cl s')) j ∈ masterAddrs (Addr src) elems /\
         0 <= j < numSlots
    else slotAt (mapping (cl s')) j = slotAt (mapping (cl s)) j.
Proof.
  induction elems as [|g rest IH]; intros acc s new changed s' H j.
  - by injection H as _ <-.
  - cbn [slotLoop] in H. cbn [existsb]. unfold covers at 1.
    unfold masterAddrs. cbn [flat_map]. fold (masterAddrs (Addr src) rest).
    destruct (parseGroup g) as [[[[start end_] ip] port]| |]; [|done|done].
    apply bind_inv in H as (u & s1 & Hset & H).
    apply setRange_inv in Hset as (_ & Hrange & Hset).
    apply bind_inv in H as (c & s2 & [= <- <-] & H).
    assert (Hrest : exists s3, cl s3 = cl s1 /\
              exists acc', slotLoop w src rest acc' s3 = Ret (inr (new, changed)) s').
    { destruct (pools (cl s1) !! slotAddrOf (Addr src) ip port) as [sp|].
      - exists s1. split; [done|]. eauto.
      - apply bind_inv in H as ([sp err] & s3 & Hnp & H).
        destruct err as [e|]; [done|].
        exists s3. split; [by apply keeps_newPool in Hnp|]. eauto. }
    destruct Hrest as (s3 & Hcl3 & acc' & Hloop).
    specialize (IH _ _ _ _ _ Hloop j).
    assert (Hcov : (start <=? j) && (j <=? end_)
                   = (start <=? j) && (j <? start + Z.of_nat (Z.to_nat (end_ - start + 1)))).
    { destruct (Z.leb_spec start j); destruct (Z.leb_spec j end_);
        destruct (Z.ltb_spec j (start + Z.of_nat (Z.to_nat (end_ - start + 1))));
        cbn [andb]; try done; lia. }
    destruct (existsb (fun g0 => covers g0 j) rest).
    + rewrite orb_true_r. destruct IH as [Hin Hb]. split; [|done].
      cbn [app]. by right.
    + rewrite orb_false_r. rewrite IH, Hcl3, Hset, <- Hcov.
      destruct ((start <=? j) && (j <=? end_)) eqn:E.
      * split; [cbn [app]; by left|]. apply Hrange. by rewrite <- Hcov.
      * done.
Qed.

(** X16: after a Reset that ran and succeeded, every slot that lies in
    the range of some group of the CLUSTER SLOTS reply is a slot of the
    slot map and maps to an address for which the new registry holds a
    pool; every other slot maps to what it mapped to before. The reply
    is the one to the command this Reset sent, on the connection it
    borrowed from the pool the range over the registry gave first. *)
Theorem resetInner_slots w s s' :
  resetInner w s = Ret None s' ->
  resetThrottle (cl s) = None \/ ticked w (clock s) = true ->
  let t0 := match resetThrottle (cl s) with
            | Some _ => S (clock s)
            | None => clock s
            end in
  exists a p elems evs,
    let client := mkClient (S t0) (Addr p) in
    head (shuffle (order w t0) (map_to_list (pools (cl s)))) = Some (a, p) /\
    reply w (S (S t0)) (Addr p) "CLUSTER" [AStr "SLOTS"] = RespArr elems /\
    trace s' = trace s ++ EvGet p client
                          :: EvCmd client "CLUSTER" [AStr "SLOTS"]
                          :: evs ++ [EvClose client] /\
    forall j,
      if existsb (fun g => covers g j) elems
      then slotAt (mapping (cl s')) j ∈ dom (pools (cl s')) /\ 0 <= j < numSlots
      else slotAt (mapping (cl s')) j = slotAt (mapping (cl s)) j.
Proof.
  intros H Hgo t0.
  destruct (resetInner_run w s s' H Hgo)
    as (a & p & s3 & s4 & Hhead & Hap & _ & Hc3 & Ht3 & Hp3 & Hm3 & _ & Hreb & Hcl & Htr).
  fold t0 in Hhead, Hc3, Ht3, Hreb, Htr.
  set (client := mkClient (S t0) (Addr p)) in *.
  pose proof Hreb as Hreg.
  apply rebuild_registry in Hreg as (elems & evs & Hreply & _ & Hdom & Ht4 & _).
  rewrite Hc3 in Hreply. cbn [cAddr client] in Hreply.
  exists a, p, elems, evs. cbn zeta. fold client.
  split; [done|]. split; [done|]. split.
  { rewrite Htr, Ht4, Ht3. by rewrite <- !app_assoc. }
  rewrite Hcl.
  unfold rebuild in Hreb.
  apply bind_inv in Hreb as (r & t1 & Hr & Hreb).
  assert (r = RespArr elems) as ->.
  { injection Hr as <- _. by rewrite Hc3. }
  apply keeps_Client_Cmd in Hr as Hk1.
  cbn [Array] in Hreb. destruct elems as [|g0 rest]; [by injection Hreb|].
  apply bind_inv in Hreb as (lp & t2 & Hloop & Hreb).
  destruct lp as [e|[new changed]]; [by injection Hreb|].
  pose proof (slotLoop_mapping _ _ _ _ _ _ _ _ Hloop) as Hmap.
  apply bind_inv in Hreb as (c3 & t3 & [= <- <-] & Hreb).
  apply bind_inv in Hreb as (old & t4 & Hold & Hreb).
  apply keeps_rangeOver in Hold as Hk4.
  apply bind_inv in Hreb as (ch & t5 & Hdrop & Hreb).
  apply dropStale_keeps in Hdrop as Hk5.
  apply bind_inv in Hreb as (c5 & t6 & [= <- <-] & Hreb).
  apply bind_inv in Hreb as (u1 & t7 & [= _ <-] & Hreb).
  assert (Hfin : mapping (cl s4) = mapping (cl t2)).
  { destruct ch.
    - apply bind_inv in Hreb as (u' & t8 & [= _ <-] & Hreb). injection Hreb as <-.
      cbn. by rewrite Hk5, Hk4.
    - apply bind_inv in Hreb as (u' & t8 & [= _ <-] & Hreb). injection Hreb as <-.
      cbn. by rewrite Hk5, Hk4. }
  intros j. specialize (Hmap j). rewrite Hfin.
  destruct (existsb (fun g => covers g j) (g0 :: rest)).
  - destruct Hmap as [Hin Hb]. split; [|done].
    rewrite Hdom. apply elem_of_union. right. by apply elem_of_list_to_set.
  - rewrite Hmap, Hk1. by rewrite Hm3.
Qed.

(** The theorem above for the replica seed. *)
Lemma resetInner_slots_witness :
  exists s' a p elems evs,
    resetInner Scenario.replicaSeed Scenario.onlyA = Ret None s' /\
    head (shuffle (order Scenario.replicaSeed 2)
                  (map_to_list (pools (cl Scenario.onlyA)))) = Some (a, p) /\
    reply Scenario.replicaSeed 4 (Addr p) "CLUSTER" [AStr "SLOTS"] = RespArr elems /\
    trace s' = trace Scenario.onlyA
               ++ EvGet p (mkClient 3 (Addr p))
                  :: EvCmd (mkClient 3 (Addr p)) "CLUSTER" [AStr "SLOTS"]
                  :: evs ++ [EvClose (mkClient 3 (Addr p))] /\
    forall j,
      if existsb (fun g => covers g j) elems
      then slotAt (mapping (cl s')) j ∈ dom (pools (cl s')) /\ 0 <= j < numSlots
      else slotAt (mapping (cl s')) j = slotAt (mapping (cl Scenario.onlyA)) j.
Proof.
  eexists.
  assert (Hrun : resetInner Scenario.replicaSeed Scenario.onlyA
                 = Ret None ?[s']) by (vm_compute; reflexivity).
  destruct (resetInner_slots Scenario.replicaSeed Scenario.onlyA _ Hrun
              (or_intror eq_refl)) as (a & p & elems & evs & H).
  exists a, p, elems, evs. split; [exact Hrun|]. exact H.
Defined.

(** * Connections borrowed and handed back *)

Lemma givenBack_app_l c l1 l2 : givenBack c l1 -> givenBack c (l1 ++ l2).
Proof.
  intros [H|[q H]]; [left|right; exists q]; apply elem_of_app; by left.
Qed.

Lemma givenBack_app_r c l1 l2 : givenBack c l2 -> givenBack c (l1 ++ l2).
Proof.
  intros [H|[q H]]; [left|right; exists q]; apply elem_of_app; by right.
Qed.

Lemma settledBut_app (P Q : Client -> Prop) l1 : forall l2,
  settledBut P l1 -> (forall c, P c -> givenBack c l2 \/ Q c) ->
  settledBut Q l2 -> settledBut Q (l1 ++ l2).
Proof.
  induction l1 as [|e l1 IH]; intros l2 H1 HP H2; [done|].
  destruct e; cbn in *; try by apply IH.
  destruct H1 as [Hc H1]. split; [|by apply IH].
  destruct Hc as [Hc|Hc]; [left; by apply givenBack_app_l|].
  destruct (HP _ Hc); [left; by apply givenBack_app_r|by right].
Qed.

Lemma settledBut_split (P : Client -> Prop) l1 : forall p c l2,
  settledBut P (l1 ++ EvGet p c :: l2) -> givenBack c l2 \/ P c.
Proof.
  induction l1 as [|e l1 IH]; intros p c l2 H.
  - by destruct H.
  - destruct e; cbn in H; try by apply (IH p).
    destruct H as [_ H]. by apply (IH p).
Qed.

Lemma owes_bind_open {A B} (P : A -> Client -> Prop) (Q : B -> Client -> Prop)
    (m : M A) (f : A -> M B) :
  owes P m ->
  (forall a s1 b s2, f a s1 = Ret b s2 ->
     exists evs, trace s2 = trace s1 ++ evs /\ settledBut (Q b) evs /\
                 forall c, P a c -> givenBack c evs \/ Q b c) ->
  owes Q (m ≫= f).
Proof.
  intros Hm Hf s b s2 H. apply bind_inv in H as (a & s1 & H1 & H2).
  destruct (Hm _ _ _ H1) as (e1 & He1 & Hs1).
  destruct (Hf _ _ _ _ H2) as (e2 & He2 & Hs2 & Hopen).
  exists (e1 ++ e2). split; [by rewrite He2, He1, app_assoc|].
  by apply (settledBut_app (P a)).
Qed.

Lemma owes_bind {A B} (Q : B -> Client -> Prop) (m : M A) (f : A -> M B) :
  owes (fun _ _ => False) m -> (forall a, owes Q (f a)) -> owes Q (m ≫= f).
Proof.
  intros Hm Hf. apply (owes_bind_open (fun _ _ => False)); [done|].
  intros a s1 b s2 H. destruct (Hf _ _ _ _ H) as (evs & He & Hs).
  exists evs. split; [done|]. split; [done|]. by intros c [].
Qed.

(** A step that adds no event hands the open connections on. *)
Lemma owes_bind_pure {A B} (P : A -> Client -> Prop) (Q : B -> Client -> Prop)
    (m : M A) (f : A -> M B) :
  owes P m ->
  (forall a s, exists b, f a s = Ret b s /\ forall c, P a c -> Q b c) ->
  owes Q (m ≫= f).
Proof.
  intros Hm Hf. apply (owes_bind_open P); [done|].
  intros a s1 b s2 H. destruct (Hf a s1) as (b' & Hb & Hopen).
  rewrite Hb in H. injection H as <- <-.
  exists []. split; [by rewrite app_nil_r|]. split; [done|]. intros c Hc. right. auto.
Qed.

Lemma owes_ret {A} (Q : A -> Client -> Prop) (a : A) : owes Q (mret a).
Proof. intros s a' s' [= _ <-]. exists []. by rewrite app_nil_r. Qed.

Lemma owes_skip (Q : unit -> Client -> Prop) : owes Q skip.
Proof. apply owes_ret. Qed.

Lemma owes_tick (Q : nat -> Client -> Prop) : owes Q tick.
Proof. intros s a s' [= _ <-]. exists []. by rewrite app_nil_r. Qed.

Lemma owes_getCluster (Q : Cluster -> Client -> Prop) : owes Q getCluster.
Proof. intros s a s' [= _ <-]. exists []. by rewrite app_nil_r. Qed.

Lemma owes_setCluster (Q : unit -> Client -> Prop) c : owes Q (setCluster c).
Proof. intros s a s' [= _ <-]. exists []. by rewrite app_nil_r. Qed.

Lemma owes_panic {A} (Q : A -> Client -> Prop) why : owes Q (@panic A why).
Proof. by intros s a s'. Qed.

Lemma owes_emit (Q : unit -> Client -> Prop) e :
  (forall p c, e <> EvGet p c) -> owes Q (emit e).
Proof.
  intros He s a s' [= _ <-]. exists [e]. split; [done|].
  destruct e; cbn; try done. by destruct (He p c).
Qed.

Lemma owes_setSlot (Q : unit -> Client -> Prop) i addr : owes Q (setSlot i addr).
Proof.
  unfold setSlot. destruct (_ && _); [|apply owes_panic].
  intros s a s' [= _ <-]. exists []. by rewrite app_nil_r.
Qed.

Create HintDb owes.

#[local] Hint Resolve owes_ret owes_skip owes_tick owes_getCluster
  owes_setCluster owes_panic owes_setSlot : owes.

Ltac owes_step :=
  match goal with
  | |- owes _ (_ ≫= _) => apply owes_bind; [|intros ?]
  | |- owes _ (emit _) => apply owes_emit; intros ? ?; discriminate
  | |- owes _ (match ?x with _ => _ end) => destruct x
  | |- owes _ (if ?x then _ else _) => destruct x
  | |- owes _ _ => solve [auto with owes]
  end.

Lemma owes_setRange (Q : unit -> Client -> Prop) n :
  forall i addr, owes Q (setRange n i addr).
Proof.
  induction n as [|n IH]; intros i addr; cbn [setRange]; repeat owes_step.
Qed.

Lemma owes_rangeOver w {A} (Q : list (string * A) -> Client -> Prop)
    (m : gmap string A) : owes Q (rangeOver w m).
Proof. unfold rangeOver. repeat owes_step. Qed.

Lemma owes_newPool w (Q : Pool * option string -> Client -> Prop) addr :
  owes Q (newPool w addr).
Proof. unfold newPool. repeat owes_step. Qed.

Lemma owes_Client_Cmd w (Q : Resp -> Client -> Prop) c cmd args :
  owes Q (Client_Cmd w c cmd args).
Proof. unfold Client_Cmd. repeat owes_step. Qed.

#[local] Hint Resolve owes_setRange owes_rangeOver owes_newPool
  owes_Client_Cmd : owes.

Lemma owes_addrForKeyInner w (Q : string -> Client -> Prop) key :
  owes Q (addrForKeyInner w key).
Proof. unfold addrForKeyInner. repeat owes_step. Qed.

Lemma owes_getRandomPoolInner w (Q : option Pool -> Client -> Prop) :
  owes Q (getRandomPoolInner w).
Proof. unfold getRandomPoolInner. repeat owes_step. Qed.

Lemma owes_issue w (Q : Resp -> Client -> Prop) c cmd args ask :
  owes Q (issue w c cmd args ask).
Proof. unfold issue. repeat owes_step. Qed.

Lemma owes_slotLoop w (Q : string + (gmap string Pool * bool) -> Client -> Prop)
    src elems : forall acc, owes Q (slotLoop w src elems acc).
Proof.
  induction elems as [|g rest IH]; intros acc; cbn [slotLoop].
  - auto with owes.
  - destruct (parseGroup g) as [[[[start end_] ip] port]| |]; auto with owes.
    repeat owes_step; try apply IH.
Qed.

Lemma owes_dropStale (Q : bool -> Client -> Prop) old new :
  forall changed, owes Q (dropStale old new changed).
Proof.
  induction old as [|[a p] rest IH]; intros changed; cbn [dropStale].
  - auto with owes.
  - repeat owes_step; apply IH.
Qed.

#[local] Hint Resolve owes_addrForKeyInner owes_getRandomPoolInner owes_issue
  owes_slotLoop owes_dropStale : owes.

Lemma owes_rebuild w (Q : option string -> Client -> Prop) p client :
  owes Q (rebuild w p client).
Proof. unfold rebuild. repeat owes_step. Qed.

(** A [Get] leaves open the connection it returns. *)
Lemma owes_Pool_Get w p : owes (fun g c => g = inr c) (Pool_Get w p).
Proof.
  intros s g s' H. apply Pool_Get_inv in H as [_ H].
  destruct H as [(c & -> & _ & Htr)|(e & -> & Htr)].
  - exists [EvGet p c]. split; [done|]. cbn. split; [by right|done].
  - exists [EvGetFail p e]. by split.
Qed.

Lemma owes_Put (Q : unit -> Client -> Prop) conn : owes Q (Put conn).
Proof. unfold Put. repeat owes_step. Qed.

#[local] Hint Resolve owes_rebuild owes_Put : owes.

Lemma owes_getConn w key addr : owes (fun g c => g = inr c) (getConn w key addr).
Proof.
  unfold getConn.
  apply owes_bind; [destruct (decide _); auto with owes|intros addr0].
  apply owes_bind; [auto with owes|intros c].
  apply owes_bind; [destruct (pools c !! addr0); auto with owes|intros [p err]].
  apply (owes_bind_open (fun g c => g = inr c)).
  { destruct err; [apply owes_ret|apply owes_Pool_Get]. }
  intros [e|conn] s1 b s2 H.
  - assert (Hrest : owes (fun g c => g = inr c)
                      (rp ← getRandomPoolInner w;
                       match rp with
                       | None => mret (inl errNoPools)
                       | Some p => Pool_Get w p
                       end)).
    { apply owes_bind; [auto with owes|intros [q|]];
        [apply owes_Pool_Get|apply owes_ret]. }
    destruct (Hrest _ _ _ H) as (evs & He & Hs).
    exists evs. split; [done|]. split; [done|]. by intros c0.
  - injection H as <- <-. exists []. split; [by rewrite app_nil_r|].
    split; [done|]. intros c0 ->. by right.
Qed.

(** A Reset closes the connection it borrows. *)
Lemma owes_resetInner w (Q : option string -> Client -> Prop) :
  owes Q (resetInner w).
Proof.
  unfold resetInner.
  apply owes_bind; [auto with owes|intros c].
  apply owes_bind; [repeat owes_step|intros proceed].
  destruct (negb proceed); [auto with owes|].
  apply owes_bind; [auto with owes|intros [p|]]; [|auto with owes].
  apply (owes_bind_open (fun g c => g = inr c)); [apply owes_Pool_Get|].
  intros [e|client] s1 b s2 H.
  - injection H as <- <-. exists []. split; [by rewrite app_nil_r|].
    split; [done|]. by intros c0.
  - apply bind_inv in H as (res & s3 & Hreb & H).
    apply bind_inv in H as (u & s4 & [= _ <-] & [= <- <-]).
    destruct (owes_rebuild w (fun _ _ => False) _ _ _ _ _ Hreb) as (evs & He & Hs).
    exists (evs ++ [EvClose client]). cbn. split; [by rewrite He, app_assoc|].
    split.
    + apply (settledBut_app (fun _ => False)); [done|by intros c0 []|done].
    + intros c0 [= ->]. left. apply givenBack_app_r. left. by left.
Qed.

#[local] Hint Resolve owes_resetInner : owes.

Lemma owes_getConn_next w addr ask' tried' haveReset' (k : string -> Resp) :
  owes (fun nx c => match nx with
                    | Return _ => False
                    | Recurse c' _ _ _ => c = c'
                    end)
       (g ← getConn w "" addr;
        match g with
        | inl getErr => mret (Return (k getErr))
        | inr client => mret (Recurse client ask' tried' haveReset')
        end).
Proof.
  apply (owes_bind_pure (fun g c => g = inr c)); [apply owes_getConn|].
  intros [e|c0] s; eexists; (split; [reflexivity|]); cbn; [done|].
  by intros c1 [= ->].
Qed.

(** What an attempt does after the reply to its command: its events
    follow those of the command, and it leaves open at most the
    connection it goes on with. *)
Lemma attempt_tail w client cmd args ask tried haveReset s r s1 nx s' :
  issue w client cmd args ask s = Ret r s1 ->
  attempt w client cmd args ask tried haveReset s = Ret nx s' ->
  exists evs,
    trace s' = trace s1 ++ evs /\
    settledBut (fun c => match nx with
                         | Return _ => False
                         | Recurse c' _ _ _ => c = c'
                         end) evs.
Proof.
  intros Hissue H. unfold attempt in H.
  rewrite (bind_Ret _ _ _ _ _ Hissue) in H.
  match type of H with
  | ?m _ = _ =>
      assert (Hm : owes (fun nx c => match nx with
                                     | Return _ => False
                                     | Recurse c' _ _ _ => c = c'
                                     end) m)
  end; [|exact (Hm _ _ _ H)].
  clear H Hissue.
  destruct (Err r) as [err|]; [|apply owes_ret].
  destruct (IsIOErr r).
  - apply (owes_bind_open
             (fun again c => match again with
                             | Some (Recurse c' _ _ _) => c = c'
                             | _ => False
                             end)).
    + destruct (negb (haveTried tried (cAddr client))); [|apply owes_ret].
      apply (owes_bind_pure (fun g c => g = inr c)); [apply owes_getConn|].
      intros [e|c0] s0; eexists; (split; [reflexivity|]); cbn; [done|].
      by intros c1 [= ->].
    + intros [nx0|] s2 b s3 H.
      * injection H as <- <-. exists []. split; [by rewrite app_nil_r|].
        split; [done|]. intros c0 Hc. right. by destruct nx0.
      * match type of H with
        | ?m _ = _ =>
            assert (Hrest : owes (fun nx c => match nx with
                                               | Return _ => False
                                               | Recurse c' _ _ _ => c = c'
                                               end) m)
        end.
        { destruct (negb haveReset); [|apply owes_ret].
          apply owes_bind; [apply owes_resetInner|intros [e|]]; [apply owes_ret|].
          apply (owes_getConn_next _ _ _ _ _ errorResp). }
        destruct (Hrest _ _ _ H) as (evs & He & Hs).
        exists evs. split; [done|]. split; [done|]. by intros c0.
  - destruct (_ || _); [|apply owes_ret].
    destruct (redirectInfo err) as [[slot addr]|]; [|apply owes_panic].
    apply owes_bind; [repeat owes_step|intros _].
    destruct (haveTried _ addr).
    + destruct haveReset; [apply owes_ret|].
      apply owes_bind; [apply owes_resetInner|intros [e|]]; [apply owes_ret|].
      apply (owes_getConn_next _ _ _ _ _
               (fun getErr => errorResp ("No available cluster nodes: " +:+ getErr))).
    + apply owes_bind; [repeat owes_step|intros _].
      unfold retryAt. apply (owes_getConn_next _ _ _ _ _ errorResp).
Qed.

(** One attempt leaves open at most the connection it goes on with. *)
Lemma owes_attempt w client cmd args ask tried haveReset :
  owes (fun nx c => match nx with
                    | Return _ => False
                    | Recurse c' _ _ _ => c = c'
                    end)
       (attempt w client cmd args ask tried haveReset).
Proof.
  intros s nx s' H. pose proof H as H'. unfold attempt in H'.
  apply bind_inv in H' as (r & s1 & Hissue & _).
  destruct (owes_issue w (fun _ _ => False) _ _ _ _ _ _ _ Hissue) as (e1 & He1 & Hs1).
  destruct (attempt_tail _ _ _ _ _ _ _ _ _ _ _ _ Hissue H) as (e2 & He2 & Hs2).
  exists (e1 ++ e2). split; [by rewrite He2, He1, app_assoc|].
  by apply (settledBut_app (fun _ => False)); [|intros c []|].
Qed.

Lemma Put_gives_back conn s :
  exists e,
    Put conn s = Ret tt (mkSt (cl s) (clock s) (trace s ++ [e])) /\
    givenBack conn [e] /\ settledBut (fun _ => False) [e].
Proof.
  destruct (Put_inv conn s) as (e & He & [(p & _ & ->)|(_ & ->)]);
    eexists; (split; [exact He|]); (split; [|done]).
  - right. exists p. by left.
  - left. by left.
Qed.

(** [clientCmd] hands back the connection it is given and every
    connection it borrows on the way. *)
Lemma clientCmd_settles w fuel : forall client cmd args ask tried haveReset s r s',
  clientCmd w fuel client cmd args ask tried haveReset s = Ret r s' ->
  exists evs,
    trace s' = trace s ++ evs /\
    givenBack client evs /\
    settledBut (fun _ => False) evs.
Proof.
  induction fuel as [|fuel IH]; intros client cmd args ask tried haveReset s r s' H;
    [done|].
  cbn [clientCmd] in H.
  apply bind_inv in H as (nx & s1 & Hatt & H).
  apply bind_inv in H as (r0 & s2 & Hnx & H).
  apply bind_inv in H as (u & s3 & Hput & [= <- <-]).
  destruct (owes_attempt _ _ _ _ _ _ _ _ _ _ Hatt) as (e1 & He1 & Hs1).
  destruct (Put_gives_back client s2) as (ev & Hev & Hback & Hsev).
  rewrite Hev in Hput. injection Hput as _ <-. cbn [trace].
  destruct nx as [r1|c' ask' tried' haveReset'].
  - injection Hnx as <- <-.
    exists (e1 ++ [ev]). split; [by rewrite He1, app_assoc|]. split.
    + by apply givenBack_app_r.
    + by apply (settledBut_app (fun _ => False)); [|intros c []|].
  - destruct (IH _ _ _ _ _ _ _ _ _ Hnx) as (e2 & He2 & Hback2 & Hs2).
    exists (e1 ++ e2 ++ [ev]). split; [by rewrite He2, He1, <- !app_assoc|]. split.
    + by apply givenBack_app_r, givenBack_app_r.
    + apply (settledBut_app (fun c => c = c')); [done| |].
      * intros c ->. left. by apply givenBack_app_l.
      * by apply (settledBut_app (fun _ => False)); [|intros c []|].
Qed.

(** X17: a command that returns has handed back every connection it
    borrowed: each connection a [Get] gave out during [Cmd] is, later
    in the same call, put back into a pool or closed. (Contrast
    [GetEvery], which on failure keeps what it borrowed.) *)
Theorem Cmd_returns_connections w fuel cmd args s r s' :
  Cmd w fuel cmd args s = Ret r s' ->
  exists evs,
    trace s' = trace s ++ evs /\
    forall l1 p c l2, evs = l1 ++ EvGet p c :: l2 -> givenBack c l2.
Proof.
  intros H.
  assert (Hs : exists evs, trace s' = trace s ++ evs /\
                           settledBut (fun _ => False) evs).
  { unfold Cmd in H. destruct args as [|a rest].
    { injection H as _ <-. exists []. by rewrite app_nil_r. }
    destruct (KeyFromArgs [ASlice (a :: rest)]) as [[e|key]|]; [| |done].
    { injection H as _ <-. exists []. by rewrite app_nil_r. }
    apply bind_inv in H as (g & s1 & Hg & H).
    destruct (owes_getConn _ _ _ _ _ _ Hg) as (e1 & He1 & Hs1).
    destruct g as [e|client].
    - injection H as _ <-. exists e1. split; [done|].
      apply (settledBut_app _ (fun _ => False)) with (l2 := []) in Hs1;
        [by rewrite app_nil_r in Hs1|done|done].
    - apply clientCmd_settles in H as (e2 & He2 & Hback & Hs2).
      exists (e1 ++ e2). split; [by rewrite He2, He1, app_assoc|].
      apply (settledBut_app (fun c => inr client = (inr c : string + Client)));
        [done| |done].
      intros c [= <-]. by left. }
  destruct Hs as (evs & He & Hs). exists evs. split; [done|].
  intros l1 p c l2 ->. by destruct (settledBut_split _ _ _ _ _ Hs).
Qed.

(** The theorem above for a GET that is redirected from [A] to [B]:
    two connections are borrowed, both are handed back. *)
Lemma Cmd_returns_connections_witness :
  exists r s',
    Cmd (Scenario.redirecting "MOVED") 3 "GET" [AStr "k"] Scenario.onlyA = Ret r s' /\
    exists evs,
      trace s' = trace Scenario.onlyA ++ evs /\
      forall l1 p c l2, evs = l1 ++ EvGet p c :: l2 -> givenBack c l2.
Proof.
  eexists _, _. split; [vm_compute; reflexivity|].
  eapply (Cmd_returns_connections (Scenario.redirecting "MOVED") 3 "GET"
            [AStr "k"] Scenario.onlyA).
  vm_compute. reflexivity.
Defined.

(** * GetEvery and Close *)

Lemma getEach_ok w l : forall m s m' s',
  getEach w l m s = Ret (inr m') s' ->
  cl s' = cl s /\
  dom m' = dom m ∪ list_to_set l.*1 /\
  exists borrowed,
    trace s' = trace s ++ borrowedEvents borrowed /\
    length borrowed = length l /\
    forall addr c, m' !! addr = Some c ->
      m !! addr = Some c \/
      exists p, (addr, p) ∈ l /\ cAddr c = Addr p /\ (p, c) ∈ borrowed.
Proof.
  induction l as [|[addr p] rest IH]; intros m s m' s' H.
  - injection H as <- <-. split; [done|]. split.
    + cbn. by rewrite (right_id_L ∅ (∪)).
    + exists []. cbn. split; [by rewrite app_nil_r|]. split; [done|]. by left.
  - cbn [getEach] in H. apply bind_inv in H as (g & s1 & Hg & H).
    apply Pool_Get_inv in Hg as [Hcl Hg].
    destruct Hg as [(c & -> & Hc & Htr)|(e & -> & Htr)]; [|done].
    apply IH in H as (Hcl' & Hdom & borrowed & Htr' & Hlen & Hm).
    split; [congruence|]. split.
    + rewrite Hdom, dom_insert_L. cbn [fmap list_fmap fst list_to_set].
      by rewrite (assoc_L (∪)), (comm_L (∪) (dom m)), <- !(assoc_L (∪)).
    + exists ((p, c) :: borrowed). split; [|split].
      * rewrite Htr', Htr. cbn. by rewrite <- app_assoc.
      * cbn. by rewrite Hlen.
      * intros a c' Ha. destruct (Hm _ _ Ha) as [Hins|(q & Hq & Hcq & Hb)].
        -- destruct (decide (a = addr)) as [->|Hne].
           ++ rewrite lookup_insert_eq in Hins. injection Hins as <-.
              right. exists p. split; [by left|]. split; [done|by left].
           ++ rewrite lookup_insert_ne in Hins by done. by left.
        -- right. exists q. split; [by right|]. split; [done|by right].
Qed.

(** X18: when [GetEvery] succeeds the map it returns has exactly the
    addresses of the registry as keys, the client under an address was
    obtained by a [Get] on the pool the registry holds for it, the
    calls made are one [Get] per pool and nothing else, and the
    cluster is unchanged. *)
Theorem GetEvery_success w s m s' :
  GetEvery w s = Ret (inr m) s' ->
  cl s' = cl s /\
  dom m = dom (pools (cl s)) /\
  exists borrowed,
    trace s' = trace s ++ borrowedEvents borrowed /\
    length borrowed = size (pools (cl s)) /\
    forall addr c, m !! addr = Some c ->
      exists p, pools (cl s) !! addr = Some p /\ cAddr c = Addr p /\
                (p, c) ∈ borrowed.
Proof.
  unfold GetEvery. intros H.
  apply bind_inv in H as (c & s0 & [= <- <-] & H).
  apply bind_inv in H as (l & s1 & Hl & H).
  assert (Hlen : length l = size (pools (cl s))).
  { injection Hl as <- _.
    by rewrite (shuffle_Permutation (order w (clock s))), length_map_to_list. }
  apply rangeOver_inv in Hl as (Hcl & Htr & Hl).
  apply getEach_ok in H as (Hcl' & Hdom & borrowed & Htr' & Hlen' & Hm).
  split; [congruence|]. split.
  - rewrite Hdom, dom_empty_L, (left_id_L ∅ (∪)).
    apply set_eq. intros a. rewrite elem_of_list_to_set, elem_of_dom. split.
    + intros [[a' p] [-> Hin]]%list_elem_of_fmap. exists p. by apply Hl.
    + intros [p Hp]. apply list_elem_of_fmap. exists (a, p). split; [done|].
      by apply Hl.
  - exists borrowed. split; [congruence|]. split; [congruence|].
    intros a c0 Ha. destruct (Hm _ _ Ha) as [Hbad|(p & Hp & Hc & Hb)].
    + by rewrite lookup_empty in Hbad.
    + exists p. split; [by apply Hl|done].
Qed.

(** The theorem above for the registry [A], [B] when every [Get]
    succeeds. *)
Lemma GetEvery_success_witness :
  exists m s',
    GetEvery (Scenario.worldOf (fun _ _ => RespNil)) Scenario.both = Ret (inr m) s' /\
    cl s' = cl Scenario.both /\
    dom m = dom (pools (cl Scenario.both)) /\
    exists borrowed,
      trace s' = trace Scenario.both ++ borrowedEvents borrowed /\
      length borrowed = size (pools (cl Scenario.both)) /\
      forall addr c, m !! addr = Some c ->
        exists p, pools (cl Scenario.both) !! addr = Some p /\ cAddr c = Addr p /\
                  (p, c) ∈ borrowed.
Proof.
  eexists _, _. split; [vm_compute; reflexivity|].
  apply (GetEvery_success (Scenario.worldOf (fun _ _ => RespNil)) Scenario.both).
  vm_compute. reflexivity.
Defined.

Lemma closeEach_run l : forall s,
  exists s',
    closeEach l s = Ret tt s' /\
    o (cl s') = o (cl s) /\ mapping (cl s') = mapping (cl s) /\
    resetThrottle (cl s') = resetThrottle (cl s) /\
    trace s' = trace s ++ map EvEmpty l.*2 /\
    forall k, pools (cl s') !! k
              = if decide (k ∈ l.*1) then None else pools (cl s) !! k.
Proof.
  induction l as [|[addr p] rest IH]; intros s.
  - exists s. split; [done|]. cbn. rewrite app_nil_r. repeat split; done.
  - cbn [closeEach]. unfold mbind at 1, M_bind at 1. cbn [emit].
    unfold mbind at 1, M_bind at 1. cbn [getCluster cl].
    unfold mbind at 1, M_bind at 1. cbn [setCluster cl clock trace].
    set (s1 := mkSt _ _ _).
    destruct (IH s1) as (s' & Hrun & Ho & Hm & Hr & Ht & Hp).
    exists s'. split; [done|]. subst s1. cbn [cl trace o mapping resetThrottle set_pools pools] in *.
    split; [done|]. split; [done|]. split; [done|]. split.
    + rewrite Ht. cbn. by rewrite <- app_assoc.
    + intros k. rewrite Hp. cbn [fmap list_fmap fst].
      destruct (decide (k ∈ rest.*1)) as [Hin|Hnin].
      * rewrite decide_True; [done|by right].
      * destruct (decide (k = addr)) as [->|Hne].
        -- rewrite decide_True by (by left). apply lookup_delete_eq.
        -- rewrite decide_False.
           ++ by apply lookup_delete_ne.
           ++ intros [?|?]%elem_of_cons; done.
Qed.

(** X19: [Close] always returns; it calls [Empty] once on every pool of
    the registry and on nothing else, and leaves the registry empty.
    The slot map is not cleared: the slots keep the addresses they
    had. *)
Theorem Close_empties_registry w s :
  exists s' emptied,
    Close w s = Ret tt s' /\
    pools (cl s') = ∅ /\
    mapping (cl s') = mapping (cl s) /\
    trace s' = trace s ++ map EvEmpty emptied /\
    emptied ≡ₚ (map_to_list (pools (cl s))).*2.
Proof.
  unfold Close. unfold mbind at 1, M_bind at 1. cbn [getCluster].
  unfold mbind at 1, M_bind at 1.
  destruct (rangeOver w (pools (cl s)) s) as [l s1| |] eqn:E; try done.
  assert (Hperm : l ≡ₚ map_to_list (pools (cl s))).
  { injection E as <- _. apply shuffle_Permutation. }
  apply rangeOver_inv in E as (Hcl & Htr & Hl).
  destruct (closeEach_run l s1) as (s' & Hrun & _ & Hm & _ & Ht & Hp).
  exists s', l.*2. split; [done|]. split; [|split; [congruence|split]].
  - apply map_eq. intros k. rewrite Hp, lookup_empty.
    destruct (decide (k ∈ l.*1)) as [|Hnin]; [done|].
    rewrite Hcl. destruct (pools (cl s) !! k) as [p|] eqn:Ek; [|done].
    destruct Hnin. apply list_elem_of_fmap. exists (k, p). split; [done|].
    by apply Hl.
  - congruence.
  - by rewrite Hperm.
Qed.

(** * Keys that end in an opening brace *)

(** X20: a key whose first '{' is its last byte makes the key lookup
    panic on [key[start+2:]]: [GetAddrForKey], [GetForKey] and every
    [Cmd] with such a key as first argument panic, whatever the
    cluster. *)
Theorem trailing_brace_panics w pre s :
  index_of pre "{" = None ->
  GetAddrForKey w (pre +:+ "{") s = Panic "slice bounds out of range" /\
  GetForKey w (pre +:+ "{") s = Panic "slice bounds out of range" /\
  forall fuel cmd rest,
    Cmd w fuel cmd (AStr (pre +:+ "{") :: rest) s
      = Panic "slice bounds out of range".
Proof.
  intros Hpre.
  assert (Hne : pre +:+ "{" <> EmptyString).
  { destruct pre; [by rewrite append_nil_l|by rewrite append_cons]. }
  assert (Ha : addrForKeyInner w (pre +:+ "{") s = Panic "slice bounds out of range").
  { unfold addrForKeyInner. by rewrite (hashTag_trailing_brace pre Hpre). }
  assert (Hg : getConn w (pre +:+ "{") "" s = Panic "slice bounds out of range").
  { unfold getConn. destruct (decide (pre +:+ "{" = EmptyString)); [done|].
    unfold mbind at 1, M_bind at 1. by rewrite Ha. }
  split; [exact Ha|]. split; [exact Hg|].
  intros fuel cmd rest. unfold Cmd. cbn [KeyFromArgs keyOfArg].
  unfold mbind, M_bind. by rewrite Hg.
Qed.

(** The theorem above for the key "user:{". *)
Lemma trailing_brace_panics_witness :
  GetAddrForKey (Scenario.worldOf (fun _ _ => RespNil)) "user:{" Scenario.onlyA
    = Panic "slice bounds out of range" /\
  Cmd (Scenario.worldOf (fun _ _ => RespNil)) 3 "GET" [AStr "user:{"] Scenario.onlyA
    = Panic "slice bounds out of range".
Proof.
  destruct (trailing_brace_panics (Scenario.worldOf (fun _ _ => RespNil))
              "user:" Scenario.onlyA eq_refl) as (Ha & _ & Hc).
  split; [exact Ha|exact (Hc 3%nat "GET"%string [])].
Defined.

(** * Reading a redirection *)

Lemma Split_no_sep c s :
  index_of s (String c EmptyString) = None -> Split s c = [s].
Proof.
  induction s as [|a s IH]; intros H; [done|].
  apply index_of_byte_None_cons in H as [Hne H]. cbn [Split].
  apply Ascii.eqb_neq in Hne as ->. by rewrite (IH H).
Qed.

Lemma Split_sep c pre rest :
  index_of pre (String c EmptyString) = None ->
  Split (pre +:+ String c rest) c = pre :: Split rest c.
Proof.
  induction pre as [|a pre IH]; intros H.
  - rewrite append_nil_l. cbn [Split]. by rewrite Ascii.eqb_refl.
  - apply index_of_byte_None_cons in H as [Hne H].
    rewrite append_cons. cbn [Split].
    apply Ascii.eqb_neq in Hne as ->. by rewrite (IH H).
Qed.

Lemma redirectInfo_short kind slotStr :
  index_of kind " " = None -> index_of slotStr " " = None ->
  redirectInfo (kind +:+ " " +:+ slotStr) = None.
Proof.
  intros Hk Hs. unfold redirectInfo.
  change (kind +:+ " " +:+ slotStr) with (kind +:+ String " " slotStr).
  rewrite (Split_sep _ _ _ Hk), (Split_no_sep _ _ Hs).
  cbn [lookup list_lookup]. by destruct (Atoi slotStr).
Qed.

(** X21: [redirectInfo] reads the second and third of the fields the
    message has between single spaces: slot and address of
    "MOVED <slot> <addr>". It fails (a panic in the source) when the
    slot is not a number, and also when the message has fewer than
    three fields. *)
Theorem redirectInfo_fields kind slotStr addr :
  index_of kind " " = None -> index_of slotStr " " = None ->
  index_of addr " " = None ->
  redirectInfo (kind +:+ " " +:+ slotStr +:+ " " +:+ addr)
    = match Atoi slotStr with
      | Some slot => Some (slot, addr)
      | None => None
      end /\
  redirectInfo (kind +:+ " " +:+ slotStr) = None /\
  redirectInfo kind = None.
Proof.
  intros Hk Hs Ha. unfold redirectInfo. split; [|split].
  - change (kind +:+ " " +:+ slotStr +:+ " " +:+ addr)
      with (kind +:+ String " " (slotStr +:+ String " " addr)).
    rewrite (Split_sep _ _ _ Hk), (Split_sep _ _ _ Hs), (Split_no_sep _ _ Ha).
    cbn [lookup list_lookup]. by destruct (Atoi slotStr).
  - by apply redirectInfo_short.
  - by rewrite (Split_no_sep _ _ Hk).
Qed.

(** The theorem above for "MOVED 7629 10.0.0.2:6379". *)
Lemma redirectInfo_fields_witness :
  redirectInfo "MOVED 7629 10.0.0.2:6379" = Some (7629, Scenario.B) /\
  redirectInfo "MOVED 7629" = None.
Proof.
  destruct (redirectInfo_fields "MOVED" "7629" Scenario.B eq_refl eq_refl eq_refl)
    as (H1 & H2 & _).
  split; [exact H1|exact H2].
Defined.

Lemma HasPrefix_append pre s : HasPrefix (pre +:+ s) pre = true.
Proof.
  unfold HasPrefix. induction pre as [|a pre IH].
  - rewrite append_nil_l. by destruct s.
  - rewrite append_cons. cbn [String.prefix].
    by destruct (ascii_dec a a).
Qed.

(** X22: a MOVED or ASK error that names no address ("MOVED 7629")
    makes [clientCmd] panic instead of returning the reply of the
    server to the caller. *)
Theorem clientCmd_malformed_redirect w fuel client cmd args ask tried haveReset
    s s1 kind slotStr :
  issue w client cmd args ask s = Ret (RespErr false (kind +:+ " " +:+ slotStr)) s1 ->
  kind = "MOVED"%string \/ kind = "ASK"%string ->
  index_of slotStr " " = None ->
  clientCmd w (S fuel) client cmd args ask tried haveReset s = Panic "redirectInfo".
Proof.
  intros Hissue Hkind Hslot.
  assert (Hk : index_of kind " " = None) by (by destruct Hkind as [->| ->]).
  pose proof (redirectInfo_short kind slotStr Hk Hslot) as Hnone.
  cbn [clientCmd]. unfold mbind at 1, M_bind at 1.
  unfold attempt. unfold mbind at 1, M_bind at 1. rewrite Hissue.
  cbn [Err IsIOErr]. rewrite Hnone.
  destruct Hkind as [->| ->].
  - change ("MOVED" +:+ " " +:+ slotStr) with ("MOVED " +:+ slotStr).
    by rewrite HasPrefix_append.
  - change ("ASK" +:+ " " +:+ slotStr) with ("ASK " +:+ slotStr).
    rewrite (HasPrefix_append "ASK "). by rewrite orb_true_r.
Qed.

(** The theorem above when [A] answers GET with "MOVED 7629". *)
Lemma clientCmd_malformed_redirect_witness :
  clientCmd (Scenario.worldOf (fun _ _ => RespErr false "MOVED 7629")) 3
    Scenario.clientA "GET" [AStr "k"] false None false Scenario.onlyA
  = Panic "redirectInfo".
Proof.
  refine (clientCmd_malformed_redirect
            (Scenario.worldOf (fun _ _ => RespErr false "MOVED 7629")) 2
            Scenario.clientA "GET" [AStr "k"] false None false Scenario.onlyA
            (mkSt (cl Scenario.onlyA) 2 [EvCmd Scenario.clientA "GET" [AStr "k"]])
            "MOVED" "7629" _ (or_introl eq_refl) eq_refl).
  vm_compute. reflexivity.
Defined.

(** * NewWithOpts *)

Lemma slotLoop_opts w src elems : forall acc s r s',
  slotLoop w src elems acc s = Ret r s' ->
  o (cl s') = o (cl s) /\ resetThrottle (cl s') = resetThrottle (cl s).
Proof.
  induction elems as [|g rest IH]; intros acc s r s' H.
  - by injection H as _ <-.
  - cbn [slotLoop] in H.
    destruct (parseGroup g) as [[[[start end_] ip] port]| |];
      [|by injection H as _ <-|done].
    apply bind_inv in H as (u & s1 & Hset & H).
    apply setRange_inv in Hset as ((_ & Ho1 & Hr1) & _ & _).
    apply bind_inv in H as (c & s2 & [= <- <-] & H).
    destruct (pools (cl s1) !! slotAddrOf (Addr src) ip port) as [sp|].
    + apply IH in H as [? ?]. split; congruence.
    + apply bind_inv in H as ([sp err] & s3 & Hnp & H).
      apply keeps_newPool in Hnp.
      destruct err as [e|].
      * injection H as _ <-. rewrite Hnp. by split.
      * apply IH in H as [? ?]. rewrite Hnp in *. split; congruence.
Qed.

Lemma rebuild_opts w p client s r s' :
  rebuild w p client s = Ret r s' ->
  o (cl s') = o (cl s) /\ resetThrottle (cl s') = resetThrottle (cl s).
Proof.
  unfold rebuild. intros H.
  apply bind_inv in H as (r0 & s1 & Hr & H).
  apply keeps_Client_Cmd in Hr as Hk1.
  destruct (Array r0) as [err|elems]; [injection H as _ <-; by rewrite Hk1|].
  destruct elems as [|g rest]; [injection H as _ <-; by rewrite Hk1|].
  apply bind_inv in H as (lp & s2 & Hloop & H).
  apply slotLoop_opts in Hloop as [Ho2 Hr2].
  destruct lp as [e|[new changed]].
  { injection H as _ <-. rewrite Ho2, Hr2, Hk1. by split. }
  apply bind_inv in H as (c3 & t3 & [= <- <-] & H).
  apply bind_inv in H as (old & t4 & Hold & H).
  apply keeps_rangeOver in Hold as Hk4.
  apply bind_inv in H as (ch & t5 & Hdrop & H).
  apply dropStale_keeps in Hdrop as Hk5.
  apply bind_inv in H as (c5 & t6 & [= <- <-] & H).
  apply bind_inv in H as (u1 & t7 & [= _ <-] & H).
  destruct ch; apply bind_inv in H as (u' & t8 & [= _ <-] & H);
    injection H as _ <-; cbn; rewrite Hk5, Hk4, Ho2, Hr2, Hk1; by split.
Qed.

(** X23: [NewWithOpts]. When the dial of the seed address fails, its
    error is returned and no command has been sent. When the dial
    succeeds and ResetThrottle is negative, the first Reset panics in
    [time.NewTicker]. When a cluster is returned, its registry holds a
    pool for the seed address, its throttle ticks at ResetThrottle (10
    seconds when the option was 0), which is positive, and its pool
    size is PoolSize (10 when the option was 0). *)
Theorem NewWithOpts_result w opts0 :
  let throttle :=
    if ResetThrottle opts0 =? 0 then 10000000000 else ResetThrottle opts0 in
  (forall err, dial w 0 (oAddr opts0) = Some err ->
     exists s',
       NewWithOpts w opts0 = Ret (inl err) s' /\
       trace s' = [EvNewPool (mkPool 0 (oAddr opts0)) (Some err)]) /\
  (dial w 0 (oAddr opts0) = None -> ResetThrottle opts0 < 0 ->
   NewWithOpts w opts0 = Panic "non-positive interval for NewTicker") /\
  (forall s', NewWithOpts w opts0 = Ret (inr tt) s' ->
     oAddr opts0 ∈ dom (pools (cl s')) /\
     resetThrottle (cl s') = Some throttle /\ 0 < throttle /\
     PoolSize (o (cl s')) = (if PoolSize opts0 =? 0 then 10 else PoolSize opts0)).
Proof.
  intros throttle. unfold NewWithOpts.
  set (o' := mkOpts _ _ _ _). set (s0 := mkSt _ _ _).
  split; [|split].
  - intros err Hd. unfold mbind at 1, M_bind at 1.
    unfold newPool, mbind, M_bind. cbn. rewrite Hd. eexists. by split.
  - intros Hd Hneg. unfold mbind at 1, M_bind at 1.
    unfold newPool, mbind, M_bind. cbn. rewrite Hd. cbn.
    unfold Reset, resetInner, mbind, M_bind.
    cbn [getCluster setCluster cl set_pools resetThrottle o].
    subst o'. cbn [ResetThrottle]. fold throttle.
    assert (throttle <= 0) as Hle.
    { subst throttle. destruct (Z.eqb_spec (ResetThrottle opts0) 0); lia. }
    by destruct (Z.leb_spec throttle 0); [|lia].
  - intros s' H.
    apply bind_inv in H as ([p err] & s1 & Hnp & H).
    assert (Hp : p = mkPool 0 (oAddr opts0) /\ cl s1 = cl s0).
    { split; [|by apply keeps_newPool in Hnp].
      unfold newPool in Hnp. apply bind_inv in Hnp as (t & st & [= <- <-] & Hnp).
      apply bind_inv in Hnp as (u & su & _ & Hnp). by injection Hnp as <- _ _. }
    destruct Hp as (-> & Hcl1).
    destruct err as [e|]; [done|].
    apply bind_inv in H as (c & s2 & [= <- <-] & H).
    apply bind_inv in H as (u & s3 & [= _ <-] & H).
    apply bind_inv in H as (err & s4 & Hreset & H).
    destruct err as [e|]; [done|]. injection H as <-.
    unfold Reset, resetInner in Hreset.
    apply bind_inv in Hreset as (c & t0 & [= <- <-] & Hreset).
    apply bind_inv in Hreset as (proceed & t1 & Hthr & Hreset).
    rewrite Hcl1 in Hthr. cbn [cl s0 set_pools resetThrottle o o' ResetThrottle] in Hthr.
    fold throttle in Hthr.
    destruct (Z.leb_spec throttle 0) as [|Hpos]; [done|].
    apply bind_inv in Hthr as (u1 & t2 & [= _ <-] & [= <- <-]).
    cbn [negb] in Hreset.
    match type of Hreset with _ ?st = _ => set (st1 := st) in * end.
    apply bind_inv in Hreset as (rp & t3 & Hrp & Hreset).
    apply keeps_getRandomPoolInner in Hrp as Hcl3.
    destruct (getRandomPoolInner_spec w st1) as (rp' & t3' & Hsp & _ & _ & _ & Hsome).
    rewrite Hsp in Hrp. injection Hrp as -> ->.
    destruct rp as [q|]; [|done].
    destruct (Hsome q eq_refl) as [a Ha]. cbn in Ha.
    apply lookup_singleton_Some in Ha as [_ <-].
    apply bind_inv in Hreset as (g & t4 & Hg & Hreset).
    apply keeps_Pool_Get in Hg as Hcl4.
    destruct g as [e|client]; [done|].
    apply bind_inv in Hreset as (res & t5 & Hreb & Hreset).
    apply bind_inv in Hreset as (u2 & t6 & [= _ <-] & [= -> <-]).
    cbn [cl].
    pose proof (rebuild_opts _ _ _ _ _ _ Hreb) as [Ho5 Hr5].
    apply rebuild_registry in Hreb as (elems & evs & _ & _ & Hdom & _ & _).
    rewrite Ho5, Hr5, Hcl4, Hcl3. cbn.
    split; [|done].
    rewrite Hdom. cbn [Addr]. apply elem_of_union. left. by apply elem_of_singleton.
Qed.

(** The theorem above for the seed [A] that names itself master of
    its slots. *)
Lemma NewWithOpts_result_witness :
  exists s',
    NewWithOpts (Scenario.redirecting "MOVED") Scenario.opts = Ret (inr tt) s' /\
    Scenario.A ∈ dom (pools (cl s')) /\
    resetThrottle (cl s') = Some 10000000000 /\
    NewWithOpts (Scenario.redirecting "MOVED") (mkOpts Scenario.A 0 0 (-1))
      = Panic "non-positive interval for NewTicker".
Proof.
  pose proof (NewWithOpts_result (Scenario.redirecting "MOVED") Scenario.opts) as H.
  pose proof (NewWithOpts_result (Scenario.redirecting "MOVED")
                (mkOpts Scenario.A 0 0 (-1))) as H'.
  eexists. split; [vm_compute; reflexivity|].
  destruct H as (_ & _ & H). destruct H' as (_ & H' & _).
  split; [|split].
  - refine (proj1 (H _ _)). vm_compute. reflexivity.
  - refine (proj1 (proj2 (H _ _))). vm_compute. reflexivity.
  - apply H'; [reflexivity|cbn; lia].
Defined.

(** * Following a redirection *)







